(** * EmoLang parser: a shallow embedding of [emolang/parser/parser.py]

    The parser turns a list of classified tokens into an abstract syntax
    tree.  It keeps one mutable field, the cursor [_current]; everything else
    is read-only.  The embedding below threads the cursor explicitly through
    a small state-and-exception monad, models Python's list indexing
    (negative indices, [IndexError]) and Python's [None], and uses a fuel
    argument for the mutually recursive methods and their [while] loops. *)

From Stdlib Require Import ZArith List String Bool Lia.
Import ListNotations.

Local Open Scope string_scope.
Local Open Scope Z_scope.

(** ** Token kinds: [lexer/token_type.py] *)

Inductive TokenType : Type :=
  | LEFT_PAREN | RIGHT_PAREN | LEFT_BRACE | RIGHT_BRACE | SEMI_COLON
  | PLUS | MINUS | MULTIPLY | DIVIDE | MODULUS | EXPONENT | COMMA | PERIOD
  | BANG | BANG_EQUAL | EQUAL | EQUAL_EQUAL
  | GREATER | GREATER_EQUAL | LESS | LESS_EQUAL
  | IDENTIFIER | STRING | NUMBER
  | AND | ELSE | ELSEIF | FALSE | LOOP | IF | OR | PRINT | INPUT | RETURN
  | TRUE | VAR | FUNCTION | FUNCTION_CALL | BREAK | CONTINUE
  | EOF.

Definition TokenType_eq_dec (a b : TokenType) : {a = b} + {a <> b}.
Proof. decide equality. Defined.

Definition TokenType_eqb (a b : TokenType) : bool :=
  if TokenType_eq_dec a b then true else false.

(** Python sets of token kinds are used only through [in]; a list with a
    boolean membership test keeps them executable. *)
Definition mem (t : TokenType) (s : list TokenType) : bool :=
  existsb (TokenType_eqb t) s.

(** [str(TokenType.X)], as interpolated into one error message. *)
Definition TokenType_str (t : TokenType) : string :=
  "TokenType." ++
  match t with
  | LEFT_PAREN => "LEFT_PAREN" | RIGHT_PAREN => "RIGHT_PAREN"
  | LEFT_BRACE => "LEFT_BRACE" | RIGHT_BRACE => "RIGHT_BRACE"
  | SEMI_COLON => "SEMI_COLON" | PLUS => "PLUS" | MINUS => "MINUS"
  | MULTIPLY => "MULTIPLY" | DIVIDE => "DIVIDE" | MODULUS => "MODULUS"
  | EXPONENT => "EXPONENT" | COMMA => "COMMA" | PERIOD => "PERIOD"
  | BANG => "BANG" | BANG_EQUAL => "BANG_EQUAL" | EQUAL => "EQUAL"
  | EQUAL_EQUAL => "EQUAL_EQUAL" | GREATER => "GREATER"
  | GREATER_EQUAL => "GREATER_EQUAL" | LESS => "LESS"
  | LESS_EQUAL => "LESS_EQUAL" | IDENTIFIER => "IDENTIFIER"
  | STRING => "STRING" | NUMBER => "NUMBER" | AND => "AND" | ELSE => "ELSE"
  | ELSEIF => "ELSEIF" | FALSE => "FALSE" | LOOP => "LOOP" | IF => "IF"
  | OR => "OR" | PRINT => "PRINT" | INPUT => "INPUT" | RETURN => "RETURN"
  | TRUE => "TRUE" | VAR => "VAR" | FUNCTION => "FUNCTION"
  | FUNCTION_CALL => "FUNCTION_CALL" | BREAK => "BREAK"
  | CONTINUE => "CONTINUE" | EOF => "EOF"
  end.

Definition literal_types : list TokenType := [NUMBER; STRING; TRUE; FALSE].

Definition valid_print_types : list TokenType := [IDENTIFIER] ++ literal_types.

Definition operation_types : list TokenType :=
  [MULTIPLY; DIVIDE; PLUS; MINUS; MODULUS; EXPONENT; BANG; BANG_EQUAL;
   EQUAL_EQUAL; LESS; LESS_EQUAL; GREATER; GREATER_EQUAL; AND; OR].

Definition unary_operations : list TokenType := [BANG].

Definition valid_expression_types : list TokenType :=
  valid_print_types ++ operation_types ++
  [LEFT_PAREN; RIGHT_PAREN; COMMA; FUNCTION_CALL].

Definition if_statement_tokens : list TokenType := [IF; ELSEIF; ELSE].

(** ** Tokens and syntax-tree nodes *)

(** Modelled from the spec: the decoded literal payload of a token (the
    lexer that produces it is not part of the sources).  The parser never
    inspects it; it only copies it into literal nodes. *)
Inductive PyValue : Type :=
  | PyNumber (n : Z)
  | PyString (s : string)
  | PyBool (b : bool).

(** Modelled from the spec: the [Token] class of the lexer package, a record
    of kind, lexeme, optional literal value and 1-based source line. *)
Record Token : Type := mkToken {
  get_token_type : TokenType;
  get_lexeme : string;
  get_literal : option PyValue;
  get_line : Z
}.

Definition is_token_type (token : Token) (t : TokenType) : bool :=
  TokenType_eqb (get_token_type token) t.

(** Modelled from the spec: the node classes of [emolang/parser/nodes].
    A field has type [option Node] where the parser can store Python's
    [None] in it, and type [Node] where the code rules [None] out. *)
#[local] Unset Elimination Schemes.
Inductive Node : Type :=
  | BlockNode (nodes : list (option Node))
  | AssignmentNode (target : Node) (value : option Node)
  | PrintNode (value : option Node)
  | IfNode (condition : option Node) (body : Node) (next : option Node)
  | ElseIfNode (condition : option Node) (body : Node) (next : option Node)
  | ElseNode (body : option Node)
  | NumberLiteralNode (value : option PyValue)
  | StringLiteralNode (value : option PyValue)
  | BooleanLiteralNode (value : bool)
  | VariableNode (name : string)
  | NotNode (operand : Node)
  | AndNode (l r : Node)
  | OrNode (l r : Node)
  | EqualsNode (l r : Node)
  | NotEqualsNode (l r : Node)
  | LessNode (l r : Node)
  | LessEqualsNode (l r : Node)
  | GreaterNode (l r : Node)
  | GreaterEqualsNode (l r : Node)
  | AdditionNode (l r : Node)
  | SubtractionNode (l r : Node)
  | MultiplicationNode (l r : Node)
  | DivisionNode (l r : Node)
  | ModulusNode (l r : Node)
  | ExponentNode (l r : Node).
#[local] Set Elimination Schemes.

(** Modelled from the spec: the transient operand carriers.  Both are only
    ever built from operands already checked against [None]. *)
Inductive Context : Type :=
  | UnaryOperationContext (operand : Node)
  | BinaryOperationContext (left_operand right_operand : Node).

(** ** Exceptions, results and the cursor monad *)

Inductive Exn : Type :=
  | SyntaxException (line : Z) (message : string)
  | IndexError
  | AttributeError.

Inductive Res (A : Type) : Type :=
  | Ok (a : A)
  | Raise (e : Exn)
  | OutOfFuel.

Arguments Ok {A} a.
Arguments Raise {A} e.
Arguments OutOfFuel {A}.

(** A computation reads the cursor and returns a value with the new cursor. *)
Definition M (A : Type) : Type := Z -> Res (A * Z).

Definition ret {A} (a : A) : M A := fun cur => Ok (a, cur).

Definition bind {A B} (m : M A) (k : A -> M B) : M B :=
  fun cur =>
    match m cur with
    | Ok (a, cur') => k a cur'
    | Raise e => Raise e
    | OutOfFuel => OutOfFuel
    end.

Definition raise {A} (e : Exn) : M A := fun _ => Raise e.
Definition out_of_fuel {A} : M A := fun _ => OutOfFuel.
Definition get_current : M Z := fun cur => Ok (cur, cur).
Definition set_current (index : Z) : M unit := fun _ => Ok (tt, index).

Declare Scope monad_scope.
Delimit Scope monad_scope with monad.
Notation "x <- c1 ;; c2" := (bind c1 (fun x => c2))
  (at level 61, c1 at next level, right associativity) : monad_scope.
Notation "' pat <- c1 ;; c2" := (bind c1 (fun x => match x with pat => c2 end))
  (at level 61, pat pattern, c1 at next level, right associativity) : monad_scope.
Notation "c1 ;;; c2" := (bind c1 (fun _ => c2))
  (at level 61, right associativity) : monad_scope.
Local Open Scope monad_scope.

(** ** The parser: [parser/parser.py] *)

Section Parser.

(** [self._tokens] *)
Variable tokens : list Token.

Definition len_tokens : Z := Z.of_nat (List.length tokens).

(** [self._tokens[index]]: Python list indexing.  A negative index counts
    from the end; anything outside [-len, len) has no element. *)
Definition token_at (index : Z) : option Token :=
  let i := if index <? 0 then len_tokens + index else index in
  if (0 <=? i) && (i <? len_tokens) then nth_error tokens (Z.to_nat i)
  else None.

(** [_retrieve_token]: indexing outside the list raises [IndexError]. *)
Definition retrieve_token (index : Z) : M Token :=
  match token_at index with
  | Some token => ret token
  | None => raise IndexError
  end.

Definition in_bounds (index : Z) : bool := index <? len_tokens.

Definition current_token : M Token :=
  cur <- get_current ;; retrieve_token cur.

Definition is_eof_token : M bool :=
  token <- current_token ;; ret (is_token_type token EOF).

Definition validate_token (valid_token_types : list TokenType)
    (error_message : string) : M unit :=
  cur <- get_current ;;
  next_token <- retrieve_token cur ;;
  if negb (mem (get_token_type next_token) valid_token_types) then
    raise (SyntaxException (get_line next_token) error_message)
  else set_current (cur + 1).

Definition parse_identifier_token (index : Z) : M Node :=
  identifier_token <- retrieve_token index ;;
  ret (VariableNode (get_lexeme identifier_token)).

(** The [while] loop of [_find_end_of_expression_index].  Each iteration that
    continues has read a token at [index], so [index < len]; the distance to
    [len] bounds the remaining iterations. *)
Fixpoint find_end_of_expression_index_while (n : nat) (index : Z) : M Z :=
  token <- retrieve_token index ;;
  if mem (get_token_type token) valid_expression_types then
    match n with
    | O => out_of_fuel
    | S n' => find_end_of_expression_index_while n' (index + 1)
    end
  else ret index.

Definition find_end_of_expression_index : M Z :=
  index <- get_current ;;
  find_end_of_expression_index_while (Z.to_nat (len_tokens - index)) index.

(** The [while current_index <= right_index] loop of
    [_find_parenthesis_count], with its [break]. *)
Fixpoint find_parenthesis_count_while (n : nat) (right_index : Z)
    (paren_counter current_index : Z) : M (Z * Z) :=
  if current_index <=? right_index then
    match n with
    | O => out_of_fuel
    | S n' =>
      token <- retrieve_token current_index ;;
      let paren_counter :=
        if is_token_type token LEFT_PAREN then paren_counter + 1
        else paren_counter in
      let paren_counter :=
        if is_token_type token RIGHT_PAREN then paren_counter - 1
        else paren_counter in
      if paren_counter =? 0 then ret (paren_counter, current_index)
      else find_parenthesis_count_while n' right_index paren_counter
             (current_index + 1)
    end
  else ret (paren_counter, current_index).

Definition find_parenthesis_count (left_index right_index : Z) : M (Z * Z) :=
  '(paren_counter, current_index) <-
    find_parenthesis_count_while (Z.to_nat (right_index - left_index + 1))
      right_index 0 left_index ;;
  token <- retrieve_token right_index ;;
  let token_line := get_line token in
  if paren_counter >? 0 then
    raise (SyntaxException token_line "Left parenthesis missing closing right.")
  else if paren_counter <? 0 then
    raise (SyntaxException token_line
             "Right parenthesis missing corresponding left.")
  else ret (paren_counter, current_index).

Definition within_parens (left_index right_index : Z) : M bool :=
  left_token <- retrieve_token left_index ;;
  right_token <- retrieve_token right_index ;;
  ret (is_token_type left_token LEFT_PAREN
       && is_token_type right_token RIGHT_PAREN).

Definition is_nested_parens (left_index right_index : Z) : M bool :=
  w <- within_parens left_index right_index ;;
  if negb w then ret false
  else
    '(paren_counter, end_index) <-
      find_parenthesis_count left_index right_index ;;
    ret ((paren_counter =? 0) && (end_index =? right_index)).

Definition skip_parentheses (left_index right_index : Z) : M Z :=
  '(paren_counter, end_index) <-
    find_parenthesis_count left_index right_index ;;
  ret (Z.min (end_index + 1) right_index).

Definition parse_literal (token : Token) : option Node :=
  if is_token_type token STRING then
    Some (StringLiteralNode (get_literal token))
  else if is_token_type token NUMBER then
    Some (NumberLiteralNode (get_literal token))
  else if is_token_type token TRUE then Some (BooleanLiteralNode true)
  else if is_token_type token FALSE then Some (BooleanLiteralNode false)
  else None.

(** [binary_operation_map], as a partial function on token kinds. *)
Definition binary_operation_map (t : TokenType)
    : option (Node -> Node -> Node) :=
  match t with
  | AND => Some AndNode
  | BANG_EQUAL => Some NotEqualsNode
  | DIVIDE => Some DivisionNode
  | EQUAL_EQUAL => Some EqualsNode
  | EXPONENT => Some ExponentNode
  | GREATER => Some GreaterNode
  | GREATER_EQUAL => Some GreaterEqualsNode
  | LESS => Some LessNode
  | LESS_EQUAL => Some LessEqualsNode
  | MINUS => Some SubtractionNode
  | MODULUS => Some ModulusNode
  | MULTIPLY => Some MultiplicationNode
  | OR => Some OrNode
  | PLUS => Some AdditionNode
  | _ => None
  end.

(** Calling an operand getter on [None], or on the context of the other
    arity, is an [AttributeError] in Python. *)
Definition parse_operation (token : Token) (context : option Context)
    : M (option Node) :=
  let token_type := get_token_type token in
  match binary_operation_map token_type with
  | Some operation_class =>
    match context with
    | Some (BinaryOperationContext left_operand right_operand) =>
      ret (Some (operation_class left_operand right_operand))
    | _ => raise AttributeError
    end
  | None =>
    if is_token_type token BANG then
      match context with
      | Some (UnaryOperationContext operand) => ret (Some (NotNode operand))
      | _ => raise AttributeError
      end
    else ret None
  end.

Definition operator_precedence : list (list TokenType) :=
  [ [OR];
    [AND];
    [EQUAL_EQUAL; GREATER; GREATER_EQUAL; LESS_EQUAL; LESS; BANG_EQUAL];
    [BANG];
    [MINUS; PLUS];
    [MULTIPLY; DIVIDE; MODULUS];
    [EXPONENT] ].

(** Truth value of [if node:].  Node objects are plain records, so only
    [None] is false. *)
Definition truthy (node : option Node) : bool :=
  match node with Some _ => true | None => false end.

(** *** The mutually recursive methods

    Every method call and every loop iteration spends one unit of fuel. *)

Fixpoint handle_token (fuel : nat) (index : option Z)
    (context : option Context) {struct fuel} : M (option Node) :=
  match fuel with
  | O => out_of_fuel
  | S fuel =>
    index <- match index with
             | None => get_current
             | Some i => ret i
             end ;;
    token <- retrieve_token index ;;
    if is_token_type token PRINT then parse_print_token fuel
    else if is_token_type token IDENTIFIER then
      node <- parse_identifier_token index ;; ret (Some node)
    else if is_token_type token VAR then parse_var_token fuel
    else if is_token_type token IF then parse_if_statement fuel
    else if mem (get_token_type token) literal_types then
      ret (parse_literal token)
    else if mem (get_token_type token) operation_types then
      parse_operation token context
    else ret None
  end

with parse_print_token (fuel : nat) {struct fuel} : M (option Node) :=
  match fuel with
  | O => out_of_fuel
  | S fuel =>
    validate_token [PRINT] "Expected '🗣️' for print statement." ;;;
    node_to_print <- parse_expression fuel ;;
    validate_token [SEMI_COLON] "Expected ';' to terminate statement." ;;;
    ret (Some (PrintNode node_to_print))
  end

with parse_var_token (fuel : nat) {struct fuel} : M (option Node) :=
  match fuel with
  | O => out_of_fuel
  | S fuel =>
    validate_token [VAR] "Expected '🥸' to indicate variable." ;;;
    cur <- get_current ;;
    variable_node <- parse_identifier_token cur ;;
    validate_token [IDENTIFIER] "Expected an identifier for assignment." ;;;
    validate_token [EQUAL] "Expected '✍️' for assignment." ;;;
    value_node <- parse_expression fuel ;;
    validate_token [SEMI_COLON] "Expected ';' to terminate the statement." ;;;
    ret (Some (AssignmentNode variable_node value_node))
  end

with parse_expression (fuel : nat) {struct fuel} : M (option Node) :=
  match fuel with
  | O => out_of_fuel
  | S fuel =>
    end_of_expression_index <- find_end_of_expression_index ;;
    cur <- get_current ;;
    node <- parse_expression_recursive fuel cur (end_of_expression_index - 1) ;;
    set_current end_of_expression_index ;;;
    ret node
  end

with parse_expression_recursive (fuel : nat) (left_index right_index : Z)
    {struct fuel} : M (option Node) :=
  match fuel with
  | O => out_of_fuel
  | S fuel =>
    left_token <- retrieve_token left_index ;;
    right_token <- retrieve_token right_index ;;
    let index_delta := right_index - left_index in
    if index_delta =? 0 then
      let token_type := get_token_type left_token in
      if negb (mem token_type valid_expression_types) then
        raise (SyntaxException (get_line left_token)
                 ("Invalid token in expression: " ++ TokenType_str token_type))
      else handle_token fuel (Some left_index) None
    else
      nested <- is_nested_parens left_index right_index ;;
      if nested then
        parse_expression_recursive fuel (left_index + 1) (right_index - 1)
      else
        parse_expression_recursive_for fuel operator_precedence
          left_index right_index
  end

(** [for operators in operator_precedence: ...] and the final [raise]. *)
with parse_expression_recursive_for (fuel : nat)
    (precedence : list (list TokenType)) (left_index right_index : Z)
    {struct fuel} : M (option Node) :=
  match fuel with
  | O => out_of_fuel
  | S fuel =>
    match precedence with
    | operators :: rest =>
      node <- parse_expression_recursive_while fuel operators
                left_index right_index left_index ;;
      if truthy node then ret node
      else parse_expression_recursive_for fuel rest left_index right_index
    | [] =>
      token <- retrieve_token left_index ;;
      raise (SyntaxException (get_line token)
               "Invalid expression: no valid operations found.")
    end
  end

(** [while index < right_index: ...]; yields the node that the enclosing
    method returns from inside the loop, or [None] when the loop runs out. *)
with parse_expression_recursive_while (fuel : nat)
    (operators : list TokenType) (left_index right_index index : Z)
    {struct fuel} : M (option Node) :=
  match fuel with
  | O => out_of_fuel
  | S fuel =>
    if index <? right_index then
      token <- retrieve_token index ;;
      index <- (if is_token_type token LEFT_PAREN
                then skip_parentheses index right_index
                else ret index) ;;
      node <- handle_by_operations fuel operators left_index right_index
                index ;;
      if truthy node then ret node
      else parse_expression_recursive_while fuel operators
             left_index right_index (index + 1)
    else ret None
  end

with handle_by_operations (fuel : nat) (operations : list TokenType)
    (left_index right_index index : Z) {struct fuel} : M (option Node) :=
  match fuel with
  | O => out_of_fuel
  | S fuel =>
    token <- retrieve_token index ;;
    let token_type := get_token_type token in
    if mem token_type operations then
      if mem token_type unary_operations then
        handle_unary_operation fuel index right_index
      else handle_binary_operation fuel left_index index right_index
    else ret None
  end

with handle_unary_operation (fuel : nat) (index right_index : Z)
    {struct fuel} : M (option Node) :=
  match fuel with
  | O => out_of_fuel
  | S fuel =>
    token <- retrieve_token index ;;
    right_node <- parse_expression_recursive fuel (index + 1) right_index ;;
    match right_node with
    | None =>
      raise (SyntaxException (get_line token)
               "Invalid expression: missing right operand.")
    | Some right_node =>
      handle_token fuel (Some index)
        (Some (UnaryOperationContext right_node))
    end
  end

with handle_binary_operation (fuel : nat) (left_index index right_index : Z)
    {struct fuel} : M (option Node) :=
  match fuel with
  | O => out_of_fuel
  | S fuel =>
    token <- retrieve_token index ;;
    left_node <- parse_expression_recursive fuel left_index (index - 1) ;;
    match left_node with
    | None =>
      raise (SyntaxException (get_line token)
               "Invalid expression: missing left operand.")
    | Some left_node =>
      right_node <- parse_expression_recursive fuel (index + 1) right_index ;;
      match right_node with
      | None =>
        raise (SyntaxException (get_line token)
                 "Invalid expression: missing right operand.")
      | Some right_node =>
        handle_token fuel (Some index)
          (Some (BinaryOperationContext left_node right_node))
      end
    end
  end

with parse_if_statement (fuel : nat) {struct fuel} : M (option Node) :=
  match fuel with
  | O => out_of_fuel
  | S fuel =>
    validate_token [IF] "Expected '🤔' for if statement." ;;;
    '(condition_node, block_node) <- parse_conditional fuel ;;
    next_conditional <- parse_next_if_conditional fuel ;;
    ret (Some (IfNode condition_node block_node next_conditional))
  end

with parse_conditional (fuel : nat) {struct fuel} : M (option Node * Node) :=
  match fuel with
  | O => out_of_fuel
  | S fuel =>
    condition_node <- parse_expression fuel ;;
    validate_token [LEFT_BRACE] "Expected '{' to begin if statement block." ;;;
    if_block_node <- parse_block fuel ;;
    validate_token [RIGHT_BRACE] "Expected '}' to begin if statement block." ;;;
    ret (condition_node, if_block_node)
  end

with parse_block (fuel : nat) {struct fuel} : M Node :=
  match fuel with
  | O => out_of_fuel
  | S fuel => parse_block_while fuel []
  end

(** [while not self._current_token().is_token_type(RIGHT_BRACE): ...] *)
with parse_block_while (fuel : nat) (nodes : list (option Node))
    {struct fuel} : M Node :=
  match fuel with
  | O => out_of_fuel
  | S fuel =>
    token <- current_token ;;
    if negb (is_token_type token RIGHT_BRACE) then
      eof <- is_eof_token ;;
      if eof then
        token <- current_token ;;
        raise (SyntaxException (get_line token) "Missing closing right brace.")
      else
        node <- handle_token fuel None None ;;
        parse_block_while fuel (nodes ++ [node])
    else ret (BlockNode nodes)
  end

with parse_next_if_conditional (fuel : nat) {struct fuel} : M (option Node) :=
  match fuel with
  | O => out_of_fuel
  | S fuel =>
    token <- current_token ;;
    if is_token_type token ELSE then parse_else fuel
    else
      token <- current_token ;;
      if negb (mem (get_token_type token) if_statement_tokens) then ret None
      else
        token <- current_token ;;
        if is_token_type token ELSEIF then
          validate_token [ELSEIF] "Expected '🙈' for elseif statement." ;;;
          '(condition_node, block_node) <- parse_conditional fuel ;;
          next_conditional <- parse_next_if_conditional fuel ;;
          ret (Some (ElseIfNode condition_node block_node next_conditional))
        else ret None
  end

with parse_else (fuel : nat) {struct fuel} : M (option Node) :=
  match fuel with
  | O => out_of_fuel
  | S fuel =>
    let else_block_node := None in
    token <- current_token ;;
    if is_token_type token ELSE then
      validate_token [ELSE] "Expected '💅' for else." ;;;
      validate_token [LEFT_BRACE] "Expected '{' to begin else block." ;;;
      else_block_node <- parse_block fuel ;;
      validate_token [RIGHT_BRACE] "Expected '}' to begin else block." ;;;
      ret (Some (ElseNode (Some else_block_node)))
    else ret (Some (ElseNode else_block_node))
  end.

(** The loop of [parse]:
    [while self._in_bounds(self._current) and not self._is_eof_token()]. *)
Fixpoint parse_while (fuel : nat) (nodes : list (option Node)) : M Node :=
  match fuel with
  | O => out_of_fuel
  | S fuel =>
    cur <- get_current ;;
    if in_bounds cur then
      eof <- is_eof_token ;;
      if negb eof then
        node <- handle_token fuel None None ;;
        parse_while fuel (nodes ++ [node])
      else ret (BlockNode nodes)
    else ret (BlockNode nodes)
  end.

(** [Parser(tokens).parse()]: the cursor starts at 0. *)
Definition parse (fuel : nat) : Res Node :=
  match parse_while fuel [] 0 with
  | Ok (node, _) => Ok node
  | Raise e => Raise e
  | OutOfFuel => OutOfFuel
  end.

End Parser.

(** ** Definitions used by the statements below *)

(** [res_le r1 r2]: [r1] ran out of fuel, or it is exactly [r2]. *)
Definition res_le {A} (r1 r2 : Res A) : Prop := r1 = OutOfFuel \/ r1 = r2.

Definition M_le {A} (m1 m2 : M A) : Prop :=
  forall cur, res_le (m1 cur) (m2 cur).

(** The sixteen mutually recursive methods at two fuel levels. *)
Definition mono_at (tokens : list Token) (n n' : nat) : Prop :=
  (forall index context,
      M_le (handle_token tokens n index context)
           (handle_token tokens n' index context)) /\
  M_le (parse_print_token tokens n) (parse_print_token tokens n') /\
  M_le (parse_var_token tokens n) (parse_var_token tokens n') /\
  M_le (parse_expression tokens n) (parse_expression tokens n') /\
  (forall l r,
      M_le (parse_expression_recursive tokens n l r)
           (parse_expression_recursive tokens n' l r)) /\
  (forall p l r,
      M_le (parse_expression_recursive_for tokens n p l r)
           (parse_expression_recursive_for tokens n' p l r)) /\
  (forall ops l r i,
      M_le (parse_expression_recursive_while tokens n ops l r i)
           (parse_expression_recursive_while tokens n' ops l r i)) /\
  (forall ops l r i,
      M_le (handle_by_operations tokens n ops l r i)
           (handle_by_operations tokens n' ops l r i)) /\
  (forall i r,
      M_le (handle_unary_operation tokens n i r)
           (handle_unary_operation tokens n' i r)) /\
  (forall l i r,
      M_le (handle_binary_operation tokens n l i r)
           (handle_binary_operation tokens n' l i r)) /\
  M_le (parse_if_statement tokens n) (parse_if_statement tokens n') /\
  M_le (parse_conditional tokens n) (parse_conditional tokens n') /\
  M_le (parse_block tokens n) (parse_block tokens n') /\
  (forall nodes,
      M_le (parse_block_while tokens n nodes)
           (parse_block_while tokens n' nodes)) /\
  M_le (parse_next_if_conditional tokens n)
       (parse_next_if_conditional tokens n') /\
  M_le (parse_else tokens n) (parse_else tokens n').

(** Kind of the token at an index, when there is one. *)
Definition kind_at (tokens : list Token) (index : Z) : option TokenType :=
  option_map get_token_type (token_at tokens index).

(** Tokens for examples: a bare token of a kind, a number, an identifier. *)
Definition tk (t : TokenType) (line : Z) : Token := mkToken t "" None line.
Definition num (n : Z) (line : Z) : Token :=
  mkToken NUMBER "" (Some (PyNumber n)) line.
Definition ident (name : string) (line : Z) : Token :=
  mkToken IDENTIFIER name None line.

(** The leaf a single operand token resolves to: a variable reference for
    an identifier, the matching literal node for a literal. *)
Definition leaf_node (t : Token) : option Node :=
  match get_token_type t with
  | IDENTIFIER => Some (VariableNode (get_lexeme t))
  | STRING => Some (StringLiteralNode (get_literal t))
  | NUMBER => Some (NumberLiteralNode (get_literal t))
  | TRUE => Some (BooleanLiteralNode true)
  | FALSE => Some (BooleanLiteralNode false)
  | _ => None
  end.

(** The literal node that matches a literal token, in the spec's words:
    number, string and the two booleans. *)
Definition matching_literal_node (t : Token) : option Node :=
  match get_token_type t with
  | NUMBER => Some (NumberLiteralNode (get_literal t))
  | STRING => Some (StringLiteralNode (get_literal t))
  | TRUE => Some (BooleanLiteralNode true)
  | FALSE => Some (BooleanLiteralNode false)
  | _ => None
  end.

(** [run tokens cur e]: the tokens from [cur] up to [e] (excluded) are
    expression-legal and the token at [e] exists and is not: [e] is the
    first index past the maximal run that starts at [cur]. *)
Definition expression_run (tokens : list Token) (cur e : Z) : Prop :=
  cur <= e /\
  (forall i, cur <= i < e ->
     exists t, token_at tokens i = Some t /\
               mem (get_token_type t) valid_expression_types = true) /\
  (exists t, token_at tokens e = Some t /\
             mem (get_token_type t) valid_expression_types = false).

(** [print (1 + 2;] on source line 3: the parenthesis is never closed. *)
Definition tokens_unclosed_paren : list Token :=
  [tk PRINT 3; tk LEFT_PAREN 3; num 1 3; tk PLUS 3; num 2 3;
   tk SEMI_COLON 3; tk EOF 4].

(** [print 1 + 2);] on source line 3: the parenthesis was never opened. *)
Definition tokens_unopened_paren : list Token :=
  [tk PRINT 3; num 1 3; tk PLUS 3; num 2 3; tk RIGHT_PAREN 3;
   tk SEMI_COLON 3; tk EOF 4].

(** The precedence tiers in the spec's words, lowest precedence first. *)
Definition spec_precedence : list (list TokenType) :=
  [ [OR]; [AND];
    [EQUAL_EQUAL; BANG_EQUAL; LESS; LESS_EQUAL; GREATER; GREATER_EQUAL];
    [BANG]; [PLUS; MINUS]; [MULTIPLY; DIVIDE; MODULUS]; [EXPONENT] ].

(** Two token sets are the same set. *)
Definition same_set (s1 s2 : list TokenType) : Prop :=
  forall t, mem t s1 = mem t s2.

(** [var isEquivalent = 4 == (8 / 2) * 3;], from the end-to-end tests. *)
Definition tokens_equality : list Token :=
  [tk VAR 2; ident "isEquivalent" 2; tk EQUAL 2; num 4 2; tk EQUAL_EQUAL 2;
   tk LEFT_PAREN 2; num 8 2; tk DIVIDE 2; num 2 2; tk RIGHT_PAREN 2;
   tk MULTIPLY 2; num 3 2; tk SEMI_COLON 2; tk EOF 3].

(** The last node of an if-chain: follow the [next] links of If and ElseIf
    nodes until there is none. *)
Fixpoint chain_end (n : Node) : Node :=
  match n with
  | IfNode _ _ (Some n') => chain_end n'
  | ElseIfNode _ _ (Some n') => chain_end n'
  | _ => n
  end.

(** [else { }] followed by the end of the file. *)
Definition tokens_else_empty : list Token :=
  [tk ELSE 1; tk LEFT_BRACE 1; tk RIGHT_BRACE 1; tk EOF 2].

(** A computation that, when it returns, leaves the cursor where it was. *)
Definition preserves_cursor {A} (m : M A) : Prop :=
  forall cur a cur', m cur = Ok (a, cur') -> cur' = cur.

(** A set of kinds that holds none of the statement keywords on which
    [_handle_token] dispatches to a cursor-moving statement parser. *)
Definition stmt_free (ops : list TokenType) : bool :=
  negb (mem PRINT ops || mem VAR ops || mem IF ops).

(** The token at an index, if any, is not one of those keywords. *)
Definition not_statement_at (tokens : list Token) (i : Z) : Prop :=
  forall t, token_at tokens i = Some t ->
            mem (get_token_type t) [PRINT; VAR; IF] = false.

(** The range-parsing methods at one fuel level leave the cursor alone. *)
Definition frame_at (tokens : list Token) (n : nat) : Prop :=
  (forall l r, preserves_cursor (parse_expression_recursive tokens n l r)) /\
  (forall p l r, forallb stmt_free p = true ->
      preserves_cursor (parse_expression_recursive_for tokens n p l r)) /\
  (forall ops l r i, stmt_free ops = true ->
      preserves_cursor (parse_expression_recursive_while tokens n ops l r i)) /\
  (forall ops l r i, stmt_free ops = true ->
      preserves_cursor (handle_by_operations tokens n ops l r i)) /\
  (forall i r, not_statement_at tokens i ->
      preserves_cursor (handle_unary_operation tokens n i r)) /\
  (forall l i r, not_statement_at tokens i ->
      preserves_cursor (handle_binary_operation tokens n l i r)).

(** [print a;] *)
Definition tokens_print_a : list Token :=
  [tk PRINT 1; ident "a" 1; tk SEMI_COLON 1; tk EOF 2].

(** A chain [first op t1 op t2 ...] laid out from index [l]: operand
    tokens (identifiers or literals) at even offsets, the same operator
    kind [op] at odd offsets, no parentheses. *)
Fixpoint chain_at (tokens : list Token) (op : TokenType) (l : Z)
    (first : Token) (rest : list Token) : Prop :=
  token_at tokens l = Some first /\
  mem (get_token_type first) valid_print_types = true /\
  match rest with
  | [] => True
  | t :: rest' =>
    kind_at tokens (l + 1) = Some op /\ chain_at tokens op (l + 2) t rest'
  end.

(** The right-grouped tree over the operands of a chain:
    [mk first (mk t1 (mk t2 ...))]. *)
Fixpoint chain_node (mk : Node -> Node -> Node) (first : Token)
    (rest : list Token) : option Node :=
  match rest with
  | [] => leaf_node first
  | t :: rest' =>
    match leaf_node first, chain_node mk t rest' with
    | Some a, Some b => Some (mk a b)
    | _, _ => None
    end
  end.

(** The first tier of a precedence list that holds [op], with the tiers
    before and after it. *)
Fixpoint split_at_tier (op : TokenType) (p : list (list TokenType))
    : option (list (list TokenType) * list TokenType * list (list TokenType)) :=
  match p with
  | [] => None
  | ops :: rest =>
    if mem op ops then Some ([], ops, rest)
    else
      match split_at_tier op rest with
      | Some (before, tier, after) => Some (ops :: before, tier, after)
      | None => None
      end
  end.

(** [print a - b - c;] *)
Definition tokens_a_minus_b_minus_c : list Token :=
  [tk PRINT 1; ident "a" 1; tk MINUS 1; ident "b" 1; tk MINUS 1;
   ident "c" 1; tk SEMI_COLON 1; tk EOF 2].

(** The kinds of the three tiers tried before the unary tier:
    or, and, and the six comparisons. *)
Definition binding_kinds : list TokenType :=
  [OR; AND; EQUAL_EQUAL; GREATER; GREATER_EQUAL; LESS_EQUAL; LESS; BANG_EQUAL].

(** Those kinds and the logical not. *)
Definition search_kinds : list TokenType := binding_kinds ++ [BANG].

(** The tokens of [lo, hi) exist and none is a left parenthesis or of a
    kind in [kinds]. *)
Definition plain_range (tokens : list Token) (kinds : list TokenType)
    (lo hi : Z) : Prop :=
  forall j, lo <= j < hi ->
    exists t, token_at tokens j = Some t /\
              is_token_type t LEFT_PAREN = false /\
              mem (get_token_type t) kinds = false.

(** The tokens of [lo, hi] exist and none is of a kind in [kinds]. *)
Definition kinds_absent (tokens : list Token) (kinds : list TokenType)
    (lo hi : Z) : Prop :=
  forall j t, lo <= j <= hi -> token_at tokens j = Some t ->
    mem (get_token_type t) kinds = false.

(** [print 5 + not b;] *)
Definition tokens_5_plus_not_b : list Token :=
  [tk PRINT 1; num 5 1; tk PLUS 1; tk BANG 1; ident "b" 1;
   tk SEMI_COLON 1; tk EOF 2].

(** [print 5 + (not b);] *)
Definition tokens_5_plus_paren_not_b : list Token :=
  [tk PRINT 1; num 5 1; tk PLUS 1; tk LEFT_PAREN 1; tk BANG 1; ident "b" 1;
   tk RIGHT_PAREN 1; tk SEMI_COLON 1; tk EOF 2].

(** [var x = 7;] *)
Definition tokens_var_x_7 : list Token :=
  [tk VAR 1; ident "x" 1; tk EQUAL 1; num 7 1; tk SEMI_COLON 1; tk EOF 2].

(** [print ;] *)
Definition tokens_print_nothing : list Token :=
  [tk PRINT 1; tk SEMI_COLON 1; tk EOF 2].

(** [if a { print a; } elseif b { } else { print c; }] *)
Definition tokens_if_chain : list Token :=
  [tk IF 1; ident "a" 1; tk LEFT_BRACE 1;
   tk PRINT 2; ident "a" 2; tk SEMI_COLON 2;
   tk RIGHT_BRACE 3; tk ELSEIF 3; ident "b" 3; tk LEFT_BRACE 3;
   tk RIGHT_BRACE 4; tk ELSE 4; tk LEFT_BRACE 4;
   tk PRINT 5; ident "c" 5; tk SEMI_COLON 5;
   tk RIGHT_BRACE 6; tk EOF 7].

(** [if (age > 21) { print("yes"); }], as in the end-to-end tests. *)
Definition tokens_if_only : list Token :=
  [tk IF 1; tk LEFT_PAREN 1; ident "age" 1; tk GREATER 1; num 21 1;
   tk RIGHT_PAREN 1; tk LEFT_BRACE 1;
   tk PRINT 2; tk LEFT_PAREN 2; mkToken STRING "" (Some (PyString "yes")) 2;
   tk RIGHT_PAREN 2; tk SEMI_COLON 2;
   tk RIGHT_BRACE 3; tk EOF 4].

(** The kinds on which [_handle_token], called for a statement, returns
    without moving the cursor: every kind but print, var and if (which start
    a statement), the operators (which fail for lack of a context) and EOF
    (which ends the loop of [parse]). *)
Definition stalls_statement (k : TokenType) : bool :=
  negb (mem k [PRINT; VAR; IF; EOF] || mem k operation_types).

(** The message of the unmatched-right-parenthesis error. *)
Definition unmatched_right_message : string :=
  "Right parenthesis missing corresponding left.".

(** A computation that never raises the unmatched-right-parenthesis error,
    at whatever line. *)
Definition never_unmatched_right {A} (m : M A) : Prop :=
  forall cur line,
    m cur <> Raise (SyntaxException line unmatched_right_message).

(** The sixteen mutually recursive methods at one fuel level never raise
    it. *)
Definition never_unmatched_right_at (tokens : list Token) (n : nat) : Prop :=
  (forall index context,
      never_unmatched_right (handle_token tokens n index context)) /\
  never_unmatched_right (parse_print_token tokens n) /\
  never_unmatched_right (parse_var_token tokens n) /\
  never_unmatched_right (parse_expression tokens n) /\
  (forall l r, never_unmatched_right (parse_expression_recursive tokens n l r)) /\
  (forall p l r,
      never_unmatched_right (parse_expression_recursive_for tokens n p l r)) /\
  (forall ops l r i,
      never_unmatched_right
        (parse_expression_recursive_while tokens n ops l r i)) /\
  (forall ops l r i,
      never_unmatched_right (handle_by_operations tokens n ops l r i)) /\
  (forall i r, never_unmatched_right (handle_unary_operation tokens n i r)) /\
  (forall l i r,
      never_unmatched_right (handle_binary_operation tokens n l i r)) /\
  never_unmatched_right (parse_if_statement tokens n) /\
  never_unmatched_right (parse_conditional tokens n) /\
  never_unmatched_right (parse_block tokens n) /\
  (forall nodes, never_unmatched_right (parse_block_while tokens n nodes)) /\
  never_unmatched_right (parse_next_if_conditional tokens n) /\
  never_unmatched_right (parse_else tokens n).

(** ** Definitions used by the further properties *)

(** Whether the binary dispatch table has an entry for a kind. *)
Definition is_binary (k : TokenType) : bool :=
  match binary_operation_map k with Some _ => true | None => false end.

(** The expression-legal kinds that are neither operands nor operators. *)
Definition punctuation_kinds : list TokenType :=
  [LEFT_PAREN; RIGHT_PAREN; COMMA; FUNCTION_CALL].

(** [+ 1;] *)
Definition tokens_plus_one : list Token :=
  [tk PLUS 1; num 1 1; tk SEMI_COLON 1; tk EOF 2].

(** [print +;] *)
Definition tokens_print_plus : list Token :=
  [tk PRINT 1; tk PLUS 1; tk SEMI_COLON 1; tk EOF 2].

(** [print ,;] *)
Definition tokens_print_comma : list Token :=
  [tk PRINT 1; tk COMMA 1; tk SEMI_COLON 1; tk EOF 2].

(** [print a + b] with nothing after it, not even an end-of-file token. *)
Definition tokens_no_terminator : list Token :=
  [tk PRINT 1; ident "a" 1; tk PLUS 1; ident "b" 1].

(** [print a b;] *)
Definition tokens_a_b : list Token :=
  [tk PRINT 1; ident "a" 1; ident "b" 1; tk SEMI_COLON 1; tk EOF 2].

(** [print a * b + c * d;] *)
Definition tokens_sum_of_products : list Token :=
  [tk PRINT 1; ident "a" 1; tk MULTIPLY 1; ident "b" 1; tk PLUS 1;
   ident "c" 1; tk MULTIPLY 1; ident "d" 1; tk SEMI_COLON 1; tk EOF 2].

(** [print not isLess;], as in the end-to-end tests. *)
Definition tokens_not_isLess : list Token :=
  [tk PRINT 3; tk BANG 3; ident "isLess" 3; tk SEMI_COLON 3; tk EOF 4].

(** [var x = 5] with the end-of-file token right after it, on line 2. *)
Definition tokens_var_no_semicolon : list Token :=
  [tk VAR 1; ident "x" 1; tk EQUAL 1; num 5 1; tk EOF 2].

(** [print a; }] *)
Definition tokens_block_body : list Token :=
  [tk PRINT 1; ident "a" 1; tk SEMI_COLON 1; tk RIGHT_BRACE 2; tk EOF 3].

(** A computation that, when it returns, has moved the cursor forward by at
    least [d] tokens. *)
Definition advances {A} (d : Z) (m : M A) : Prop :=
  forall cur a cur', m cur = Ok (a, cur') -> cur + d <= cur'.

(** The statement-level methods at one fuel level, with the least number of
    tokens each consumes. *)
Definition advances_at (tokens : list Token) (n : nat) : Prop :=
  (forall index context, advances 0 (handle_token tokens n index context)) /\
  advances 2 (parse_print_token tokens n) /\
  advances 4 (parse_var_token tokens n) /\
  advances 3 (parse_if_statement tokens n) /\
  advances 2 (parse_conditional tokens n) /\
  advances 0 (parse_block tokens n) /\
  (forall nodes, advances 0 (parse_block_while tokens n nodes)) /\
  advances 0 (parse_next_if_conditional tokens n) /\
  advances 0 (parse_else tokens n).

(** Whether the token at an index is one of the three statement keywords. *)
Definition starts_statement (tokens : list Token) (i : Z) : bool :=
  match kind_at tokens i with
  | Some k => mem k [PRINT; VAR; IF]
  | None => false
  end.

(** What one token adds to the parenthesis counter of the balance scan. *)
Definition paren_delta (t : Token) : Z :=
  (if is_token_type t LEFT_PAREN then 1 else 0)
  - (if is_token_type t RIGHT_PAREN then 1 else 0).

Definition delta_at (tokens : list Token) (i : Z) : Z :=
  match token_at tokens i with
  | Some t => paren_delta t
  | None => 0
  end.

(** Opening minus closing parentheses among the [k] tokens from index [i]. *)
Fixpoint balance (tokens : list Token) (i : Z) (k : nat) : Z :=
  match k with
  | O => 0
  | S k' => delta_at tokens i + balance tokens (i + 1) k'
  end.

(** Every index of [lo, hi] holds a token. *)
Definition tokens_present (tokens : list Token) (lo hi : Z) : Prop :=
  forall j, lo <= j <= hi -> exists t, token_at tokens j = Some t.

(** No proper non-empty prefix of the [n] tokens from [i] is balanced when
    the counter starts at [c]. *)
Definition never_zero (tokens : list Token) (c i : Z) (n : nat) : Prop :=
  forall j, (0 < j <= n)%nat -> c + balance tokens i j <> 0.

(** [print ((a);] *)
Definition tokens_two_open : list Token :=
  [tk PRINT 1; tk LEFT_PAREN 1; tk LEFT_PAREN 1; ident "a" 1;
   tk RIGHT_PAREN 1; tk SEMI_COLON 2; tk EOF 3].

(** [print (a);] *)
Definition tokens_paren_a : list Token :=
  [tk PRINT 1; tk LEFT_PAREN 1; ident "a" 1; tk RIGHT_PAREN 1;
   tk SEMI_COLON 1; tk EOF 2].

(** [print (a) + (b);] *)
Definition tokens_two_groups : list Token :=
  [tk PRINT 1; tk LEFT_PAREN 1; ident "a" 1; tk RIGHT_PAREN 1; tk PLUS 1;
   tk LEFT_PAREN 1; ident "b" 1; tk RIGHT_PAREN 1; tk SEMI_COLON 1; tk EOF 2].

(** [print ((a) + b;] : the parenthesis opened first is never closed. *)
Definition tokens_unclosed : list Token :=
  [tk PRINT 1; tk LEFT_PAREN 1; tk LEFT_PAREN 1; ident "a" 1;
   tk RIGHT_PAREN 1; tk PLUS 2; ident "b" 2; tk SEMI_COLON 2; tk EOF 3].

(** A computation that never runs out of fuel. *)
Definition finishes {A} (m : M A) : Prop := forall cur, m cur <> OutOfFuel.

(** Fuel that is enough to parse any range of at most [s] tokens: one
    range spends fuel on its seven sweeps, on each sweep's steps and on its
    sub-ranges, which are shorter. *)
Fixpoint expression_fuel (s : nat) : nat :=
  match s with
  | O => 13
  | S s' => S s' + expression_fuel s' + 13
  end.

(** The first index from [i] on, among the next [n] tokens, at which the
    parenthesis counter is back to zero: [c] is the counter before the token
    at [i].  [None] when a token is missing or the counter is not back to
    zero within [n] tokens. *)
Fixpoint closing_index (tokens : list Token) (n : nat) (c i : Z)
    : option Z :=
  match n with
  | O => None
  | S n' =>
    match token_at tokens i with
    | None => None
    | Some t =>
      let c' := c + paren_delta t in
      if c' =? 0 then Some i else closing_index tokens n' c' (i + 1)
    end
  end.

(** The positions at which the operator scan of
    [_parse_expression_recursive], at index [i] of a range that ends at [r],
    tests a token against the active tier, as long as no test succeeds.  A
    token that is not a left parenthesis is tested where it stands; from a
    left parenthesis the scan jumps to the token after the matching right
    parenthesis, or to [r] if that token lies beyond [r], and tests the
    token there; the scan ends when the index has reached [r].  These are
    the tokens outside parentheses, as the scan sees them.  [None] when a
    parenthesis met by the scan is not closed within the range. *)
Fixpoint scan_positions (tokens : list Token) (n : nat) (r i : Z)
    : option (list Z) :=
  if i <? r then
    match n with
    | O => None
    | S n' =>
      match token_at tokens i with
      | None => None
      | Some t =>
        let tested :=
          if is_token_type t LEFT_PAREN then
            option_map (fun e => Z.min (e + 1) r)
              (closing_index tokens (Z.to_nat (r - i + 1)) 0 i)
          else Some i in
        match tested with
        | None => None
        | Some p => option_map (cons p) (scan_positions tokens n' r (p + 1))
        end
      end
    end
  else Some [].

(** Where the scan tests next, from index [i]. *)
Definition tested_from (tokens : list Token) (r i : Z) (t : Token) (p : Z)
    : Prop :=
  if is_token_type t LEFT_PAREN then
    exists e,
      closing_index tokens (Z.to_nat (r - i + 1)) 0 i = Some e /\
      p = Z.min (e + 1) r
  else p = i.

(** The positions tested by a scan of the whole range [l, r]. *)
Definition tested_positions (tokens : list Token) (l r : Z)
    : option (list Z) :=
  scan_positions tokens (Z.to_nat (r - l)) r l.

(** No token at a position of [ps] is of a kind in [kinds]. *)
Definition free_of (tokens : list Token) (kinds : list TokenType)
    (ps : list Z) : bool :=
  forallb (fun j => match kind_at tokens j with
                    | Some k => negb (mem k kinds)
                    | None => true
                    end) ps.

(** [node] is what the operator of kind [k] at index [i] of a range that
    starts at [l] builds over the parse [b] of the tokens to its right: a
    binary operator its node over the parse of the tokens to its left and
    [b], the logical not Not([b]). *)
Definition root_node (tokens : list Token) (fuel : nat) (l i cur : Z)
    (k : TokenType) (b node : Node) : Prop :=
  match binary_operation_map k with
  | Some operation_class =>
    exists a,
      parse_expression_recursive tokens fuel l (i - 1) cur = Ok (Some a, cur) /\
      node = operation_class a b
  | None => node = NotNode b
  end.

(** [print (a == b) * not (c == d);] *)
Definition tokens_product_not_group : list Token :=
  [tk PRINT 1; tk LEFT_PAREN 1; ident "a" 1; tk EQUAL_EQUAL 1; ident "b" 1;
   tk RIGHT_PAREN 1; tk MULTIPLY 1; tk BANG 1; tk LEFT_PAREN 1;
   ident "c" 1; tk EQUAL_EQUAL 1; ident "d" 1; tk RIGHT_PAREN 1;
   tk SEMI_COLON 1; tk EOF 2].

(** ** Fuel is only a bound: more fuel never changes a result *)

Lemma M_le_refl {A} (m : M A) : M_le m m.
Proof. intros cur; right; reflexivity. Qed.

Lemma M_le_out_of_fuel {A} (m : M A) : M_le out_of_fuel m.
Proof. intros cur; left; reflexivity. Qed.

Lemma M_le_bind {A B} (m1 m2 : M A) (k1 k2 : A -> M B) :
  M_le m1 m2 -> (forall a, M_le (k1 a) (k2 a)) ->
  M_le (bind m1 k1) (bind m2 k2).
Proof.
  intros Hm Hk cur. unfold bind.
  destruct (Hm cur) as [E | E]; rewrite E.
  - left; reflexivity.
  - destruct (m2 cur) as [[a cur'] | e | ]; try (right; reflexivity).
    apply Hk.
Qed.

Ltac mono_step :=
  match goal with
  | |- M_le ?m ?m => apply M_le_refl
  | |- M_le (bind _ _) (bind _ _) => apply M_le_bind; [ | intros ? ]
  | |- M_le (if ?b then _ else _) (if ?b then _ else _) => destruct b
  | |- M_le (match ?x with _ => _ end) (match ?x with _ => _ end) =>
      destruct x
  | |- M_le _ _ => solve [ auto ]
  end.

Ltac unfold_methods :=
  cbn [handle_token parse_print_token parse_var_token parse_expression
       parse_expression_recursive parse_expression_recursive_for
       parse_expression_recursive_while handle_by_operations
       handle_unary_operation handle_binary_operation parse_if_statement
       parse_conditional parse_block parse_block_while
       parse_next_if_conditional parse_else parse_while].

(** Unfold the monad operations of a run and reduce. *)
Ltac mrun :=
  unfold is_eof_token, current_token, parse_identifier_token, retrieve_token,
    get_current, set_current, out_of_fuel, raise, ret, bind;
  cbv beta iota.

Lemma mono_all (tokens : list Token) :
  forall n n', (n <= n')%nat -> mono_at tokens n n'.
Proof.
  induction n as [ | n IH]; intros n' Hle.
  - unfold mono_at; repeat split; intros; apply M_le_out_of_fuel.
  - destruct n' as [ | n']; [ lia | ].
    assert (Hle' : (n <= n')%nat) by lia.
    specialize (IH n' Hle'). unfold mono_at in IH.
    decompose [and] IH; clear IH.
    unfold mono_at; repeat split; intros; unfold_methods; repeat mono_step.
Qed.

Lemma parse_while_mono (tokens : list Token) :
  forall n n' nodes, (n <= n')%nat ->
    M_le (parse_while tokens n nodes) (parse_while tokens n' nodes).
Proof.
  induction n as [ | n IH]; intros n' nodes Hle.
  - apply M_le_out_of_fuel.
  - destruct n' as [ | n']; [ lia | ].
    assert (Hle' : (n <= n')%nat) by lia.
    pose proof (mono_all tokens n n' Hle') as Hm.
    unfold mono_at in Hm. decompose [and] Hm; clear Hm.
    unfold_methods; repeat mono_step.
Qed.

Lemma res_le_done {A} (r1 r2 : Res A) :
  res_le r1 r2 -> r1 <> OutOfFuel -> r2 = r1.
Proof. intros [E | E] Hne; [ contradiction | symmetry; exact E ]. Qed.

Lemma M_le_done {A} (m1 m2 : M A) (cur : Z) (r : Res (A * Z)) :
  M_le m1 m2 -> m1 cur = r -> r <> OutOfFuel -> m2 cur = r.
Proof.
  intros H E Hne. destruct (H cur) as [H' | H'].
  - rewrite H' in E. subst r. contradiction.
  - rewrite <- H'. exact E.
Qed.

Lemma handle_token_mono (tokens : list Token) (n n' : nat) index context :
  (n <= n')%nat ->
  M_le (handle_token tokens n index context)
       (handle_token tokens n' index context).
Proof. intros H. apply (mono_all tokens n n' H). Qed.

Lemma parse_expression_mono (tokens : list Token) (n n' : nat) :
  (n <= n')%nat ->
  M_le (parse_expression tokens n) (parse_expression tokens n').
Proof. intros H. apply (mono_all tokens n n' H). Qed.

Lemma parse_expression_recursive_mono (tokens : list Token) (n n' : nat) l r :
  (n <= n')%nat ->
  M_le (parse_expression_recursive tokens n l r)
       (parse_expression_recursive tokens n' l r).
Proof. intros H. apply (mono_all tokens n n' H). Qed.

Lemma parse_if_statement_mono (tokens : list Token) (n n' : nat) :
  (n <= n')%nat ->
  M_le (parse_if_statement tokens n) (parse_if_statement tokens n').
Proof. intros H. apply (mono_all tokens n n' H). Qed.

Lemma parse_conditional_mono (tokens : list Token) (n n' : nat) :
  (n <= n')%nat ->
  M_le (parse_conditional tokens n) (parse_conditional tokens n').
Proof. intros H. apply (mono_all tokens n n' H). Qed.

Lemma parse_block_mono (tokens : list Token) (n n' : nat) :
  (n <= n')%nat ->
  M_le (parse_block tokens n) (parse_block tokens n').
Proof. intros H. apply (mono_all tokens n n' H). Qed.

Lemma parse_next_if_conditional_mono (tokens : list Token) (n n' : nat) :
  (n <= n')%nat ->
  M_le (parse_next_if_conditional tokens n)
       (parse_next_if_conditional tokens n').
Proof. intros H. apply (mono_all tokens n n' H). Qed.

(** Once [parse] has produced a result, any larger fuel gives the same. *)
Lemma parse_mono (tokens : list Token) (n n' : nat) (r : Res Node) :
  (n <= n')%nat -> parse tokens n = r -> r <> OutOfFuel ->
  parse tokens n' = r.
Proof.
  intros Hle E Hne. unfold parse in *.
  destruct (parse_while_mono tokens n n' [] Hle 0) as [H | H].
  - rewrite H in E. subst r. contradiction.
  - rewrite <- H. exact E.
Qed.

(** ** Reading tokens *)

Lemma retrieve_token_some (tokens : list Token) (index cur : Z) (t : Token) :
  token_at tokens index = Some t ->
  retrieve_token tokens index cur = Ok (t, cur).
Proof. intros H. unfold retrieve_token. rewrite H. reflexivity. Qed.

Lemma retrieve_token_none (tokens : list Token) (index cur : Z) :
  token_at tokens index = None ->
  retrieve_token tokens index cur = Raise IndexError.
Proof. intros H. unfold retrieve_token. rewrite H. reflexivity. Qed.

Lemma token_at_head (t : Token) (rest : list Token) :
  token_at (t :: rest) 0 = Some t.
Proof.
  unfold token_at, len_tokens. cbn [List.length].
  rewrite Nat2Z.inj_succ.
  replace (0 <? 0) with false by reflexivity.
  replace ((0 <=? 0) && (0 <? Z.succ (Z.of_nat (List.length rest))))
    with true.
  - reflexivity.
  - symmetry. apply andb_true_intro. split.
    + reflexivity.
    + apply Z.ltb_lt. lia.
Qed.

(** ** C1: a statement that starts with a semicolon *)

Lemma stalls_not_eof (t : Token) :
  stalls_statement (get_token_type t) = true -> is_token_type t EOF = false.
Proof.
  unfold is_token_type. destruct (get_token_type t); intros H;
    try discriminate H; reflexivity.
Qed.

(** On such a token statement dispatch returns (a leaf, or [None]) and the
    cursor has not moved. *)
Lemma handle_token_stalls (tokens : list Token) (fuel : nat) (cur : Z)
    (t : Token) :
  token_at tokens cur = Some t ->
  stalls_statement (get_token_type t) = true ->
  exists x, handle_token tokens (S fuel) None None cur = Ok (x, cur).
Proof.
  intros Ht Hs. cbn [handle_token]. mrun. rewrite Ht. cbv beta iota.
  unfold is_token_type, parse_literal, is_token_type.
  destruct t as [k lx lit ln]. cbn [get_token_type] in *.
  destruct k; try discriminate Hs; eexists; reflexivity.
Qed.

Lemma parse_while_stalls (t : Token) (rest : list Token) :
  stalls_statement (get_token_type t) = true ->
  forall fuel nodes, parse_while (t :: rest) fuel nodes 0 = OutOfFuel.
Proof.
  intros Hs. induction fuel as [ | fuel IH]; intros nodes.
  - reflexivity.
  - cbn [parse_while]. unfold bind at 1. unfold get_current at 1.
    replace (in_bounds (t :: rest) 0) with true.
    2:{ unfold in_bounds, len_tokens. cbn [List.length].
        rewrite Nat2Z.inj_succ. symmetry. apply Z.ltb_lt. lia. }
    unfold bind at 1. unfold is_eof_token, current_token, get_current.
    unfold bind at 1. unfold bind at 1.
    rewrite (retrieve_token_some _ 0 0 _ (token_at_head _ _)).
    unfold ret at 1. rewrite (stalls_not_eof t Hs).
    cbn [negb]. unfold bind at 1.
    destruct fuel as [ | fuel'].
    + reflexivity.
    + destruct (handle_token_stalls (t :: rest) fuel' 0 t
                  (token_at_head _ _) Hs) as [x Hx].
      rewrite Hx. apply IH.
Qed.

(** C1.  The claim says [parse] terminates on every finite token list, with
    a fatal error when the first token is a semicolon, a closing brace or
    any other kind without a dispatch branch.  On the code, for a first
    token of any kind other than print, var, if, an operator or EOF,
    [_handle_token] returns without moving the cursor, so the loop of
    [parse] never ends: whatever the fuel, the run is still going when the
    fuel is spent. *)
Theorem C1_parse_never_returns
    (t : Token) (rest : list Token) (fuel : nat) :
  stalls_statement (get_token_type t) = true ->
  parse (t :: rest) fuel = OutOfFuel.
Proof.
  intros Hs. unfold parse. rewrite (parse_while_stalls t rest Hs).
  reflexivity.
Qed.

Lemma C1_parse_never_returns_witness :
  parse [tk SEMI_COLON 1; tk EOF 1] 1000 = OutOfFuel /\
  parse [tk RIGHT_BRACE 1; tk EOF 1] 1000 = OutOfFuel.
Proof.
  split.
  - apply (C1_parse_never_returns (tk SEMI_COLON 1) [tk EOF 1] 1000).
    reflexivity.
  - apply (C1_parse_never_returns (tk RIGHT_BRACE 1) [tk EOF 1] 1000).
    reflexivity.
Defined.

(** ** Bounds of Python indexing *)

Lemma token_at_bounds (tokens : list Token) (i : Z) (t : Token) :
  token_at tokens i = Some t -> - len_tokens tokens <= i < len_tokens tokens.
Proof.
  unfold token_at. intros H.
  destruct (i <? 0) eqn:Hneg.
  - apply Z.ltb_lt in Hneg.
    destruct ((0 <=? len_tokens tokens + i)
              && (len_tokens tokens + i <? len_tokens tokens)) eqn:Hb;
      [ | discriminate ].
    apply andb_prop in Hb. destruct Hb as [H1 H2].
    apply Z.leb_le in H1. lia.
  - apply Z.ltb_ge in Hneg.
    destruct ((0 <=? i) && (i <? len_tokens tokens)) eqn:Hb; [ | discriminate ].
    apply andb_prop in Hb. destruct Hb as [H1 H2].
    apply Z.ltb_lt in H2. lia.
Qed.

Lemma token_at_in_bounds (tokens : list Token) (i : Z) :
  - len_tokens tokens <= i < len_tokens tokens ->
  exists t, token_at tokens i = Some t.
Proof.
  intros Hb. unfold token_at.
  set (j := if i <? 0 then len_tokens tokens + i else i).
  assert (Hj : 0 <= j < len_tokens tokens).
  { subst j. destruct (i <? 0) eqn:Hneg.
    - apply Z.ltb_lt in Hneg. lia.
    - apply Z.ltb_ge in Hneg. lia. }
  replace ((0 <=? j) && (j <? len_tokens tokens)) with true.
  2:{ symmetry. apply andb_true_intro. split.
      - apply Z.leb_le. lia.
      - apply Z.ltb_lt. lia. }
  destruct (nth_error tokens (Z.to_nat j)) as [t | ] eqn:Hn.
  - exists t. reflexivity.
  - apply nth_error_None in Hn. unfold len_tokens in Hj. lia.
Qed.

(** The token before a non-negative valid index exists too: index [-1]
    wraps to the last token. *)
Lemma token_at_pred (tokens : list Token) (i : Z) (t : Token) :
  0 <= i -> token_at tokens i = Some t ->
  exists t', token_at tokens (i - 1) = Some t'.
Proof.
  intros Hi H. apply token_at_bounds in H.
  apply token_at_in_bounds. lia.
Qed.

(** ** Bound finding *)

Lemma find_end_while_spec (tokens : list Token) :
  forall n index cur e cur',
    find_end_of_expression_index_while tokens n index cur = Ok (e, cur') ->
    cur' = cur /\ index <= e /\
    (forall i, index <= i < e ->
       exists t, token_at tokens i = Some t /\
                 mem (get_token_type t) valid_expression_types = true) /\
    (exists t, token_at tokens e = Some t /\
               mem (get_token_type t) valid_expression_types = false).
Proof.
  induction n as [ | n IH]; intros index cur e cur' H;
    cbn [find_end_of_expression_index_while] in H;
    unfold bind, retrieve_token in H;
    destruct (token_at tokens index) as [t | ] eqn:Ht;
    try discriminate; unfold ret at 1 in H;
    destruct (mem (get_token_type t) valid_expression_types) eqn:Hv.
  - discriminate.
  - inversion H; subst. split; [ reflexivity | split; [ lia | split ] ].
    + intros i Hi. lia.
    + exists t. split; assumption.
  - apply IH in H. destruct H as (Hc & Hle & Hall & Hend).
    split; [ exact Hc | split; [ lia | split; [ | exact Hend ] ] ].
    intros i Hi. destruct (Z.eq_dec i index) as [-> | Hne].
    + exists t. split; assumption.
    + apply Hall. lia.
  - inversion H; subst. split; [ reflexivity | split; [ lia | split ] ].
    + intros i Hi. lia.
    + exists t. split; assumption.
Qed.

Lemma find_end_at_invalid (tokens : list Token) (cur : Z) (t : Token) :
  token_at tokens cur = Some t ->
  mem (get_token_type t) valid_expression_types = false ->
  find_end_of_expression_index tokens cur = Ok (cur, cur).
Proof.
  intros Ht Hv. unfold find_end_of_expression_index, bind, get_current.
  destruct (Z.to_nat (len_tokens tokens - cur));
    cbn [find_end_of_expression_index_while];
    unfold bind, retrieve_token; rewrite Ht; unfold ret at 1; rewrite Hv;
    reflexivity.
Qed.

(** The two inner loops carry their own iteration bound; it is never
    exhausted, so they model the Python loops exactly. *)
Lemma find_end_while_total (tokens : list Token) :
  forall n index cur,
    len_tokens tokens - index <= Z.of_nat n ->
    find_end_of_expression_index_while tokens n index cur <> OutOfFuel.
Proof.
  induction n as [ | n IH]; intros index cur Hn;
    cbn [find_end_of_expression_index_while];
    unfold bind, retrieve_token;
    destruct (token_at tokens index) as [t | ] eqn:Ht;
    try (unfold raise; discriminate);
    unfold ret at 1;
    destruct (mem (get_token_type t) valid_expression_types);
    try (unfold ret; discriminate).
  - apply token_at_bounds in Ht. lia.
  - apply IH. lia.
Qed.

Lemma find_end_total (tokens : list Token) (cur : Z) :
  find_end_of_expression_index tokens cur <> OutOfFuel.
Proof.
  unfold find_end_of_expression_index, bind, get_current.
  apply find_end_while_total. lia.
Qed.

Lemma find_parenthesis_count_while_total (tokens : list Token) :
  forall n r c i cur,
    r - i + 1 <= Z.of_nat n ->
    find_parenthesis_count_while tokens n r c i cur <> OutOfFuel.
Proof.
  induction n as [ | n IH]; intros r c i cur Hn;
    cbn [find_parenthesis_count_while];
    destruct (i <=? r) eqn:Hle;
    try (unfold ret; discriminate).
  - apply Z.leb_le in Hle. lia.
  - unfold bind, retrieve_token.
    destruct (token_at tokens i) as [t | ];
      [ | unfold raise; discriminate ].
    unfold ret at 1. cbv zeta.
    match goal with
    | |- (if ?b then _ else _) _ <> _ => destruct b
    end.
    + unfold ret. discriminate.
    + apply IH. lia.
Qed.

Lemma find_parenthesis_count_total (tokens : list Token) (l r cur : Z) :
  find_parenthesis_count tokens l r cur <> OutOfFuel.
Proof.
  unfold find_parenthesis_count. unfold bind at 1.
  pose proof (find_parenthesis_count_while_total tokens
                (Z.to_nat (r - l + 1)) r 0 l cur ltac:(lia)) as Hw.
  destruct (find_parenthesis_count_while tokens (Z.to_nat (r - l + 1)) r 0 l cur)
    as [[[c e] c1] | ex | ]; [ | discriminate | contradiction ].
  unfold bind, retrieve_token.
  destruct (token_at tokens r); [ | unfold raise; discriminate ].
  unfold ret at 1.
  destruct (c >? 0); [ unfold raise; discriminate | ].
  destruct (c <? 0); [ unfold raise; discriminate | ].
  unfold ret. discriminate.
Qed.

(** ** C10: an empty expression *)

Lemma while_empty_range (tokens : list Token) (fuel : nat)
    (ops : list TokenType) (l r index cur : Z) :
  r <= index ->
  parse_expression_recursive_while tokens (S fuel) ops l r index cur
  = Ok (None, cur).
Proof.
  intros H. cbn [parse_expression_recursive_while].
  replace (index <? r) with false; [ reflexivity | ].
  symmetry. apply Z.ltb_ge. exact H.
Qed.

Lemma for_empty_range (tokens : list Token) (l r cur : Z) (t : Token) :
  r <= l -> token_at tokens l = Some t ->
  forall p fuel, (List.length p < fuel)%nat ->
    parse_expression_recursive_for tokens fuel p l r cur
    = Raise (SyntaxException (get_line t)
               "Invalid expression: no valid operations found.").
Proof.
  intros Hr Ht. induction p as [ | ops rest IH]; intros fuel Hf.
  - destruct fuel as [ | fuel]; [ inversion Hf | ].
    cbn [parse_expression_recursive_for]. unfold bind.
    rewrite (retrieve_token_some _ _ _ _ Ht). reflexivity.
  - destruct fuel as [ | fuel]; [ inversion Hf | ].
    cbn [List.length] in Hf.
    cbn [parse_expression_recursive_for]. unfold bind at 1.
    destruct fuel as [ | fuel]; [ lia | ].
    rewrite (while_empty_range tokens fuel ops l r l cur Hr).
    cbn [truthy]. apply IH. lia.
Qed.

Lemma not_valid_not_left_paren (t : Token) :
  mem (get_token_type t) valid_expression_types = false ->
  is_token_type t LEFT_PAREN = false.
Proof.
  unfold is_token_type. destruct (get_token_type t); intros H;
    try reflexivity; discriminate H.
Qed.

Lemma recursive_empty_range (tokens : list Token) (l cur : Z) (t : Token) :
  0 <= l -> token_at tokens l = Some t ->
  mem (get_token_type t) valid_expression_types = false ->
  forall fuel, (9 <= fuel)%nat ->
    parse_expression_recursive tokens fuel l (l - 1) cur
    = Raise (SyntaxException (get_line t)
               "Invalid expression: no valid operations found.").
Proof.
  intros Hl Ht Hv fuel Hf.
  destruct fuel as [ | fuel]; [ lia | ].
  destruct (token_at_pred tokens l t Hl Ht) as [t' Ht'].
  cbn [parse_expression_recursive]. unfold bind at 1.
  rewrite (retrieve_token_some _ _ _ _ Ht).
  unfold bind at 1. rewrite (retrieve_token_some _ _ _ _ Ht').
  replace (l - 1 - l =? 0) with false by (symmetry; apply Z.eqb_neq; lia).
  unfold bind at 1. unfold is_nested_parens, within_parens.
  unfold bind at 1. unfold bind at 1.
  rewrite (retrieve_token_some _ _ _ _ Ht).
  unfold bind at 1. rewrite (retrieve_token_some _ _ _ _ Ht').
  rewrite (not_valid_not_left_paren t Hv). cbn [andb negb ret].
  apply for_empty_range with (t := t); [ lia | exact Ht | ].
  cbn. lia.
Qed.

(** C10.  When the token at the cursor is not expression-legal, the run of
    expression tokens is empty and [_parse_expression] raises the syntax
    error "Invalid expression: no valid operations found." at that token's
    line; it never returns a node, absent or not. *)
Theorem C10_empty_expression_raises
    (tokens : list Token) (cur : Z) (t : Token) (fuel : nat) :
  0 <= cur ->
  token_at tokens cur = Some t ->
  mem (get_token_type t) valid_expression_types = false ->
  (10 <= fuel)%nat ->
  parse_expression tokens fuel cur
  = Raise (SyntaxException (get_line t)
             "Invalid expression: no valid operations found.").
Proof.
  intros Hc Ht Hv Hf.
  destruct fuel as [ | fuel]; [ lia | ].
  cbn [parse_expression]. unfold bind at 1.
  rewrite (find_end_at_invalid tokens cur t Ht Hv).
  unfold bind at 1. unfold get_current at 1. unfold bind at 1.
  rewrite (recursive_empty_range tokens cur cur t Hc Ht Hv fuel);
    [ reflexivity | lia ].
Qed.

(** ** Running the statement-level helpers *)

Lemma validate_token_ok (tokens : list Token) (valid : list TokenType)
    (msg : string) (cur : Z) (t : Token) :
  token_at tokens cur = Some t ->
  mem (get_token_type t) valid = true ->
  validate_token tokens valid msg cur = Ok (tt, cur + 1).
Proof.
  intros Ht Hv. unfold validate_token, bind, get_current, retrieve_token.
  rewrite Ht. unfold ret at 1. rewrite Hv. reflexivity.
Qed.

Lemma validate_token_fail (tokens : list Token) (valid : list TokenType)
    (msg : string) (cur : Z) (t : Token) :
  token_at tokens cur = Some t ->
  mem (get_token_type t) valid = false ->
  validate_token tokens valid msg cur
  = Raise (SyntaxException (get_line t) msg).
Proof.
  intros Ht Hv. unfold validate_token, bind, get_current, retrieve_token.
  rewrite Ht. unfold ret at 1. rewrite Hv. reflexivity.
Qed.

Lemma find_end_while_run (tokens : list Token) :
  forall (k n : nat) (index cur : Z),
    (k <= n)%nat ->
    expression_run tokens index (index + Z.of_nat k) ->
    find_end_of_expression_index_while tokens n index cur
    = Ok (index + Z.of_nat k, cur).
Proof.
  induction k as [ | k IH]; intros n index cur Hk (Hle & Hall & t & Ht & Hv).
  - replace (index + Z.of_nat 0) with index in * by lia.
    destruct n; cbn [find_end_of_expression_index_while];
      unfold bind, retrieve_token; rewrite Ht; unfold ret at 1; rewrite Hv;
      reflexivity.
  - destruct n as [ | n]; [ lia | ].
    destruct (Hall index) as (t0 & Ht0 & Hv0); [ lia | ].
    cbn [find_end_of_expression_index_while].
    unfold bind, retrieve_token. rewrite Ht0. unfold ret at 1. rewrite Hv0.
    replace (index + Z.of_nat (S k)) with (index + 1 + Z.of_nat k) in * by lia.
    apply IH; [ lia | ].
    split; [ lia | split ].
    + intros i Hi. apply Hall. lia.
    + exists t. split; assumption.
Qed.

Lemma find_end_run (tokens : list Token) (cur e : Z) :
  expression_run tokens cur e ->
  find_end_of_expression_index tokens cur = Ok (e, cur).
Proof.
  intros Hrun. pose proof Hrun as (Hle & Hall & t & Ht & Hv).
  unfold find_end_of_expression_index, bind, get_current.
  apply token_at_bounds in Ht.
  replace e with (cur + Z.of_nat (Z.to_nat (e - cur))) in * by lia.
  apply find_end_while_run; [ lia | exact Hrun ].
Qed.

(** [_parse_expression] on a known run: the range parse decides the node,
    the cursor ends at the first token past the run. *)
Lemma parse_expression_run (tokens : list Token) (fuel : nat)
    (cur e : Z) (node : option Node) :
  expression_run tokens cur e ->
  parse_expression_recursive tokens fuel cur (e - 1) cur = Ok (node, cur) ->
  parse_expression tokens (S fuel) cur = Ok (node, e).
Proof.
  intros Hrun Hrec. cbn [parse_expression]. unfold bind at 1.
  rewrite (find_end_run tokens cur e Hrun).
  unfold bind at 1. unfold get_current at 1. unfold bind at 1.
  rewrite Hrec. reflexivity.
Qed.

Lemma valid_print_is_valid_expression (k : TokenType) :
  mem k valid_print_types = true -> mem k valid_expression_types = true.
Proof. destruct k; intros H; try discriminate H; reflexivity. Qed.

(** A single operand token resolves to its leaf; the cursor is untouched. *)
Lemma handle_token_leaf (tokens : list Token) (fuel : nat) (l cur : Z)
    (context : option Context) (t : Token) :
  token_at tokens l = Some t ->
  mem (get_token_type t) valid_print_types = true ->
  handle_token tokens (S fuel) (Some l) context cur = Ok (leaf_node t, cur).
Proof.
  intros Ht Hv. cbn [handle_token]. mrun. rewrite Ht. cbv beta iota.
  unfold is_token_type, leaf_node, parse_literal, is_token_type.
  destruct t as [k lx lit ln]. cbn [get_token_type] in *.
  destruct k; try discriminate Hv; reflexivity.
Qed.

Lemma recursive_leaf (tokens : list Token) (fuel : nat) (l cur : Z)
    (t : Token) :
  token_at tokens l = Some t ->
  mem (get_token_type t) valid_print_types = true ->
  parse_expression_recursive tokens (S (S fuel)) l l cur
  = Ok (leaf_node t, cur).
Proof.
  intros Ht Hv.
  rewrite <- (handle_token_leaf tokens fuel l cur None t Ht Hv).
  generalize (S fuel) as n. intros n.
  cbn [parse_expression_recursive]. unfold bind at 1.
  rewrite (retrieve_token_some _ _ _ _ Ht).
  unfold bind at 1. rewrite (retrieve_token_some _ _ _ _ Ht).
  replace (l - l =? 0) with true by (symmetry; apply Z.eqb_eq; lia).
  rewrite (valid_print_is_valid_expression _ Hv). reflexivity.
Qed.

(** ** C6: assignment of a literal *)

Lemma leaf_node_literal (t : Token) :
  mem (get_token_type t) literal_types = true ->
  exists lit, matching_literal_node t = Some lit /\ leaf_node t = Some lit /\
              mem (get_token_type t) valid_print_types = true.
Proof.
  unfold matching_literal_node, leaf_node.
  destruct (get_token_type t); intros H; try discriminate H;
    eexists; repeat split; reflexivity.
Qed.

Lemma kind_mem_singleton (t : Token) (k : TokenType) :
  get_token_type t = k -> mem (get_token_type t) [k] = true.
Proof. intros ->. destruct k; reflexivity. Qed.

(** C6.  Wherever the five tokens [var identifier = L ;] stand in the
    token list, with [L] a number, string or boolean literal, statement
    dispatch at the [var] token returns an Assignment whose target is the
    variable reference carrying the identifier's lexeme and whose value is
    exactly the literal node matching [L]; the cursor ends past the
    semicolon. *)
Theorem C6_var_literal_assignment
    (tokens : list Token) (cur : Z) (tv ti te tl ts : Token) (fuel : nat) :
  token_at tokens cur = Some tv -> get_token_type tv = VAR ->
  token_at tokens (cur + 1) = Some ti -> get_token_type ti = IDENTIFIER ->
  token_at tokens (cur + 2) = Some te -> get_token_type te = EQUAL ->
  token_at tokens (cur + 3) = Some tl ->
  mem (get_token_type tl) literal_types = true ->
  token_at tokens (cur + 4) = Some ts -> get_token_type ts = SEMI_COLON ->
  (6 <= fuel)%nat ->
  exists lit,
    matching_literal_node tl = Some lit /\
    handle_token tokens fuel None None cur
    = Ok (Some (AssignmentNode (VariableNode (get_lexeme ti)) (Some lit)),
          cur + 5).
Proof.
  intros Hv Kv Hi Ki He Ke Hl Kl Hs Ks Hf.
  destruct (leaf_node_literal tl Kl) as (lit & Hm & Hleaf & Hprint).
  exists lit. split; [ exact Hm | ].
  destruct fuel as [ | fuel]; [ lia | ].
  cbn [handle_token]. mrun. rewrite Hv. cbv beta iota.
  unfold is_token_type. rewrite Kv. cbv beta iota.
  replace (TokenType_eqb VAR PRINT) with false by reflexivity.
  replace (TokenType_eqb VAR IDENTIFIER) with false by reflexivity.
  replace (TokenType_eqb VAR VAR) with true by reflexivity.
  cbv beta iota.
  destruct fuel as [ | fuel]; [ lia | ].
  cbn [parse_var_token].
  unfold bind at 1.
  rewrite (validate_token_ok tokens [VAR] _ cur tv Hv (kind_mem_singleton _ _ Kv)).
  unfold bind at 1. unfold get_current at 1.
  unfold bind at 1. unfold parse_identifier_token at 1. unfold bind at 1.
  rewrite (retrieve_token_some _ _ _ _ Hi). unfold ret at 1.
  unfold bind at 1.
  rewrite (validate_token_ok tokens [IDENTIFIER] _ (cur + 1) ti Hi
             (kind_mem_singleton _ _ Ki)).
  unfold bind at 1.
  replace (cur + 1 + 1) with (cur + 2) by lia.
  rewrite (validate_token_ok tokens [EQUAL] _ (cur + 2) te He
             (kind_mem_singleton _ _ Ke)).
  unfold bind at 1.
  replace (cur + 2 + 1) with (cur + 3) by lia.
  destruct fuel as [ | fuel]; [ lia | ].
  rewrite (parse_expression_run tokens fuel (cur + 3) (cur + 4) (Some lit)).
  - unfold bind at 1.
    rewrite (validate_token_ok tokens [SEMI_COLON] _ (cur + 4) ts Hs
               (kind_mem_singleton _ _ Ks)).
    unfold ret. replace (cur + 4 + 1) with (cur + 5) by lia. reflexivity.
  - split; [ lia | split ].
    + intros i Hi'. assert (i = cur + 3) as -> by lia.
      exists tl. split; [ exact Hl | ].
      apply valid_print_is_valid_expression. exact Hprint.
    + exists ts. split; [ exact Hs | ]. rewrite Ks. reflexivity.
  - replace (cur + 4 - 1) with (cur + 3) by lia.
    destruct fuel as [ | [ | fuel]]; [ lia | lia | ].
    rewrite <- Hleaf. apply recursive_leaf; assumption.
Qed.

(** ** Inverting successful runs *)

Lemma bind_ok_inv {A B} (m : M A) (k : A -> M B) (cur : Z) (b : B) (cur' : Z) :
  bind m k cur = Ok (b, cur') ->
  exists a c, m cur = Ok (a, c) /\ k a c = Ok (b, cur').
Proof.
  unfold bind. destruct (m cur) as [[a c] | e | ]; intros H;
    try discriminate H.
  exists a, c. split; [ reflexivity | exact H ].
Qed.

Lemma retrieve_token_ok_inv (tokens : list Token) (i cur : Z) (t : Token)
    (cur' : Z) :
  retrieve_token tokens i cur = Ok (t, cur') ->
  token_at tokens i = Some t /\ cur' = cur.
Proof.
  unfold retrieve_token. destruct (token_at tokens i) as [t' | ];
    intros H; inversion H; subst. split; reflexivity.
Qed.

Lemma current_token_ok_inv (tokens : list Token) (cur : Z) (t : Token)
    (cur' : Z) :
  current_token tokens cur = Ok (t, cur') ->
  token_at tokens cur = Some t /\ cur' = cur.
Proof.
  unfold current_token, bind, get_current. apply retrieve_token_ok_inv.
Qed.

Lemma validate_token_ok_inv (tokens : list Token) (valid : list TokenType)
    (msg : string) (cur : Z) (u : unit) (cur' : Z) :
  validate_token tokens valid msg cur = Ok (u, cur') ->
  cur' = cur + 1 /\
  exists t, token_at tokens cur = Some t /\
            mem (get_token_type t) valid = true.
Proof.
  unfold validate_token, bind, get_current, retrieve_token.
  destruct (token_at tokens cur) as [t | ]; [ | discriminate ].
  unfold ret at 1.
  destruct (mem (get_token_type t) valid) eqn:Hv; cbn [negb];
    [ | discriminate ].
  unfold set_current. intros H. inversion H; subst.
  split; [ reflexivity | ]. exists t. split; [ reflexivity | exact Hv ].
Qed.

Lemma mem_singleton_inv (k k' : TokenType) :
  mem k [k'] = true -> k = k'.
Proof.
  unfold mem. cbn [existsb]. unfold TokenType_eqb.
  destruct (TokenType_eq_dec k k') as [E | E]; [ intros _; exact E | ].
  discriminate.
Qed.

Lemma is_token_type_true (t : Token) (k : TokenType) :
  is_token_type t k = true <-> get_token_type t = k.
Proof.
  unfold is_token_type, TokenType_eqb.
  destruct (TokenType_eq_dec (get_token_type t) k) as [E | E]; split;
    intros H; try (exact E); try reflexivity; try discriminate H.
  contradiction.
Qed.

Lemma is_token_type_false (t : Token) (k : TokenType) :
  is_token_type t k = false <-> get_token_type t <> k.
Proof.
  unfold is_token_type, TokenType_eqb.
  destruct (TokenType_eq_dec (get_token_type t) k) as [E | E]; split;
    intros H; try (exact E); try reflexivity; try discriminate H.
  contradiction.
Qed.

(** ** Blocks and else-clauses *)

Lemma parse_block_while_returns_block (tokens : list Token) :
  forall fuel nodes cur b cur',
    parse_block_while tokens fuel nodes cur = Ok (b, cur') ->
    exists stmts, b = BlockNode stmts.
Proof.
  induction fuel as [ | fuel IH]; intros nodes cur b cur' H.
  - discriminate H.
  - cbn [parse_block_while] in H.
    apply bind_ok_inv in H. destruct H as (t & c & Ht & H).
    apply current_token_ok_inv in Ht. destruct Ht as [Ht ->].
    destruct (is_token_type t RIGHT_BRACE); cbn [negb] in H.
    + unfold ret in H. inversion H; subst. exists nodes. reflexivity.
    + apply bind_ok_inv in H. destruct H as (eof & c1 & He & H).
      destruct eof.
      * apply bind_ok_inv in H. destruct H as (t2 & c2 & _ & H).
        discriminate H.
      * apply bind_ok_inv in H. destruct H as (n & c2 & _ & H).
        apply IH in H. exact H.
Qed.

Lemma parse_block_returns_block (tokens : list Token) (fuel : nat)
    (cur : Z) (b : Node) (cur' : Z) :
  parse_block tokens fuel cur = Ok (b, cur') ->
  exists stmts, b = BlockNode stmts.
Proof.
  destruct fuel as [ | fuel]; [ discriminate | ].
  cbn [parse_block]. apply parse_block_while_returns_block.
Qed.

(** What [_parse_else] returns when the cursor is on an [else] token. *)
Lemma parse_else_ok_inv (tokens : list Token) (fuel : nat) (cur : Z)
    (t : Token) (node : option Node) (cur' : Z) :
  token_at tokens cur = Some t -> get_token_type t = ELSE ->
  parse_else tokens fuel cur = Ok (node, cur') ->
  exists stmts,
    node = Some (ElseNode (Some (BlockNode stmts))) /\
    kind_at tokens (cur + 1) = Some LEFT_BRACE /\
    kind_at tokens (cur' - 1) = Some RIGHT_BRACE.
Proof.
  intros Ht Hk H. destruct fuel as [ | fuel]; [ discriminate H | ].
  cbn [parse_else] in H.
  apply bind_ok_inv in H. destruct H as (t0 & c & Ht0 & H).
  apply current_token_ok_inv in Ht0. destruct Ht0 as [Ht0 ->].
  rewrite Ht in Ht0. inversion Ht0; subst t0.
  apply is_token_type_true in Hk. rewrite Hk in H.
  apply bind_ok_inv in H. destruct H as (u1 & c1 & Hv1 & H).
  apply validate_token_ok_inv in Hv1. destruct Hv1 as [-> _].
  apply bind_ok_inv in H. destruct H as (u2 & c2 & Hv2 & H).
  apply validate_token_ok_inv in Hv2. destruct Hv2 as [-> (tl & Htl & Hl)].
  apply bind_ok_inv in H. destruct H as (blk & c3 & Hb & H).
  apply parse_block_returns_block in Hb. destruct Hb as [stmts ->].
  apply bind_ok_inv in H. destruct H as (u3 & c4 & Hv3 & H).
  apply validate_token_ok_inv in Hv3. destruct Hv3 as [-> (tr & Htr & Hr)].
  unfold ret in H. inversion H; subst.
  exists stmts. split; [ reflexivity | split ].
  - unfold kind_at. rewrite Htl. cbn [option_map].
    rewrite (mem_singleton_inv _ _ Hl). reflexivity.
  - unfold kind_at. replace (c3 + 1 - 1) with c3 by lia.
    rewrite Htr. cbn [option_map].
    rewrite (mem_singleton_inv _ _ Hr). reflexivity.
Qed.

(** ** C4: the else-clause *)

Lemma next_if_chain_end (tokens : list Token) :
  forall fuel cur next cur',
    parse_next_if_conditional tokens fuel cur = Ok (Some next, cur') ->
    chain_end next <> ElseNode None.
Proof.
  induction fuel as [ | fuel IH]; intros cur next cur' H.
  - discriminate H.
  - cbn [parse_next_if_conditional] in H.
    apply bind_ok_inv in H. destruct H as (t & c & Ht & H).
    apply current_token_ok_inv in Ht. destruct Ht as [Ht ->].
    destruct (is_token_type t ELSE) eqn:Helse.
    + apply is_token_type_true in Helse.
      destruct (parse_else_ok_inv tokens fuel cur t _ _ Ht Helse H)
        as (stmts & E & _).
      inversion E; subst. cbn [chain_end]. discriminate.
    + apply bind_ok_inv in H. destruct H as (t1 & c1 & _ & H).
      destruct (negb (mem (get_token_type t1) if_statement_tokens)).
      * unfold ret in H. discriminate H.
      * apply bind_ok_inv in H. destruct H as (t2 & c2 & _ & H).
        destruct (is_token_type t2 ELSEIF).
        -- apply bind_ok_inv in H. destruct H as (u & c3 & _ & H).
           apply bind_ok_inv in H. destruct H as ([cn bn] & c4 & _ & H).
           apply bind_ok_inv in H. destruct H as (nx & c5 & Hn & H).
           unfold ret in H. inversion H; subst.
           destruct nx as [n' | ]; cbn [chain_end].
           ++ apply (IH _ _ _ Hn).
           ++ discriminate.
        -- unfold ret in H. discriminate H.
Qed.

(** The claim of C4 fails on the code: no token list, cursor or fuel makes
    an if statement parse to a chain that ends in an Else node with an
    absent body. *)
Lemma C4_no_else_with_absent_body :
  ~ (exists (tokens : list Token) (fuel : nat) (cur : Z) (n : Node) (cur' : Z),
        parse_if_statement tokens fuel cur = Ok (Some n, cur') /\
        chain_end n = ElseNode None).
Proof.
  intros (tokens & fuel & cur & n & cur' & H & Hend).
  destruct fuel as [ | fuel]; [ discriminate H | ].
  cbn [parse_if_statement] in H.
  apply bind_ok_inv in H. destruct H as (u & c1 & _ & H).
  apply bind_ok_inv in H. destruct H as ([cn bn] & c2 & _ & H).
  apply bind_ok_inv in H. destruct H as (nx & c3 & Hn & H).
  unfold ret in H. inversion H; subst.
  destruct nx as [n' | ]; cbn [chain_end] in Hend.
  - exact (next_if_chain_end tokens _ _ _ _ Hn Hend).
  - discriminate Hend.
Qed.

(** C4, amended.  When the token after the primary if's block is the else
    token and the chain parse returns, the else-clause had the form
    [else { block }] with both braces present, and the chain ends there in
    an Else node whose body is a Block node (possibly holding no
    statement). *)
Theorem C4_else_clause_has_block
    (tokens : list Token) (fuel : nat) (cur : Z) (t : Token)
    (node : option Node) (cur' : Z) :
  token_at tokens cur = Some t -> get_token_type t = ELSE ->
  parse_next_if_conditional tokens fuel cur = Ok (node, cur') ->
  exists stmts,
    node = Some (ElseNode (Some (BlockNode stmts))) /\
    kind_at tokens (cur + 1) = Some LEFT_BRACE /\
    kind_at tokens (cur' - 1) = Some RIGHT_BRACE.
Proof.
  intros Ht Hk H. destruct fuel as [ | fuel]; [ discriminate H | ].
  cbn [parse_next_if_conditional] in H.
  apply bind_ok_inv in H. destruct H as (t0 & c & Ht0 & H).
  apply current_token_ok_inv in Ht0. destruct Ht0 as [Ht0 ->].
  rewrite Ht in Ht0. inversion Ht0; subst t0.
  pose proof Hk as Hk'. apply is_token_type_true in Hk'. rewrite Hk' in H.
  exact (parse_else_ok_inv tokens fuel cur t node cur' Ht Hk H).
Qed.

Lemma C4_else_clause_has_block_witness :
  exists stmts,
    Some (ElseNode (Some (BlockNode []))) = Some (ElseNode (Some (BlockNode stmts))) /\
    kind_at tokens_else_empty (0 + 1) = Some LEFT_BRACE /\
    kind_at tokens_else_empty (3 - 1) = Some RIGHT_BRACE.
Proof.
  apply (C4_else_clause_has_block tokens_else_empty 10 0 (tk ELSE 1)
           (Some (ElseNode (Some (BlockNode [])))) 3);
    reflexivity.
Defined.

(** ** C7: the shape of if-chains *)

Lemma kind_at_inv (tokens : list Token) (i : Z) (k : TokenType) :
  kind_at tokens i = Some k ->
  exists t, token_at tokens i = Some t /\ get_token_type t = k.
Proof.
  unfold kind_at. destruct (token_at tokens i) as [t | ]; cbn [option_map];
    intros H; inversion H. exists t. split; reflexivity.
Qed.

Lemma validate_kind_ok (tokens : list Token) (k : TokenType) (msg : string)
    (cur : Z) :
  kind_at tokens cur = Some k ->
  validate_token tokens [k] msg cur = Ok (tt, cur + 1).
Proof.
  intros H. apply kind_at_inv in H. destruct H as (t & Ht & Hk).
  apply (validate_token_ok tokens [k] msg cur t Ht).
  apply kind_mem_singleton. exact Hk.
Qed.

Lemma current_token_kind (tokens : list Token) (k : TokenType) (cur : Z) :
  kind_at tokens cur = Some k ->
  exists t, current_token tokens cur = Ok (t, cur) /\ get_token_type t = k.
Proof.
  intros H. apply kind_at_inv in H. destruct H as (t & Ht & Hk).
  exists t. split; [ | exact Hk ].
  unfold current_token, bind, get_current.
  apply retrieve_token_some. exact Ht.
Qed.

(** An [else { block }] clause at the cursor. *)
Lemma parse_next_if_else (tokens : list Token) (fuel : nat) (cur cur3 : Z)
    (C : Node) :
  kind_at tokens cur = Some ELSE ->
  kind_at tokens (cur + 1) = Some LEFT_BRACE ->
  parse_block tokens fuel (cur + 2) = Ok (C, cur3) ->
  kind_at tokens cur3 = Some RIGHT_BRACE ->
  parse_next_if_conditional tokens (S (S fuel)) cur
  = Ok (Some (ElseNode (Some C)), cur3 + 1).
Proof.
  intros He Hl Hb Hr.
  destruct (current_token_kind tokens ELSE cur He) as (t & Ht & Hk).
  apply is_token_type_true in Hk.
  cbn [parse_next_if_conditional]. unfold bind at 1. rewrite Ht, Hk.
  cbn [parse_else]. unfold bind at 1. rewrite Ht, Hk.
  unfold bind at 1. rewrite (validate_kind_ok tokens ELSE _ cur He).
  unfold bind at 1. rewrite (validate_kind_ok tokens LEFT_BRACE _ _ Hl).
  replace (cur + 1 + 1) with (cur + 2) by lia.
  unfold bind at 1. rewrite Hb.
  unfold bind at 1. rewrite (validate_kind_ok tokens RIGHT_BRACE _ _ Hr).
  reflexivity.
Qed.

(** No clause follows: the token at the cursor is neither [else] nor
    [elseif]. *)
Lemma parse_next_if_none (tokens : list Token) (fuel : nat) (cur : Z)
    (k : TokenType) :
  kind_at tokens cur = Some k -> k <> ELSEIF -> k <> ELSE ->
  parse_next_if_conditional tokens (S fuel) cur = Ok (None, cur).
Proof.
  intros Hk Hne1 Hne2.
  destruct (current_token_kind tokens k cur Hk) as (t & Ht & Hkt).
  cbn [parse_next_if_conditional]. unfold bind at 1. rewrite Ht.
  replace (is_token_type t ELSE) with false
    by (symmetry; apply is_token_type_false; congruence).
  unfold bind at 1. rewrite Ht.
  destruct (negb (mem (get_token_type t) if_statement_tokens));
    [ reflexivity | ].
  unfold bind at 1. rewrite Ht.
  replace (is_token_type t ELSEIF) with false
    by (symmetry; apply is_token_type_false; congruence).
  reflexivity.
Qed.

(** An [elseif] clause at the cursor, followed by whatever comes next. *)
Lemma parse_next_if_elseif (tokens : list Token) (fuel : nat)
    (cur cur2 cur3 : Z) (c2 : option Node) (B : Node) (next : option Node) :
  kind_at tokens cur = Some ELSEIF ->
  parse_conditional tokens fuel (cur + 1) = Ok ((c2, B), cur2) ->
  parse_next_if_conditional tokens fuel cur2 = Ok (next, cur3) ->
  parse_next_if_conditional tokens (S fuel) cur
  = Ok (Some (ElseIfNode c2 B next), cur3).
Proof.
  intros Hk Hc Hn.
  destruct (current_token_kind tokens ELSEIF cur Hk) as (t & Ht & Hkt).
  cbn [parse_next_if_conditional]. unfold bind at 1. rewrite Ht.
  replace (is_token_type t ELSE) with false
    by (symmetry; apply is_token_type_false; congruence).
  unfold bind at 1. rewrite Ht. rewrite Hkt.
  replace (negb (mem ELSEIF if_statement_tokens)) with false by reflexivity.
  unfold bind at 1. rewrite Ht.
  replace (is_token_type t ELSEIF) with true
    by (symmetry; apply is_token_type_true; exact Hkt).
  unfold bind at 1. rewrite (validate_kind_ok tokens ELSEIF _ cur Hk).
  unfold bind at 1. rewrite Hc.
  unfold bind at 1. rewrite Hn. reflexivity.
Qed.

Lemma parse_if_statement_run (tokens : list Token) (fuel : nat)
    (cur cur1 cur2 : Z) (c1 : option Node) (A : Node) (next : option Node) :
  kind_at tokens cur = Some IF ->
  parse_conditional tokens fuel (cur + 1) = Ok ((c1, A), cur1) ->
  parse_next_if_conditional tokens fuel cur1 = Ok (next, cur2) ->
  parse_if_statement tokens (S fuel) cur = Ok (Some (IfNode c1 A next), cur2).
Proof.
  intros Hk Hc Hn. cbn [parse_if_statement].
  unfold bind at 1. rewrite (validate_kind_ok tokens IF _ cur Hk).
  unfold bind at 1. rewrite Hc.
  unfold bind at 1. rewrite Hn. reflexivity.
Qed.

(** C7.  An if statement whose condition and block parse to [c1] and [A]:
    - followed by [elseif], a conditional parsing to [c2] and [B], and
      [else { ... }] whose block parses to [C], it yields
      If(c1, A, ElseIf(c2, B, Else(C)));
    - followed by a token that is neither [elseif] nor [else], it yields
      an If node whose next is absent, and the cursor stays on that token. *)
Theorem C7_if_chain_shape
    (tokens : list Token) (fuel fuel' : nat) (cur cur1 : Z)
    (c1 : option Node) (A : Node) :
  kind_at tokens cur = Some IF ->
  parse_conditional tokens fuel (cur + 1) = Ok ((c1, A), cur1) ->
  (fuel + 4 <= fuel')%nat ->
  (forall (c2 : option Node) (B C : Node) (cur2 cur3 : Z),
      kind_at tokens cur1 = Some ELSEIF ->
      parse_conditional tokens fuel (cur1 + 1) = Ok ((c2, B), cur2) ->
      kind_at tokens cur2 = Some ELSE ->
      kind_at tokens (cur2 + 1) = Some LEFT_BRACE ->
      parse_block tokens fuel (cur2 + 2) = Ok (C, cur3) ->
      kind_at tokens cur3 = Some RIGHT_BRACE ->
      parse_if_statement tokens fuel' cur
      = Ok (Some (IfNode c1 A
                    (Some (ElseIfNode c2 B (Some (ElseNode (Some C)))))),
            cur3 + 1)) /\
  (forall k : TokenType,
      kind_at tokens cur1 = Some k -> k <> ELSEIF -> k <> ELSE ->
      parse_if_statement tokens fuel' cur = Ok (Some (IfNode c1 A None), cur1)).
Proof.
  intros Hif Hc1 Hf.
  destruct fuel' as [ | f]; [ lia | ].
  assert (Hc1' : parse_conditional tokens f (cur + 1) = Ok ((c1, A), cur1)).
  { apply (M_le_done _ _ _ _ (parse_conditional_mono tokens fuel f ltac:(lia)));
      [ exact Hc1 | discriminate ]. }
  split.
  - intros c2 B C cur2 cur3 Hei Hc2 Hel Hlb HC Hrb.
    apply (parse_if_statement_run tokens f cur cur1 (cur3 + 1)); try assumption.
    destruct f as [ | f1]; [ lia | ].
    apply (parse_next_if_elseif tokens f1 cur1 cur2 (cur3 + 1)).
    + exact Hei.
    + apply (M_le_done _ _ _ _
               (parse_conditional_mono tokens fuel f1 ltac:(lia)));
        [ exact Hc2 | discriminate ].
    + destruct f1 as [ | [ | f3]]; [ lia | lia | ].
      apply parse_next_if_else; try assumption.
      apply (M_le_done _ _ _ _ (parse_block_mono tokens fuel f3 ltac:(lia)));
        [ exact HC | discriminate ].
  - intros k Hk Hn1 Hn2.
    apply (parse_if_statement_run tokens f cur cur1 cur1); try assumption.
    destruct f as [ | f1]; [ lia | ].
    apply (parse_next_if_none tokens f1 cur1 k); assumption.
Qed.

(** ** C8: who moves the cursor *)

Lemma preserves_ret {A} (a : A) : preserves_cursor (ret a).
Proof. intros cur a' cur' H. inversion H. reflexivity. Qed.

Lemma preserves_raise {A} (e : Exn) : preserves_cursor (@raise A e).
Proof. intros cur a' cur' H. discriminate H. Qed.

Lemma preserves_out_of_fuel {A} : preserves_cursor (@out_of_fuel A).
Proof. intros cur a' cur' H. discriminate H. Qed.

Lemma preserves_bind {A B} (m : M A) (k : A -> M B) :
  preserves_cursor m -> (forall a, preserves_cursor (k a)) ->
  preserves_cursor (bind m k).
Proof.
  intros Hm Hk cur b cur' H.
  apply bind_ok_inv in H. destruct H as (a & c & H1 & H2).
  apply Hm in H1. subst c. apply (Hk a) in H2. exact H2.
Qed.

Lemma preserves_bind_retrieve {B} (tokens : list Token) (i : Z)
    (k : Token -> M B) :
  (forall t, token_at tokens i = Some t -> preserves_cursor (k t)) ->
  preserves_cursor (bind (retrieve_token tokens i) k).
Proof.
  intros Hk cur b cur' H.
  apply bind_ok_inv in H. destruct H as (t & c & H1 & H2).
  apply retrieve_token_ok_inv in H1. destruct H1 as [Ht ->].
  exact (Hk t Ht _ _ _ H2).
Qed.

Lemma preserves_retrieve_token (tokens : list Token) (i : Z) :
  preserves_cursor (retrieve_token tokens i).
Proof.
  intros cur t cur' H. apply retrieve_token_ok_inv in H. apply H.
Qed.

Ltac pres_step :=
  match goal with
  | |- preserves_cursor (ret _) => apply preserves_ret
  | |- preserves_cursor (raise _) => apply preserves_raise
  | |- preserves_cursor out_of_fuel => apply preserves_out_of_fuel
  | |- preserves_cursor (retrieve_token _ _) => apply preserves_retrieve_token
  | |- preserves_cursor (bind _ _) => apply preserves_bind; [ | intros ? ]
  | |- preserves_cursor (if ?b then _ else _) => destruct b
  | |- preserves_cursor (match ?x with _ => _ end) => destruct x
  | |- preserves_cursor _ => solve [ auto ]
  end.

Lemma preserves_find_parenthesis_count_while (tokens : list Token) :
  forall n r c i,
    preserves_cursor (find_parenthesis_count_while tokens n r c i).
Proof.
  induction n as [ | n IH]; intros r c i;
    cbn [find_parenthesis_count_while]; repeat pres_step.
Qed.

Lemma preserves_find_parenthesis_count (tokens : list Token) (l r : Z) :
  preserves_cursor (find_parenthesis_count tokens l r).
Proof.
  unfold find_parenthesis_count.
  pose proof (preserves_find_parenthesis_count_while tokens).
  repeat pres_step.
Qed.

Lemma preserves_is_nested_parens (tokens : list Token) (l r : Z) :
  preserves_cursor (is_nested_parens tokens l r).
Proof.
  unfold is_nested_parens, within_parens.
  pose proof (preserves_find_parenthesis_count tokens).
  repeat pres_step.
Qed.

Lemma preserves_skip_parentheses (tokens : list Token) (l r : Z) :
  preserves_cursor (skip_parentheses tokens l r).
Proof.
  unfold skip_parentheses.
  pose proof (preserves_find_parenthesis_count tokens).
  repeat pres_step.
Qed.

Lemma preserves_parse_operation (t : Token) (context : option Context) :
  preserves_cursor (parse_operation t context).
Proof. unfold parse_operation. repeat pres_step. Qed.

(** [_handle_token] at an explicit index leaves the cursor alone unless the
    token there is [print], [var] or [if]. *)
Lemma preserves_handle_token (tokens : list Token) (fuel : nat) (i : Z)
    (context : option Context) :
  not_statement_at tokens i ->
  preserves_cursor (handle_token tokens fuel (Some i) context).
Proof.
  intros Hns. destruct fuel as [ | fuel]; [ apply preserves_out_of_fuel | ].
  cbn [handle_token]. intros cur a cur' H.
  unfold bind at 1 in H. unfold ret at 1 in H. cbv beta iota in H.
  revert cur a cur' H. apply preserves_bind_retrieve. intros t Ht.
  specialize (Hns t Ht).
  pose proof (preserves_parse_operation t context).
  unfold parse_identifier_token.
  destruct (is_token_type t PRINT) eqn:E1.
  { apply is_token_type_true in E1. rewrite E1 in Hns. discriminate Hns. }
  destruct (is_token_type t IDENTIFIER); [ repeat pres_step | ].
  destruct (is_token_type t VAR) eqn:E2.
  { apply is_token_type_true in E2. rewrite E2 in Hns. discriminate Hns. }
  destruct (is_token_type t IF) eqn:E3.
  { apply is_token_type_true in E3. rewrite E3 in Hns. discriminate Hns. }
  repeat pres_step.
Qed.

Lemma stmt_free_mem (ops : list TokenType) (k : TokenType) :
  stmt_free ops = true -> mem k ops = true ->
  mem k [PRINT; VAR; IF] = false.
Proof.
  unfold stmt_free. intros Hf Hm.
  destruct k; try reflexivity; rewrite Hm in Hf;
    rewrite ?orb_true_r in Hf; discriminate Hf.
Qed.

Lemma valid_expression_not_statement (k : TokenType) :
  mem k valid_expression_types = true -> mem k [PRINT; VAR; IF] = false.
Proof. destruct k; intros H; try reflexivity; discriminate H. Qed.

Lemma not_statement_at_token (tokens : list Token) (i : Z) (t : Token) :
  token_at tokens i = Some t ->
  mem (get_token_type t) [PRINT; VAR; IF] = false ->
  not_statement_at tokens i.
Proof.
  intros Ht Hm t' Ht'. rewrite Ht in Ht'. inversion Ht'; subst. exact Hm.
Qed.

Lemma frame_all (tokens : list Token) : forall n, frame_at tokens n.
Proof.
  induction n as [ | n IH].
  - unfold frame_at. repeat split; intros; apply preserves_out_of_fuel.
  - unfold frame_at in IH.
    destruct IH as (IHrec & IHfor & IHwhile & IHhbo & IHun & IHbin).
    pose proof (preserves_is_nested_parens tokens) as Hnest.
    pose proof (preserves_skip_parentheses tokens) as Hskip.
    unfold frame_at. repeat split.
    + (* _parse_expression_recursive *)
      intros l r. cbn [parse_expression_recursive].
      apply preserves_bind_retrieve. intros lt Hlt.
      apply preserves_bind_retrieve. intros rt Hrt.
      destruct (r - l =? 0).
      * destruct (mem (get_token_type lt) valid_expression_types) eqn:Hv;
          cbn [negb]; [ | apply preserves_raise ].
        apply preserves_handle_token.
        apply (not_statement_at_token tokens l lt Hlt).
        apply valid_expression_not_statement. exact Hv.
      * apply preserves_bind; [ apply Hnest | intros nested ].
        destruct nested; [ apply IHrec | ].
        apply IHfor. reflexivity.
    + (* the for loop *)
      intros p l r Hp. cbn [parse_expression_recursive_for].
      destruct p as [ | ops rest].
      * repeat pres_step.
      * cbn [forallb] in Hp. apply andb_prop in Hp. destruct Hp as [Ho Hr].
        apply preserves_bind; [ apply IHwhile; exact Ho | intros node ].
        destruct (truthy node); [ apply preserves_ret | ].
        apply IHfor. exact Hr.
    + (* the while loop *)
      intros ops l r i Ho. cbn [parse_expression_recursive_while].
      destruct (i <? r); [ | apply preserves_ret ].
      apply preserves_bind_retrieve. intros t Ht.
      apply preserves_bind.
      { destruct (is_token_type t LEFT_PAREN);
          [ apply Hskip | apply preserves_ret ]. }
      intros i'. apply preserves_bind; [ apply IHhbo; exact Ho | intros node ].
      destruct (truthy node); [ apply preserves_ret | ].
      apply IHwhile. exact Ho.
    + (* _handle_by_operations *)
      intros ops l r i Ho. cbn [handle_by_operations].
      apply preserves_bind_retrieve. intros t Ht.
      destruct (mem (get_token_type t) ops) eqn:Hm; [ | apply preserves_ret ].
      assert (Hns : not_statement_at tokens i).
      { apply (not_statement_at_token tokens i t Ht).
        apply (stmt_free_mem ops); assumption. }
      destruct (mem (get_token_type t) unary_operations);
        [ apply IHun | apply IHbin ]; exact Hns.
    + (* _handle_unary_operation *)
      intros i r Hns. cbn [handle_unary_operation].
      apply preserves_bind_retrieve. intros t Ht.
      apply preserves_bind; [ apply IHrec | intros right_node ].
      destruct right_node; [ | apply preserves_raise ].
      apply preserves_handle_token. exact Hns.
    + (* _handle_binary_operation *)
      intros l i r Hns. cbn [handle_binary_operation].
      apply preserves_bind_retrieve. intros t Ht.
      apply preserves_bind; [ apply IHrec | intros left_node ].
      destruct left_node; [ | apply preserves_raise ].
      apply preserves_bind; [ apply IHrec | intros right_node ].
      destruct right_node; [ | apply preserves_raise ].
      apply preserves_handle_token. exact Hns.
Qed.

(** C8.  With the cursor on the first token of a non-empty run of
    expression-legal tokens whose first token past the run is at [e],
    [_parse_expression], when it returns, leaves the cursor exactly at [e];
    and the recursive range parse, whatever range it is given, returns with
    the cursor it was called with: only [_parse_expression] assigns it. *)
Theorem C8_expression_consumes_run
    (tokens : list Token) (fuel : nat) (cur e : Z)
    (node : option Node) (cur' : Z) :
  expression_run tokens cur e -> cur < e ->
  parse_expression tokens fuel cur = Ok (node, cur') ->
  cur' = e /\
  (forall fuel2 l r c v c',
      parse_expression_recursive tokens fuel2 l r c = Ok (v, c') -> c' = c).
Proof.
  intros Hrun Hne H. split.
  - destruct fuel as [ | fuel]; [ discriminate H | ].
    cbn [parse_expression] in H.
    apply bind_ok_inv in H. destruct H as (e' & c1 & He & H).
    rewrite (find_end_run tokens cur e Hrun) in He. inversion He; subst e' c1.
    apply bind_ok_inv in H. destruct H as (c0 & c2 & Hg & H).
    apply bind_ok_inv in H. destruct H as (n & c3 & Hr & H).
    apply bind_ok_inv in H. destruct H as (u & c4 & Hs & H).
    unfold set_current in Hs. inversion Hs; subst.
    unfold ret in H. inversion H; subst. reflexivity.
  - intros fuel2 l r c v c' Hr.
    destruct (frame_all tokens fuel2) as (Hrec & _).
    exact (Hrec l r c v c' Hr).
Qed.

Lemma C8_expression_consumes_run_witness :
  2 = 2 /\
  (forall fuel2 l r c v c',
      parse_expression_recursive tokens_print_a fuel2 l r c = Ok (v, c') ->
      c' = c).
Proof.
  apply (C8_expression_consumes_run tokens_print_a 10 1 2
           (Some (VariableNode "a")) 2).
  - split; [ lia | split ].
    + intros i Hi. assert (i = 1) as -> by lia.
      exists (ident "a" 1). split; reflexivity.
    + exists (tk SEMI_COLON 1). split; reflexivity.
  - lia.
  - reflexivity.
Defined.

(** ** Stepping the operator search *)

Lemma handle_by_operations_miss (tokens : list Token) (fuel : nat)
    (ops : list TokenType) (l r i cur : Z) (t : Token) :
  token_at tokens i = Some t ->
  mem (get_token_type t) ops = false ->
  handle_by_operations tokens (S fuel) ops l r i cur = Ok (None, cur).
Proof.
  intros Ht Hm. cbn [handle_by_operations]. unfold bind.
  rewrite (retrieve_token_some _ _ _ _ Ht). rewrite Hm. reflexivity.
Qed.

Lemma binary_not_unary (k : TokenType) (mk : Node -> Node -> Node) :
  binary_operation_map k = Some mk -> mem k unary_operations = false.
Proof. destruct k; intros H; try discriminate H; reflexivity. Qed.

Lemma handle_by_operations_binary (tokens : list Token) (fuel : nat)
    (ops : list TokenType) (l r i cur : Z) (t : Token)
    (mk : Node -> Node -> Node) :
  token_at tokens i = Some t ->
  mem (get_token_type t) ops = true ->
  binary_operation_map (get_token_type t) = Some mk ->
  handle_by_operations tokens (S fuel) ops l r i cur
  = handle_binary_operation tokens fuel l i r cur.
Proof.
  intros Ht Hm Hb. cbn [handle_by_operations]. unfold bind.
  rewrite (retrieve_token_some _ _ _ _ Ht). rewrite Hm.
  rewrite (binary_not_unary _ _ Hb). reflexivity.
Qed.

Lemma handle_by_operations_unary (tokens : list Token) (fuel : nat)
    (ops : list TokenType) (l r i cur : Z) (t : Token) :
  token_at tokens i = Some t ->
  mem (get_token_type t) ops = true ->
  get_token_type t = BANG ->
  handle_by_operations tokens (S fuel) ops l r i cur
  = handle_unary_operation tokens fuel i r cur.
Proof.
  intros Ht Hm Hb. cbn [handle_by_operations]. unfold bind.
  rewrite (retrieve_token_some _ _ _ _ Ht). rewrite Hm.
  rewrite Hb. reflexivity.
Qed.

(** Node construction for a binary operator token. *)
Lemma handle_token_binary (tokens : list Token) (fuel : nat) (i cur : Z)
    (t : Token) (mk : Node -> Node -> Node) (a b : Node) :
  token_at tokens i = Some t ->
  binary_operation_map (get_token_type t) = Some mk ->
  handle_token tokens (S fuel) (Some i) (Some (BinaryOperationContext a b)) cur
  = Ok (Some (mk a b), cur).
Proof.
  intros Ht Hb. cbn [handle_token]. mrun. rewrite Ht. cbv beta iota.
  unfold parse_operation, is_token_type.
  destruct t as [k lx lit ln]. cbn [get_token_type] in *.
  destruct k; try discriminate Hb; inversion Hb; reflexivity.
Qed.

(** Node construction for the logical-not token. *)
Lemma handle_token_unary (tokens : list Token) (fuel : nat) (i cur : Z)
    (t : Token) (a : Node) :
  token_at tokens i = Some t ->
  get_token_type t = BANG ->
  handle_token tokens (S fuel) (Some i) (Some (UnaryOperationContext a)) cur
  = Ok (Some (NotNode a), cur).
Proof.
  intros Ht Hb. cbn [handle_token]. mrun. rewrite Ht. cbv beta iota.
  unfold parse_operation, is_token_type.
  destruct t as [k lx lit ln]. cbn [get_token_type] in *. subst k.
  reflexivity.
Qed.

Lemma handle_binary_operation_run (tokens : list Token) (fuel : nat)
    (l i r cur : Z) (t : Token) (mk : Node -> Node -> Node) (a b : Node) :
  token_at tokens i = Some t ->
  binary_operation_map (get_token_type t) = Some mk ->
  parse_expression_recursive tokens (S fuel) l (i - 1) cur = Ok (Some a, cur) ->
  parse_expression_recursive tokens (S fuel) (i + 1) r cur = Ok (Some b, cur) ->
  handle_binary_operation tokens (S (S fuel)) l i r cur
  = Ok (Some (mk a b), cur).
Proof.
  intros Ht Hb Ha Hbr. cbn [handle_binary_operation].
  unfold bind at 1. rewrite (retrieve_token_some _ _ _ _ Ht).
  unfold bind at 1. rewrite Ha.
  unfold bind at 1. rewrite Hbr.
  apply (handle_token_binary tokens fuel i cur t mk a b Ht Hb).
Qed.

Lemma handle_unary_operation_run (tokens : list Token) (fuel : nat)
    (i r cur : Z) (t : Token) (a : Node) :
  token_at tokens i = Some t ->
  get_token_type t = BANG ->
  parse_expression_recursive tokens (S fuel) (i + 1) r cur = Ok (Some a, cur) ->
  handle_unary_operation tokens (S (S fuel)) i r cur
  = Ok (Some (NotNode a), cur).
Proof.
  intros Ht Hb Ha. cbn [handle_unary_operation].
  unfold bind at 1. rewrite (retrieve_token_some _ _ _ _ Ht).
  unfold bind at 1. rewrite Ha.
  apply (handle_token_unary tokens fuel i cur t a Ht Hb).
Qed.

(** One iteration of the scan on a token that is neither a left parenthesis
    nor in the active tier. *)
Lemma while_step_miss (tokens : list Token) (fuel : nat)
    (ops : list TokenType) (l r i cur : Z) (t : Token) :
  i < r ->
  token_at tokens i = Some t ->
  is_token_type t LEFT_PAREN = false ->
  mem (get_token_type t) ops = false ->
  parse_expression_recursive_while tokens (S (S fuel)) ops l r i cur
  = parse_expression_recursive_while tokens (S fuel) ops l r (i + 1) cur.
Proof.
  intros Hi Ht Hp Hm.
  change (parse_expression_recursive_while tokens (S (S fuel)) ops l r i)
    with (if i <? r then
            token <- retrieve_token tokens i ;;
            index <- (if is_token_type token LEFT_PAREN
                      then skip_parentheses tokens i r
                      else ret i) ;;
            node <- handle_by_operations tokens (S fuel) ops l r index ;;
            if truthy node then ret node
            else parse_expression_recursive_while tokens (S fuel) ops l r
                   (index + 1)
          else ret None).
  replace (i <? r) with true by (symmetry; apply Z.ltb_lt; exact Hi).
  unfold bind at 1. rewrite (retrieve_token_some _ _ _ _ Ht).
  rewrite Hp. unfold bind at 1. unfold ret at 1.
  unfold bind at 1.
  rewrite (handle_by_operations_miss tokens fuel ops l r i cur t Ht Hm).
  reflexivity.
Qed.

(** One iteration of the scan on a token, not a left parenthesis, for which
    [_handle_by_operations] builds a node: the search returns it. *)
Lemma while_step_hit (tokens : list Token) (fuel : nat)
    (ops : list TokenType) (l r i cur : Z) (t : Token) (node : Node) :
  i < r ->
  token_at tokens i = Some t ->
  is_token_type t LEFT_PAREN = false ->
  handle_by_operations tokens fuel ops l r i cur = Ok (Some node, cur) ->
  parse_expression_recursive_while tokens (S fuel) ops l r i cur
  = Ok (Some node, cur).
Proof.
  intros Hi Ht Hp Hh.
  cbn [parse_expression_recursive_while].
  replace (i <? r) with true by (symmetry; apply Z.ltb_lt; exact Hi).
  unfold bind at 1. rewrite (retrieve_token_some _ _ _ _ Ht).
  rewrite Hp. unfold bind at 1. unfold ret at 1.
  unfold bind at 1. rewrite Hh. reflexivity.
Qed.

(** A scan over tokens that are neither left parentheses nor in the active
    tier finds nothing. *)
Lemma while_no_hit (tokens : list Token) (ops : list TokenType) (l r cur : Z) :
  forall (k : nat) (i : Z) (fuel : nat),
    r - i <= Z.of_nat k ->
    (k + 2 <= fuel)%nat ->
    (forall j, i <= j < r ->
       exists t, token_at tokens j = Some t /\
                 is_token_type t LEFT_PAREN = false /\
                 mem (get_token_type t) ops = false) ->
    parse_expression_recursive_while tokens fuel ops l r i cur
    = Ok (None, cur).
Proof.
  induction k as [ | k IH]; intros i fuel Hk Hf Hall.
  - destruct fuel as [ | fuel]; [ lia | ].
    apply while_empty_range. lia.
  - destruct (Z_lt_ge_dec i r) as [Hlt | Hge].
    + destruct fuel as [ | [ | fuel]]; [ lia | lia | ].
      destruct (Hall i) as (t & Ht & Hp & Hm); [ lia | ].
      rewrite (while_step_miss tokens fuel ops l r i cur t Hlt Ht Hp Hm).
      apply IH; [ lia | lia | ].
      intros j Hj. apply Hall. lia.
    + destruct fuel as [ | fuel]; [ lia | ].
      apply while_empty_range. lia.
Qed.

(** The for loop moves on when a tier finds nothing, and returns the node
    of the first tier that finds one. *)
Lemma for_skip (tokens : list Token) (fuel : nat) (ops : list TokenType)
    (rest : list (list TokenType)) (l r cur : Z) :
  parse_expression_recursive_while tokens fuel ops l r l cur = Ok (None, cur) ->
  parse_expression_recursive_for tokens (S fuel) (ops :: rest) l r cur
  = parse_expression_recursive_for tokens fuel rest l r cur.
Proof.
  intros H. cbn [parse_expression_recursive_for].
  unfold bind at 1. rewrite H. reflexivity.
Qed.

Lemma for_hit (tokens : list Token) (fuel : nat) (ops : list TokenType)
    (rest : list (list TokenType)) (l r cur : Z) (node : Node) :
  parse_expression_recursive_while tokens fuel ops l r l cur
  = Ok (Some node, cur) ->
  parse_expression_recursive_for tokens (S fuel) (ops :: rest) l r cur
  = Ok (Some node, cur).
Proof.
  intros H. cbn [parse_expression_recursive_for].
  unfold bind at 1. rewrite H. reflexivity.
Qed.

Lemma for_search (tokens : list Token) (l r cur : Z) (node : Node)
    (w : nat) (tier : list TokenType) (after : list (list TokenType)) :
  forall (before : list (list TokenType)) (fuel : nat),
    (forall ops f, In ops before -> (w <= f)%nat ->
        parse_expression_recursive_while tokens f ops l r l cur
        = Ok (None, cur)) ->
    (forall f, (w <= f)%nat ->
        parse_expression_recursive_while tokens f tier l r l cur
        = Ok (Some node, cur)) ->
    (w + List.length before + 1 <= fuel)%nat ->
    parse_expression_recursive_for tokens fuel (before ++ tier :: after) l r cur
    = Ok (Some node, cur).
Proof.
  induction before as [ | ops before IH]; intros fuel Hmiss Hhit Hf.
  - destruct fuel as [ | fuel]; [ lia | ].
    cbn [app]. apply for_hit. apply Hhit. cbn [List.length] in Hf. lia.
  - destruct fuel as [ | fuel]; [ lia | ].
    cbn [List.length] in Hf.
    change ((ops :: before) ++ tier :: after)%list
      with (ops :: (before ++ tier :: after))%list.
    rewrite for_skip.
    + apply IH; [ | exact Hhit | lia ].
      intros ops' f Hin Hw. apply Hmiss; [ right; exact Hin | exact Hw ].
    + apply Hmiss; [ left; reflexivity | lia ].
Qed.

(** The top of [_parse_expression_recursive] on a range of two or more
    tokens that does not start with a left parenthesis. *)
Lemma recursive_to_for (tokens : list Token) (fuel : nat) (l r cur : Z)
    (lt rt : Token) :
  token_at tokens l = Some lt ->
  token_at tokens r = Some rt ->
  l <> r ->
  is_token_type lt LEFT_PAREN = false ->
  parse_expression_recursive tokens (S fuel) l r cur
  = parse_expression_recursive_for tokens fuel operator_precedence l r cur.
Proof.
  intros Hl Hr Hne Hp. cbn [parse_expression_recursive].
  unfold bind at 1. rewrite (retrieve_token_some _ _ _ _ Hl).
  unfold bind at 1. rewrite (retrieve_token_some _ _ _ _ Hr).
  replace (r - l =? 0) with false by (symmetry; apply Z.eqb_neq; lia).
  unfold bind at 1. unfold is_nested_parens, within_parens.
  unfold bind at 1. unfold bind at 1.
  rewrite (retrieve_token_some _ _ _ _ Hl).
  unfold bind at 1. rewrite (retrieve_token_some _ _ _ _ Hr).
  rewrite Hp. reflexivity.
Qed.

(** ** C3: chains of one binary operator *)

Lemma split_at_tier_spec (op : TokenType) :
  forall p before tier after,
    split_at_tier op p = Some (before, tier, after) ->
    p = (before ++ tier :: after)%list /\
    mem op tier = true /\
    (forall ops, In ops before -> mem op ops = false).
Proof.
  induction p as [ | ops rest IH]; intros before tier after H.
  - discriminate H.
  - cbn [split_at_tier] in H.
    destruct (mem op ops) eqn:Hm.
    + inversion H; subst. split; [ reflexivity | split; [ exact Hm | ] ].
      intros ops' [].
    + destruct (split_at_tier op rest) as [[[b t] a] | ] eqn:Hs;
        [ | discriminate H ].
      inversion H; subst.
      destruct (IH b tier after eq_refl) as (Hp & Ht & Hb).
      split; [ rewrite Hp; reflexivity | split; [ exact Ht | ] ].
      intros ops' [E | Hin]; [ subst ops'; exact Hm | apply Hb; exact Hin ].
Qed.

Lemma binary_has_tier (op : TokenType) (mk : Node -> Node -> Node) :
  binary_operation_map op = Some mk ->
  exists before tier after,
    split_at_tier op operator_precedence = Some (before, tier, after).
Proof.
  destruct op; intros H; try discriminate H;
    do 3 eexists; reflexivity.
Qed.

Lemma tier_no_operand (tier : list TokenType) (k : TokenType) :
  In tier operator_precedence ->
  mem k valid_print_types = true -> mem k tier = false.
Proof.
  unfold operator_precedence. cbn [In].
  intros H Hk.
  repeat (destruct H as [H | H];
          [ subst tier; destruct k; try discriminate Hk; reflexivity | ]).
  contradiction.
Qed.

Lemma operand_not_left_paren (t : Token) :
  mem (get_token_type t) valid_print_types = true ->
  is_token_type t LEFT_PAREN = false.
Proof.
  unfold is_token_type. destruct (get_token_type t); intros H;
    try discriminate H; reflexivity.
Qed.

Lemma binary_not_left_paren (t : Token) (mk : Node -> Node -> Node) :
  binary_operation_map (get_token_type t) = Some mk ->
  is_token_type t LEFT_PAREN = false.
Proof.
  unfold is_token_type. destruct (get_token_type t); intros H;
    try discriminate H; reflexivity.
Qed.

Lemma operand_has_leaf (t : Token) :
  mem (get_token_type t) valid_print_types = true ->
  exists n, leaf_node t = Some n.
Proof.
  unfold leaf_node. destruct (get_token_type t); intros H;
    try discriminate H; eexists; reflexivity.
Qed.

Lemma chain_tokens (tokens : list Token) (op : TokenType) :
  forall rest l first,
    chain_at tokens op l first rest ->
    forall j, l <= j <= l + 2 * Z.of_nat (List.length rest) ->
      exists t, token_at tokens j = Some t /\
                (mem (get_token_type t) valid_print_types = true \/
                 get_token_type t = op).
Proof.
  induction rest as [ | t rest IH]; intros l first H j Hj;
    cbn [chain_at] in H; destruct H as (Hf & Hv & H).
  - cbn [List.length] in Hj. assert (j = l) as -> by lia.
    exists first. split; [ exact Hf | left; exact Hv ].
  - destruct H as (Hop & Hrest).
    cbn [List.length] in Hj. rewrite Nat2Z.inj_succ in Hj.
    destruct (Z.eq_dec j l) as [-> | Hne1].
    { exists first. split; [ exact Hf | left; exact Hv ]. }
    destruct (Z.eq_dec j (l + 1)) as [-> | Hne2].
    { apply kind_at_inv in Hop. destruct Hop as (to & Hto & Hko).
      exists to. split; [ exact Hto | right; exact Hko ]. }
    apply (IH (l + 2) t Hrest). lia.
Qed.

Lemma chain_node_some (tokens : list Token) (op : TokenType)
    (mk : Node -> Node -> Node) :
  forall rest l first,
    chain_at tokens op l first rest ->
    exists n, chain_node mk first rest = Some n.
Proof.
  induction rest as [ | t rest IH]; intros l first H;
    cbn [chain_at] in H; destruct H as (Hf & Hv & H); cbn [chain_node].
  - apply operand_has_leaf. exact Hv.
  - destruct H as (_ & Hrest).
    destruct (operand_has_leaf first Hv) as [a Ha].
    destruct (IH _ _ Hrest) as [b Hb].
    rewrite Ha, Hb. eexists. reflexivity.
Qed.

Lemma chain_parse (tokens : list Token) (op : TokenType)
    (mk : Node -> Node -> Node) (cur : Z) :
  binary_operation_map op = Some mk ->
  forall rest l first fuel,
    chain_at tokens op l first rest ->
    (14 * (List.length rest + 1) <= fuel)%nat ->
    parse_expression_recursive tokens fuel l
      (l + 2 * Z.of_nat (List.length rest)) cur
    = Ok (chain_node mk first rest, cur).
Proof.
  intros Hmk.
  destruct (binary_has_tier op mk Hmk) as (before & tier & after & Hsplit).
  apply split_at_tier_spec in Hsplit.
  destruct Hsplit as (Hprec & Hin_tier & Hbefore).
  assert (Hlen : (List.length before <= 6)%nat).
  { assert (E : List.length operator_precedence = 7%nat) by reflexivity.
    rewrite Hprec in E. rewrite length_app in E. cbn [List.length] in E.
    lia. }
  induction rest as [ | t rest IH]; intros l first fuel Hchain Hf.
  - cbn [chain_at] in Hchain. destruct Hchain as (Hfirst & Hv & _).
    cbn [List.length chain_node] in *.
    replace (l + 2 * Z.of_nat 0) with l by lia.
    destruct fuel as [ | [ | fuel]]; [ lia | lia | ].
    apply recursive_leaf; assumption.
  - pose proof (chain_tokens tokens op _ _ _ Hchain) as Htoks.
    pose proof Hchain as Hchain0.
    cbn [chain_at] in Hchain.
    destruct Hchain as (Hfirst & Hv & Hop & Hrest).
    apply kind_at_inv in Hop. destruct Hop as (to & Hto & Hko).
    cbn [List.length] in *. rewrite Nat2Z.inj_succ in *.
    set (r := l + 2 * Z.succ (Z.of_nat (List.length rest))) in *.
    assert (Hr : r = (l + 2) + 2 * Z.of_nat (List.length rest))
      by (subst r; lia).
    destruct (operand_has_leaf first Hv) as [a Ha].
    destruct (chain_node_some tokens op mk _ _ _ Hrest) as [b Hb].
    cbn [chain_node]. rewrite Ha, Hb.
    destruct (Htoks r) as (rt & Hrt & _); [ subst r; lia | ].
    destruct fuel as [ | fuel]; [ lia | ].
    rewrite (recursive_to_for tokens fuel l r cur first rt Hfirst Hrt);
      [ | subst r; lia | apply operand_not_left_paren; exact Hv ].
    rewrite Hprec.
    apply (for_search tokens l r cur (mk a b)
             (14 * (List.length rest + 1) + 4)).
    + (* tiers of lower precedence find nothing *)
      intros ops f Hin Hw.
      apply (while_no_hit tokens ops l r cur
               (Z.to_nat (r - l)) l f); [ lia | subst r; lia | ].
      intros j Hj. destruct (Htoks j) as (tj & Htj & Hkind); [ lia | ].
      exists tj. split; [ exact Htj | ].
      assert (Hin' : In ops operator_precedence).
      { rewrite Hprec. apply in_or_app. left. exact Hin. }
      destruct Hkind as [Hoperand | Hisop].
      * split; [ apply operand_not_left_paren; exact Hoperand | ].
        apply (tier_no_operand ops _ Hin' Hoperand).
      * split.
        -- apply (binary_not_left_paren tj mk). rewrite Hisop. exact Hmk.
        -- rewrite Hisop. apply Hbefore. exact Hin.
    + (* the operator's tier splits at the leftmost operator *)
      intros f Hw.
      destruct f as [ | [ | f2]]; [ lia | lia | ].
      assert (Hin' : In tier operator_precedence).
      { rewrite Hprec. apply in_or_app. right. left. reflexivity. }
      rewrite (while_step_miss tokens f2 tier l r l cur first);
        [ | subst r; lia | exact Hfirst
          | apply operand_not_left_paren; exact Hv
          | apply (tier_no_operand tier _ Hin' Hv) ].
      assert (Hto_mk : binary_operation_map (get_token_type to) = Some mk)
        by (rewrite Hko; exact Hmk).
      apply (while_step_hit tokens f2 tier l r (l + 1) cur to);
        [ subst r; lia | exact Hto
          | apply (binary_not_left_paren to mk Hto_mk) | ].
      destruct f2 as [ | f3]; [ lia | ].
      rewrite (handle_by_operations_binary tokens f3 tier l r (l + 1) cur
                 to mk Hto); [ | rewrite Hko; exact Hin_tier | exact Hto_mk ].
      destruct f3 as [ | [ | f4]]; [ lia | lia | ].
      apply (handle_binary_operation_run tokens f4 l (l + 1) r cur to mk a b
               Hto Hto_mk).
      * replace (l + 1 - 1) with l by lia.
        destruct f4 as [ | f5]; [ lia | ].
        rewrite <- Ha. apply recursive_leaf; assumption.
      * replace (l + 1 + 1) with (l + 2) by lia. rewrite Hr.
        rewrite <- Hb. apply IH; [ exact Hrest | lia ].
    + lia.
Qed.

(** C3.  A chain [x0 op x1 op ... op xn] of operand tokens joined by one
    binary operator, anywhere in the token list, parses to the
    right-grouped tree [op(x0, op(x1, ... op(x(n-1), xn)))]: the range
    parser splits at the leftmost occurrence and recurses on both sides. *)
Theorem C3_operator_chain_groups_right
    (tokens : list Token) (op : TokenType) (mk : Node -> Node -> Node)
    (l cur : Z) (first : Token) (rest : list Token) (fuel : nat) :
  binary_operation_map op = Some mk ->
  chain_at tokens op l first rest ->
  (14 * (List.length rest + 1) <= fuel)%nat ->
  (exists n, chain_node mk first rest = Some n) /\
  parse_expression_recursive tokens fuel l
    (l + 2 * Z.of_nat (List.length rest)) cur
  = Ok (chain_node mk first rest, cur).
Proof.
  intros Hmk Hchain Hf. split.
  - apply (chain_node_some tokens op mk rest l first Hchain).
  - apply (chain_parse tokens op mk cur Hmk rest l first fuel Hchain Hf).
Qed.

Lemma C3_operator_chain_groups_right_witness :
  (exists n,
      Some (SubtractionNode (VariableNode "a")
              (SubtractionNode (VariableNode "b") (VariableNode "c")))
      = Some n) /\
  parse_expression_recursive tokens_a_minus_b_minus_c 42 1 5 1
  = Ok (Some (SubtractionNode (VariableNode "a")
                (SubtractionNode (VariableNode "b") (VariableNode "c"))),
        1).
Proof.
  apply (C3_operator_chain_groups_right tokens_a_minus_b_minus_c MINUS
           SubtractionNode 1 1 (ident "a" 1) [ident "b" 1; ident "c" 1] 42).
  - reflexivity.
  - cbn [chain_at]. repeat split; reflexivity.
  - cbn [List.length]. lia.
Defined.

(** ** The operator search around a not token *)

Lemma parse_expression_recursive_while_mono (tokens : list Token)
    (n n' : nat) ops l r i :
  (n <= n')%nat ->
  M_le (parse_expression_recursive_while tokens n ops l r i)
       (parse_expression_recursive_while tokens n' ops l r i).
Proof. intros H. apply (mono_all tokens n n' H). Qed.

Lemma find_parenthesis_count_while_lower (tokens : list Token) :
  forall n r c i cur c' e cur',
    find_parenthesis_count_while tokens n r c i cur = Ok ((c', e), cur') ->
    i <= e.
Proof.
  induction n as [ | n IH]; intros r c i cur c' e cur' H;
    cbn [find_parenthesis_count_while] in H;
    destruct (i <=? r).
  - discriminate H.
  - unfold ret in H. inversion H; subst. lia.
  - apply bind_ok_inv in H. destruct H as (t & c1 & _ & H).
    match type of H with
    | (if ?b then _ else _) _ = _ => destruct b
    end.
    + unfold ret in H. inversion H; subst. lia.
    + apply IH in H. lia.
  - unfold ret in H. inversion H; subst. lia.
Qed.

Lemma skip_parentheses_bounds (tokens : list Token) (l r cur i' cur' : Z) :
  l < r ->
  skip_parentheses tokens l r cur = Ok (i', cur') ->
  l <= i' <= r.
Proof.
  intros Hlt H. unfold skip_parentheses in H.
  apply bind_ok_inv in H. destruct H as ([c e] & c1 & Hc & H).
  unfold ret in H. inversion H; subst.
  unfold find_parenthesis_count in Hc.
  apply bind_ok_inv in Hc. destruct Hc as ([c0 e0] & c2 & Hw & Hc).
  apply find_parenthesis_count_while_lower in Hw.
  apply bind_ok_inv in Hc. destruct Hc as (t & c3 & _ & Hc).
  destruct (c0 >? 0); [ discriminate Hc | ].
  destruct (c0 <? 0); [ discriminate Hc | ].
  unfold ret in Hc. inversion Hc; subst. lia.
Qed.

(** A scan that returns a node has met a token of the active tier. *)
Lemma while_some_hit (tokens : list Token) (ops : list TokenType) (l r : Z) :
  forall fuel i cur node cur',
    parse_expression_recursive_while tokens fuel ops l r i cur
    = Ok (Some node, cur') ->
    exists j t, i <= j <= r /\ token_at tokens j = Some t /\
                mem (get_token_type t) ops = true.
Proof.
  induction fuel as [ | fuel IH]; intros i cur node cur' H.
  - discriminate H.
  - cbn [parse_expression_recursive_while] in H.
    destruct (i <? r) eqn:Hlt; [ | unfold ret in H; discriminate H ].
    apply Z.ltb_lt in Hlt.
    apply bind_ok_inv in H. destruct H as (t & c1 & Ht & H).
    apply bind_ok_inv in H. destruct H as (i' & c2 & Hi' & H).
    assert (Hb : i <= i' <= r).
    { destruct (is_token_type t LEFT_PAREN).
      - apply (skip_parentheses_bounds tokens i r c1 i' c2 Hlt Hi').
      - unfold ret in Hi'. inversion Hi'; subst. lia. }
    apply bind_ok_inv in H. destruct H as (nd & c3 & Hh & H).
    destruct nd as [nd | ]; cbn [truthy] in H.
    + destruct fuel as [ | fuel']; [ discriminate Hh | ].
      cbn [handle_by_operations] in Hh.
      apply bind_ok_inv in Hh. destruct Hh as (t' & c4 & Ht' & Hh).
      apply retrieve_token_ok_inv in Ht'. destruct Ht' as [Ht' ->].
      destruct (mem (get_token_type t') ops) eqn:Hm.
      * exists i', t'. split; [ exact Hb | split; [ exact Ht' | exact Hm ] ].
      * unfold ret in Hh. discriminate Hh.
    + apply IH in H. destruct H as (j & tj & Hj & Htj & Hm).
      exists j, tj. split; [ lia | split; assumption ].
Qed.

Lemma bind_ext_both {A B} (m1 m2 : M A) (k1 k2 : A -> M B) (cur : Z) :
  m1 cur = m2 cur ->
  (forall a c, m2 cur = Ok (a, c) -> k1 a c = k2 a c) ->
  bind m1 k1 cur = bind m2 k2 cur.
Proof.
  intros Hm H. unfold bind. rewrite Hm.
  destruct (m2 cur) as [[a c] | e | ]; try reflexivity.
  apply H. reflexivity.
Qed.

Lemma bind_ext_ok {A B} (m : M A) (k1 k2 : A -> M B) (cur : Z) :
  (forall a c, m cur = Ok (a, c) -> k1 a c = k2 a c) ->
  bind m k1 cur = bind m k2 cur.
Proof. intros H. apply bind_ext_both; [ reflexivity | exact H ]. Qed.

(** [_handle_by_operations] on a token outside the active tier does not look
    at the left bound. *)
Lemma handle_by_operations_left_indep (tokens : list Token) (fuel : nat)
    (ops : list TokenType) (l1 l2 r i cur : Z) :
  (forall t, token_at tokens i = Some t ->
             mem (get_token_type t) ops = false) ->
  handle_by_operations tokens fuel ops l1 r i cur
  = handle_by_operations tokens fuel ops l2 r i cur.
Proof.
  intros Habs. destruct fuel as [ | fuel]; [ reflexivity | ].
  cbn [handle_by_operations]. apply bind_ext_ok.
  intros t c Ht. cbv beta zeta.
  apply retrieve_token_ok_inv in Ht. destruct Ht as [Ht _].
  rewrite (Habs t Ht). reflexivity.
Qed.

Lemma handle_by_operations_absent_none (tokens : list Token) (fuel : nat)
    (ops : list TokenType) (l r i cur : Z) (node : option Node) (cur' : Z) :
  (forall t, token_at tokens i = Some t ->
             mem (get_token_type t) ops = false) ->
  handle_by_operations tokens fuel ops l r i cur = Ok (node, cur') ->
  node = None.
Proof.
  intros Habs H. destruct fuel as [ | fuel]; [ discriminate H | ].
  cbn [handle_by_operations] in H.
  apply bind_ok_inv in H. destruct H as (t & c & Ht & H).
  apply retrieve_token_ok_inv in Ht. destruct Ht as [Ht _].
  rewrite (Habs t Ht) in H. unfold ret in H. inversion H. reflexivity.
Qed.

(** While no token of the active tier is met, the scan does not depend on
    the left bound of the range. *)
Lemma while_left_indep (tokens : list Token) (ops : list TokenType)
    (l1 l2 r : Z) :
  forall fuel i cur,
    kinds_absent tokens ops i r ->
    parse_expression_recursive_while tokens fuel ops l1 r i cur
    = parse_expression_recursive_while tokens fuel ops l2 r i cur.
Proof.
  induction fuel as [ | fuel IH]; intros i cur Habs.
  - reflexivity.
  - cbn [parse_expression_recursive_while].
    destruct (i <? r) eqn:Hlt; [ | reflexivity ].
    apply Z.ltb_lt in Hlt.
    apply bind_ext_ok. intros t c1 Ht. cbv beta.
    apply bind_ext_ok. intros i' c2 Hi'. cbv beta.
    assert (Hb : i <= i' <= r).
    { destruct (is_token_type t LEFT_PAREN).
      - apply (skip_parentheses_bounds tokens i r c1 i' c2 Hlt Hi').
      - unfold ret in Hi'. inversion Hi'; subst. lia. }
    assert (Habs' : forall t', token_at tokens i' = Some t' ->
                               mem (get_token_type t') ops = false).
    { intros t' Ht'. apply (Habs i' t'); [ lia | exact Ht' ]. }
    apply bind_ext_both;
      [ apply (handle_by_operations_left_indep tokens fuel ops l1 l2 r i' c2
                 Habs') | ].
    intros node c3 Hh. cbv beta.
    apply (handle_by_operations_absent_none tokens fuel ops l2 r i' c2
             node c3 Habs') in Hh.
    subst node. cbn [truthy]. apply IH.
    intros j tj Hj Htj. apply (Habs j tj); [ lia | exact Htj ].
Qed.

(** Skipping a prefix of plain tokens costs one unit of fuel per token. *)
Lemma while_prefix_miss (tokens : list Token) (ops : list TokenType)
    (l r cur : Z) :
  forall (k : nat) (i : Z) (fuel : nat),
    plain_range tokens ops i (i + Z.of_nat k) ->
    i + Z.of_nat k <= r ->
    parse_expression_recursive_while tokens (k + S fuel) ops l r i cur
    = parse_expression_recursive_while tokens (S fuel) ops l r
        (i + Z.of_nat k) cur.
Proof.
  induction k as [ | k IH]; intros i fuel Hplain Hr.
  - replace (i + Z.of_nat 0) with i by lia. reflexivity.
  - destruct (Hplain i) as (t & Ht & Hp & Hm); [ lia | ].
    replace (S k + S fuel)%nat with (S (S (k + fuel))) by lia.
    rewrite (while_step_miss tokens (k + fuel) ops l r i cur t);
      [ | lia | exact Ht | exact Hp | exact Hm ].
    replace (S (k + fuel)) with (k + S fuel)%nat by lia.
    replace (i + Z.of_nat (S k)) with (i + 1 + Z.of_nat k) by lia.
    apply IH; [ | lia ].
    intros j Hj. apply Hplain. lia.
Qed.

Lemma lower_tier_kinds (tier : list TokenType) (k : TokenType) :
  In tier (firstn 3 operator_precedence) ->
  mem k binding_kinds = false -> mem k tier = false.
Proof.
  cbn [firstn operator_precedence In]. intros H Hk.
  repeat (destruct H as [H | H];
          [ subst tier; destruct k; try discriminate Hk; reflexivity | ]).
  contradiction.
Qed.

Lemma search_kinds_tier (tier : list TokenType) (k : TokenType) :
  In tier (firstn 4 operator_precedence) ->
  mem k search_kinds = false -> mem k tier = false.
Proof.
  cbn [firstn operator_precedence In]. intros H Hk.
  repeat (destruct H as [H | H];
          [ subst tier; destruct k; try discriminate Hk; reflexivity | ]).
  contradiction.
Qed.

Lemma kinds_absent_tier (tokens : list Token) (tier : list TokenType)
    (lo hi : Z) :
  In tier (firstn 3 operator_precedence) ->
  kinds_absent tokens binding_kinds lo hi ->
  kinds_absent tokens tier lo hi.
Proof.
  intros Hin Habs j t Hj Ht.
  apply (lower_tier_kinds tier _ Hin). apply (Habs j t Hj Ht).
Qed.

Lemma plain_range_tier (tokens : list Token) (tier : list TokenType)
    (lo hi : Z) :
  In tier (firstn 4 operator_precedence) ->
  plain_range tokens search_kinds lo hi ->
  plain_range tokens tier lo hi.
Proof.
  intros Hin Hplain j Hj.
  destruct (Hplain j Hj) as (t & Ht & Hp & Hm).
  exists t. split; [ exact Ht | split; [ exact Hp | ] ].
  apply (search_kinds_tier tier _ Hin Hm).
Qed.

(** A scan that returns, over tokens that hold none of the active tier,
    returns no node and the cursor it was given. *)
Lemma while_absent_none (tokens : list Token) (ops : list TokenType)
    (l r i cur : Z) (fuel : nat) (node : option Node) (cur' : Z) :
  stmt_free ops = true ->
  kinds_absent tokens ops i r ->
  parse_expression_recursive_while tokens fuel ops l r i cur
  = Ok (node, cur') ->
  node = None /\ cur' = cur.
Proof.
  intros Hfree Habs H. split.
  - destruct node as [nd | ]; [ exfalso | reflexivity ].
    apply while_some_hit in H. destruct H as (j & t & Hj & Ht & Hm).
    rewrite (Habs j t Hj Ht) in Hm. discriminate Hm.
  - destruct (frame_all tokens fuel) as (_ & _ & Hw & _).
    exact (Hw ops l r i Hfree cur node cur' H).
Qed.

Lemma lower_tier_stmt_free (tier : list TokenType) :
  In tier (firstn 3 operator_precedence) -> stmt_free tier = true.
Proof.
  cbn [firstn operator_precedence In]. intros H.
  repeat (destruct H as [H | H]; [ subst tier; reflexivity | ]).
  contradiction.
Qed.

Lemma is_nested_parens_true_inv (tokens : list Token) (l r cur cur' : Z) :
  is_nested_parens tokens l r cur = Ok (true, cur') ->
  exists lt,
    token_at tokens l = Some lt /\ is_token_type lt LEFT_PAREN = true /\
    skip_parentheses tokens l r cur = Ok (r, cur).
Proof.
  unfold is_nested_parens, within_parens. intros H.
  apply bind_ok_inv in H. destruct H as (w & c1 & Hw & H).
  apply bind_ok_inv in Hw. destruct Hw as (lt & c2 & Hlt & Hw).
  apply retrieve_token_ok_inv in Hlt. destruct Hlt as [Hlt ->].
  apply bind_ok_inv in Hw. destruct Hw as (rt & c3 & Hrt & Hw).
  apply retrieve_token_ok_inv in Hrt. destruct Hrt as [Hrt ->].
  unfold ret in Hw. inversion Hw; subst w c1. clear Hw.
  destruct (is_token_type lt LEFT_PAREN) eqn:Hlp; cbn [andb] in H.
  2:{ cbn [negb] in H. unfold ret in H. discriminate H. }
  destruct (is_token_type rt RIGHT_PAREN); cbn [negb] in H.
  2:{ unfold ret in H. discriminate H. }
  apply bind_ok_inv in H. destruct H as ([pc e] & c4 & Hc & H).
  pose proof (preserves_find_parenthesis_count tokens l r _ _ _ Hc) as E.
  unfold ret in H. injection H as Hb Hcur.
  apply andb_prop in Hb. destruct Hb as [_ He].
  apply Z.eqb_eq in He. subst e c4. rewrite E in Hc.
  exists lt. split; [ exact Hlt | split; [ exact Hlp | ] ].
  unfold skip_parentheses, bind. rewrite Hc. unfold ret.
  replace (Z.min (r + 1) r) with r by lia. reflexivity.
Qed.

(** If a range parses and holds no or/and/comparison token, the search of
    each of the three lowest tiers over it finds nothing. *)
Lemma right_part_scans (tokens : list Token) (fuel0 : nat) (a r cur : Z)
    (n : option Node) (cur' : Z) (tier : list TokenType) :
  parse_expression_recursive tokens fuel0 a r cur = Ok (n, cur') ->
  kinds_absent tokens binding_kinds a r ->
  In tier (firstn 3 operator_precedence) ->
  parse_expression_recursive_while tokens fuel0 tier a r a cur
  = Ok (None, cur).
Proof.
  intros H Habs Hin.
  pose proof (kinds_absent_tier tokens tier a r Hin Habs) as Habs_t.
  pose proof (lower_tier_stmt_free tier Hin) as Hfree.
  destruct fuel0 as [ | f]; [ discriminate H | ].
  destruct (Z_lt_ge_dec a r) as [Hlt | Hge];
    [ | apply while_empty_range; lia ].
  cbn [parse_expression_recursive] in H.
  apply bind_ok_inv in H. destruct H as (lt & c1 & Hlt' & H).
  apply retrieve_token_ok_inv in Hlt'. destruct Hlt' as [Hlt' ->].
  apply bind_ok_inv in H. destruct H as (rt & c2 & Hrt & H).
  apply retrieve_token_ok_inv in Hrt. destruct Hrt as [Hrt ->].
  replace (r - a =? 0) with false in H by (symmetry; apply Z.eqb_neq; lia).
  apply bind_ok_inv in H. destruct H as (nested & c3 & Hn & H).
  pose proof (preserves_is_nested_parens tokens a r _ _ _ Hn) as E.
  subst c3. destruct nested.
  - (* the range is one parenthesized group: the scan jumps to its end *)
    apply is_nested_parens_true_inv in Hn.
    destruct Hn as (lt' & Hlt'' & Hlp & Hskip).
    rewrite Hlt' in Hlt''. inversion Hlt''; subst lt'.
    destruct f as [ | f']; [ discriminate H | ].
    cbn [parse_expression_recursive_while].
    replace (a <? r) with true by (symmetry; apply Z.ltb_lt; exact Hlt).
    unfold bind at 1. rewrite (retrieve_token_some _ _ _ _ Hlt').
    rewrite Hlp. unfold bind at 1. rewrite Hskip.
    unfold bind at 1.
    rewrite (handle_by_operations_miss tokens f' tier a r r cur rt Hrt);
      [ | apply (Habs_t r rt); [ lia | exact Hrt ] ].
    cbn [truthy]. apply while_empty_range. lia.
  - (* the range went through the operator search itself *)
    assert (Hgo : forall g, (g <= S f)%nat ->
              forall x c, parse_expression_recursive_while tokens g tier
                            a r a cur = Ok (x, c) ->
              parse_expression_recursive_while tokens (S f) tier a r a cur
              = Ok (None, cur)).
    { intros g Hg x c Hx.
      destruct (while_absent_none tokens tier a r a cur g x c Hfree Habs_t Hx)
        as [-> ->].
      apply (M_le_done _ _ _ _
               (parse_expression_recursive_while_mono tokens g (S f)
                  tier a r a Hg));
        [ exact Hx | discriminate ]. }
    assert (Hnone : forall g tr x c, In tr (firstn 3 operator_precedence) ->
              parse_expression_recursive_while tokens g tr a r a cur
              = Ok (x, c) -> x = None /\ c = cur).
    { intros g tr x c Htr Hx.
      apply (while_absent_none tokens tr a r a cur g x c
               (lower_tier_stmt_free tr Htr)
               (kinds_absent_tier tokens tr a r Htr Habs) Hx). }
    unfold operator_precedence in H.
    destruct f as [ | f1]; [ discriminate H | ].
    cbn [parse_expression_recursive_for] in H.
    apply bind_ok_inv in H. destruct H as (x1 & c1 & H1 & H).
    pose proof H1 as H1'.
    apply (Hnone f1 [OR]) in H1'; [ | left; reflexivity ].
    destruct H1' as [-> ->]. cbn [truthy] in H.
    destruct f1 as [ | f2]; [ discriminate H | ].
    cbn [parse_expression_recursive_for] in H.
    apply bind_ok_inv in H. destruct H as (x2 & c2 & H2 & H).
    pose proof H2 as H2'.
    apply (Hnone f2 [AND]) in H2'; [ | right; left; reflexivity ].
    destruct H2' as [-> ->]. cbn [truthy] in H.
    destruct f2 as [ | f3]; [ discriminate H | ].
    cbn [parse_expression_recursive_for] in H.
    apply bind_ok_inv in H. destruct H as (x3 & c3 & H3 & H).
    cbn [firstn operator_precedence In] in Hin.
    destruct Hin as [<- | [<- | [<- | []]]].
    + apply (Hgo (S (S f3)) ltac:(lia) _ _ H1).
    + apply (Hgo (S f3) ltac:(lia) _ _ H2).
    + apply (Hgo f3 ltac:(lia) _ _ H3).
Qed.

Lemma recursive_ok_tokens (tokens : list Token) (fuel : nat) (l r cur : Z)
    (x : option Node * Z) :
  parse_expression_recursive tokens fuel l r cur = Ok x ->
  exists lt rt, token_at tokens l = Some lt /\ token_at tokens r = Some rt.
Proof.
  intros H. destruct fuel as [ | fuel]; [ discriminate H | ].
  destruct x as [n c]. cbn [parse_expression_recursive] in H.
  apply bind_ok_inv in H. destruct H as (lt & c1 & Hlt & H).
  apply retrieve_token_ok_inv in Hlt. destruct Hlt as [Hlt ->].
  apply bind_ok_inv in H. destruct H as (rt & c2 & Hrt & _).
  apply retrieve_token_ok_inv in Hrt. destruct Hrt as [Hrt _].
  exists lt, rt. split; assumption.
Qed.

(** ** The unmatched-right-parenthesis error is never raised *)

Lemma nur_ret {A} (a : A) : never_unmatched_right (ret a).
Proof. intros cur line H. discriminate H. Qed.

Lemma nur_out_of_fuel {A} : never_unmatched_right (@out_of_fuel A).
Proof. intros cur line H. discriminate H. Qed.

Lemma nur_get_current : never_unmatched_right get_current.
Proof. intros cur line H. discriminate H. Qed.

Lemma nur_set_current (i : Z) : never_unmatched_right (set_current i).
Proof. intros cur line H. discriminate H. Qed.

Lemma nur_raise_index {A} : never_unmatched_right (@raise A IndexError).
Proof. intros cur line H. discriminate H. Qed.

Lemma nur_raise_attribute {A} : never_unmatched_right (@raise A AttributeError).
Proof. intros cur line H. discriminate H. Qed.

Lemma nur_raise_syntax {A} (line : Z) (msg : string) :
  String.eqb msg unmatched_right_message = false ->
  never_unmatched_right (@raise A (SyntaxException line msg)).
Proof.
  intros Hm cur line' H. unfold raise in H. injection H as _ E.
  rewrite E in Hm. rewrite String.eqb_refl in Hm. discriminate Hm.
Qed.

Lemma nur_bind {A B} (m : M A) (k : A -> M B) :
  never_unmatched_right m -> (forall a, never_unmatched_right (k a)) ->
  never_unmatched_right (bind m k).
Proof.
  intros Hm Hk cur line H. unfold bind in H.
  destruct (m cur) as [[a c] | e | ] eqn:E.
  - exact (Hk a c line H).
  - injection H as ->. exact (Hm cur line E).
  - discriminate H.
Qed.

Lemma nur_retrieve_token (tokens : list Token) (i : Z) :
  never_unmatched_right (retrieve_token tokens i).
Proof.
  intros cur line H. unfold retrieve_token in H.
  destruct (token_at tokens i); discriminate H.
Qed.

Lemma nur_bind_retrieve {B} (tokens : list Token) (i : Z) (k : Token -> M B) :
  (forall t, token_at tokens i = Some t -> never_unmatched_right (k t)) ->
  never_unmatched_right (bind (retrieve_token tokens i) k).
Proof.
  intros Hk cur line H. unfold bind, retrieve_token in H.
  destruct (token_at tokens i) as [t | ] eqn:Ht.
  - exact (Hk t eq_refl cur line H).
  - discriminate H.
Qed.

Ltac nur_step :=
  match goal with
  | |- never_unmatched_right (ret _) => apply nur_ret
  | |- never_unmatched_right out_of_fuel => apply nur_out_of_fuel
  | |- never_unmatched_right get_current => apply nur_get_current
  | |- never_unmatched_right (set_current _) => apply nur_set_current
  | |- never_unmatched_right (raise IndexError) => apply nur_raise_index
  | |- never_unmatched_right (raise AttributeError) =>
      apply nur_raise_attribute
  | |- never_unmatched_right (raise (SyntaxException _ _)) =>
      apply nur_raise_syntax; reflexivity
  | |- never_unmatched_right (retrieve_token _ _) => apply nur_retrieve_token
  | |- never_unmatched_right (bind _ _) => apply nur_bind; [ | intros ? ]
  | |- never_unmatched_right (if ?b then _ else _) => destruct b
  | |- never_unmatched_right (match ?x with _ => _ end) => destruct x
  | |- never_unmatched_right _ => solve [ auto ]
  end.

Lemma nur_validate_token (tokens : list Token) (valid : list TokenType)
    (msg : string) :
  String.eqb msg unmatched_right_message = false ->
  never_unmatched_right (validate_token tokens valid msg).
Proof.
  intros Hm. unfold validate_token.
  pose proof (fun l => @nur_raise_syntax unit l msg Hm).
  repeat nur_step.
Qed.

Lemma nur_current_token (tokens : list Token) :
  never_unmatched_right (current_token tokens).
Proof. unfold current_token. repeat nur_step. Qed.

Lemma nur_is_eof_token (tokens : list Token) :
  never_unmatched_right (is_eof_token tokens).
Proof.
  unfold is_eof_token. pose proof (nur_current_token tokens).
  repeat nur_step.
Qed.

Lemma nur_parse_identifier_token (tokens : list Token) (i : Z) :
  never_unmatched_right (parse_identifier_token tokens i).
Proof. unfold parse_identifier_token. repeat nur_step. Qed.

Lemma nur_parse_operation (t : Token) (context : option Context) :
  never_unmatched_right (parse_operation t context).
Proof. unfold parse_operation. repeat nur_step. Qed.

Lemma nur_find_end_while (tokens : list Token) :
  forall n i, never_unmatched_right
                (find_end_of_expression_index_while tokens n i).
Proof.
  induction n as [ | n IH]; intros i;
    cbn [find_end_of_expression_index_while]; repeat nur_step.
Qed.

Lemma nur_find_end (tokens : list Token) :
  never_unmatched_right (find_end_of_expression_index tokens).
Proof.
  unfold find_end_of_expression_index.
  pose proof (nur_find_end_while tokens). repeat nur_step.
Qed.

Lemma nur_find_parenthesis_count_while (tokens : list Token) :
  forall n r c i,
    never_unmatched_right (find_parenthesis_count_while tokens n r c i).
Proof.
  induction n as [ | n IH]; intros r c i;
    cbn [find_parenthesis_count_while]; repeat nur_step.
Qed.

(** Once the counter is positive, the balance scan cannot end below zero:
    it stops as soon as the counter is back to zero. *)
Lemma balance_scan_nonneg (tokens : list Token) :
  forall n r c i cur c' e cur',
    1 <= c ->
    find_parenthesis_count_while tokens n r c i cur = Ok ((c', e), cur') ->
    0 <= c'.
Proof.
  induction n as [ | n IH]; intros r c i cur c' e cur' Hc H;
    cbn [find_parenthesis_count_while] in H;
    destruct (i <=? r).
  - discriminate H.
  - unfold ret in H. inversion H; subst. lia.
  - apply bind_ok_inv in H. destruct H as (t & c1 & _ & H).
    cbv zeta in H.
    destruct (is_token_type t LEFT_PAREN);
      destruct (is_token_type t RIGHT_PAREN);
      match type of H with
      | (if ?b then _ else _) _ = _ => destruct b eqn:Hz
      end;
      try (unfold ret in H; inversion H; subst; apply Z.eqb_eq in Hz; lia);
      try (apply IH in H; [ exact H | apply Z.eqb_neq in Hz; lia ]).
  - unfold ret in H. inversion H; subst. lia.
Qed.

(** The balance scan started on a left parenthesis. *)
Lemma balance_scan_from_left_paren (tokens : list Token) (n : nat)
    (l r cur : Z) (lt : Token) (c' e cur' : Z) :
  token_at tokens l = Some lt -> is_token_type lt LEFT_PAREN = true ->
  find_parenthesis_count_while tokens n r 0 l cur = Ok ((c', e), cur') ->
  0 <= c'.
Proof.
  intros Hlt Hlp H. destruct n as [ | n];
    cbn [find_parenthesis_count_while] in H; destruct (l <=? r).
  - discriminate H.
  - unfold ret in H. inversion H; subst. lia.
  - unfold bind at 1 in H. rewrite (retrieve_token_some _ _ _ _ Hlt) in H.
    cbv zeta in H. rewrite Hlp in H.
    assert (Hrp : is_token_type lt RIGHT_PAREN = false).
    { apply is_token_type_true in Hlp. apply is_token_type_false.
      rewrite Hlp. discriminate. }
    rewrite Hrp in H.
    replace (0 + 1 =? 0) with false in H by reflexivity.
    apply (balance_scan_nonneg tokens) in H; [ exact H | lia ].
  - unfold ret in H. inversion H; subst. lia.
Qed.

Lemma nur_find_parenthesis_count (tokens : list Token) (l r : Z) (lt : Token) :
  token_at tokens l = Some lt -> is_token_type lt LEFT_PAREN = true ->
  never_unmatched_right (find_parenthesis_count tokens l r).
Proof.
  intros Hlt Hlp cur line H. unfold find_parenthesis_count in H.
  unfold bind at 1 in H.
  destruct (find_parenthesis_count_while tokens
              (Z.to_nat (r - l + 1)) r 0 l cur)
    as [[[c e] c1] | ex | ] eqn:Hw.
  - apply (balance_scan_from_left_paren tokens _ l r cur lt c e c1 Hlt Hlp)
      in Hw.
    unfold bind, retrieve_token in H.
    destruct (token_at tokens r) as [rt | ]; [ | discriminate H ].
    unfold ret at 1 in H.
    destruct (c >? 0) eqn:Hpos.
    + unfold raise in H. injection H as _ E. discriminate E.
    + replace (c <? 0) with false in H
        by (symmetry; apply Z.ltb_ge; exact Hw).
      discriminate H.
  - injection H as ->.
    exact (nur_find_parenthesis_count_while tokens _ _ _ _ cur line Hw).
  - discriminate H.
Qed.

Lemma nur_is_nested_parens (tokens : list Token) (l r : Z) :
  never_unmatched_right (is_nested_parens tokens l r).
Proof.
  unfold is_nested_parens, within_parens.
  intros cur line H.
  unfold bind at 1 in H. unfold bind at 1 in H. unfold retrieve_token at 1 in H.
  destruct (token_at tokens l) as [lt | ] eqn:Hlt; [ | discriminate H ].
  unfold ret at 1 in H. unfold bind at 1 in H. unfold retrieve_token at 1 in H.
  destruct (token_at tokens r) as [rt | ] eqn:Hrt; [ | discriminate H ].
  unfold ret at 1 in H. unfold ret at 1 in H.
  destruct (is_token_type lt LEFT_PAREN) eqn:Hlp; cbn [andb negb] in H.
  - destruct (is_token_type rt RIGHT_PAREN); cbn [negb] in H;
      [ | discriminate H ].
    revert H. apply nur_bind.
    + apply (nur_find_parenthesis_count tokens l r lt Hlt Hlp).
    + intros [c e]. apply nur_ret.
  - discriminate H.
Qed.

Lemma nur_skip_parentheses (tokens : list Token) (l r : Z) (lt : Token) :
  token_at tokens l = Some lt -> is_token_type lt LEFT_PAREN = true ->
  never_unmatched_right (skip_parentheses tokens l r).
Proof.
  intros Hlt Hlp. unfold skip_parentheses.
  apply nur_bind.
  - apply (nur_find_parenthesis_count tokens l r lt Hlt Hlp).
  - intros [c e]. apply nur_ret.
Qed.

Lemma nur_all (tokens : list Token) :
  forall n, never_unmatched_right_at tokens n.
Proof.
  induction n as [ | n IH].
  - unfold never_unmatched_right_at; repeat split; intros;
      apply nur_out_of_fuel.
  - unfold never_unmatched_right_at in IH. decompose [and] IH; clear IH.
    pose proof (nur_current_token tokens).
    pose proof (nur_is_eof_token tokens).
    pose proof (nur_parse_identifier_token tokens).
    pose proof nur_parse_operation.
    pose proof (nur_find_end tokens).
    pose proof (nur_is_nested_parens tokens).
    assert (Hval : forall valid msg,
               String.eqb msg unmatched_right_message = false ->
               never_unmatched_right (validate_token tokens valid msg))
      by (intros; apply nur_validate_token; assumption).
    unfold never_unmatched_right_at; repeat split; intros; unfold_methods;
      try (repeat first [ apply Hval; reflexivity | nur_step ]; fail).
    (* the scan loop: the balance scan starts on a left parenthesis *)
    destruct (i <? r); [ | apply nur_ret ].
    apply nur_bind_retrieve. intros t Ht.
    apply nur_bind.
    + destruct (is_token_type t LEFT_PAREN) eqn:Hlp.
      * apply (nur_skip_parentheses tokens i r t Ht Hlp).
      * apply nur_ret.
    + intros i'. repeat nur_step.
Qed.

(** No token list, at any fuel, makes [parse] raise the
    unmatched-right-parenthesis error. *)
Lemma parse_never_unmatched_right (tokens : list Token) (fuel : nat)
    (line : Z) :
  parse tokens fuel <> Raise (SyntaxException line unmatched_right_message).
Proof.
  unfold parse.
  assert (Hw : forall n nodes,
             never_unmatched_right (parse_while tokens n nodes)).
  { induction n as [ | n IHn]; intros nodes.
    - apply nur_out_of_fuel.
    - pose proof (nur_all tokens n) as Hn.
      unfold never_unmatched_right_at in Hn. decompose [and] Hn; clear Hn.
      pose proof (nur_is_eof_token tokens).
      unfold_methods. repeat nur_step. }
  intros H.
  destruct (parse_while tokens fuel [] 0) as [[nd c] | e | ] eqn:E;
    try discriminate H.
  injection H as ->. exact (Hw fuel [] 0 line E).
Qed.

(** ** C2: unmatched parentheses *)

(** C2.  [print (1 + 2;] fails with the unmatched-left-parenthesis error at
    the line of the expression.  [print 1 + 2);] does not fail with the
    unmatched-right-parenthesis error the claim names but with "Invalid
    expression: no valid operations found.": the balance scan is only ever
    started on a left parenthesis, its counter never goes below zero, and no
    token list at all makes [parse] raise the unmatched-right error. *)
Theorem C2_unmatched_parenthesis_errors (fuel : nat) :
  (40 <= fuel)%nat ->
  parse tokens_unclosed_paren fuel
  = Raise (SyntaxException 3 "Left parenthesis missing closing right.") /\
  parse tokens_unopened_paren fuel
  = Raise (SyntaxException 3
             "Invalid expression: no valid operations found.") /\
  (forall (tokens : list Token) (fuel' : nat) (line : Z),
      parse tokens fuel'
      <> Raise (SyntaxException line
                  "Right parenthesis missing corresponding left.")).
Proof.
  intros Hf. split; [ | split ].
  - apply (parse_mono tokens_unclosed_paren 40 fuel _ Hf);
      [ vm_compute; reflexivity | discriminate ].
  - apply (parse_mono tokens_unopened_paren 40 fuel _ Hf);
      [ vm_compute; reflexivity | discriminate ].
  - exact parse_never_unmatched_right.
Qed.

Lemma C2_unmatched_parenthesis_errors_witness :
  parse tokens_unclosed_paren 40
  = Raise (SyntaxException 3 "Left parenthesis missing closing right.") /\
  parse tokens_unopened_paren 40
  = Raise (SyntaxException 3
             "Invalid expression: no valid operations found.") /\
  (forall (tokens : list Token) (fuel' : nat) (line : Z),
      parse tokens fuel'
      <> Raise (SyntaxException line
                  "Right parenthesis missing corresponding left.")).
Proof.
  apply (C2_unmatched_parenthesis_errors 40). lia.
Defined.

(** ** The theorems at concrete inputs *)

Lemma C6_var_literal_assignment_witness :
  exists lit,
    matching_literal_node (num 7 1) = Some lit /\
    handle_token tokens_var_x_7 6 None None 0
    = Ok (Some (AssignmentNode (VariableNode "x") (Some lit)), 0 + 5).
Proof.
  apply (C6_var_literal_assignment tokens_var_x_7 0
           (tk VAR 1) (ident "x" 1) (tk EQUAL 1) (num 7 1) (tk SEMI_COLON 1) 6);
    first [ reflexivity | lia ].
Defined.

Lemma C7_if_chain_shape_witness :
  parse_if_statement tokens_if_chain 34 0
  = Ok (Some (IfNode (Some (VariableNode "a"))
                (BlockNode [Some (PrintNode (Some (VariableNode "a")))])
                (Some (ElseIfNode (Some (VariableNode "b")) (BlockNode [])
                         (Some (ElseNode
                                  (Some (BlockNode
                                           [Some (PrintNode
                                                    (Some (VariableNode "c")))]))))))),
        16 + 1) /\
  parse_if_statement tokens_if_only 64 0
  = Ok (Some (IfNode
                (Some (GreaterNode (VariableNode "age")
                         (NumberLiteralNode (Some (PyNumber 21)))))
                (BlockNode
                   [Some (PrintNode
                            (Some (StringLiteralNode (Some (PyString "yes")))))])
                None),
        13).
Proof.
  split.
  - apply (proj1 (C7_if_chain_shape tokens_if_chain 30 34 0 7
                    (Some (VariableNode "a"))
                    (BlockNode [Some (PrintNode (Some (VariableNode "a")))])
                    eq_refl eq_refl ltac:(lia))
             (Some (VariableNode "b")) (BlockNode [])
             (BlockNode [Some (PrintNode (Some (VariableNode "c")))])
             11 16);
      reflexivity.
  - apply (proj2 (C7_if_chain_shape tokens_if_only 60 64 0 13
                    (Some (GreaterNode (VariableNode "age")
                             (NumberLiteralNode (Some (PyNumber 21)))))
                    (BlockNode
                       [Some (PrintNode
                                (Some (StringLiteralNode
                                         (Some (PyString "yes")))))])
                    eq_refl eq_refl ltac:(lia))
             EOF);
      [ reflexivity | discriminate | discriminate ].
Defined.

Lemma C10_empty_expression_raises_witness :
  parse_expression tokens_print_nothing 10 1
  = Raise (SyntaxException 1
             "Invalid expression: no valid operations found.").
Proof.
  apply (C10_empty_expression_raises tokens_print_nothing 1
           (tk SEMI_COLON 1) 10);
    [ lia | reflexivity | reflexivity | lia ].
Defined.

(** * Further properties of the parser *)

(** ** The operator tables *)

(** X1.  The three operator tables agree: every kind of [operation_types]
    lies in exactly one precedence tier and every other kind in none; a kind
    is an operation type exactly when the binary dispatch table has an entry
    for it or it is the unary not; and no kind is both. *)
Theorem X1_operator_tables_agree (k : TokenType) :
  List.length (filter (mem k) operator_precedence)
  = (if mem k operation_types then 1 else 0)%nat /\
  mem k operation_types = (is_binary k || mem k unary_operations) /\
  is_binary k && mem k unary_operations = false.
Proof. destruct k; repeat split; reflexivity. Qed.

(** ** Operators and punctuation where an operand is expected *)

Lemma handle_token_operator_no_context (tokens : list Token) (fuel : nat)
    (index : option Z) (i cur : Z) (t : Token) :
  (match index with Some j => j | None => cur end) = i ->
  token_at tokens i = Some t ->
  mem (get_token_type t) operation_types = true ->
  handle_token tokens (S fuel) index None cur = Raise AttributeError.
Proof.
  intros Hi Ht Hop. cbn [handle_token]. mrun.
  destruct index as [j | ]; cbv beta iota; subst i; rewrite Ht;
    cbv beta iota; unfold is_token_type, parse_operation, is_token_type;
    destruct t as [k lx lit ln]; cbn [get_token_type] in *;
    destruct k; try discriminate Hop; reflexivity.
Qed.

(** X2.  A program whose first token is an operator makes [parse] fail with
    Python's [AttributeError] (the operator branch of [_handle_token] reads
    the operands of a context that is [None]), not with a syntax error. *)
Theorem X2_operator_statement_attribute_error
    (t : Token) (rest : list Token) (fuel : nat) :
  mem (get_token_type t) operation_types = true ->
  (2 <= fuel)%nat ->
  parse (t :: rest) fuel = Raise AttributeError.
Proof.
  intros Hop Hf. destruct fuel as [ | [ | fuel]]; [ lia | lia | ].
  unfold parse. cbn [parse_while].
  unfold bind at 1. unfold get_current at 1.
  replace (in_bounds (t :: rest) 0) with true.
  2:{ unfold in_bounds, len_tokens. cbn [List.length].
      rewrite Nat2Z.inj_succ. symmetry. apply Z.ltb_lt. lia. }
  unfold bind at 1. unfold is_eof_token, current_token, get_current.
  unfold bind at 1. unfold bind at 1.
  rewrite (retrieve_token_some _ 0 0 _ (token_at_head _ _)).
  unfold ret at 1.
  replace (is_token_type t EOF) with false.
  2:{ unfold is_token_type. destruct (get_token_type t);
        try discriminate Hop; reflexivity. }
  cbn [negb]. unfold bind at 1.
  rewrite (handle_token_operator_no_context (t :: rest) fuel None 0 0 t
             eq_refl (token_at_head _ _) Hop).
  reflexivity.
Qed.

Lemma X2_operator_statement_attribute_error_witness :
  parse tokens_plus_one 2 = Raise AttributeError.
Proof.
  apply (X2_operator_statement_attribute_error (tk PLUS 1)
           [num 1 1; tk SEMI_COLON 1; tk EOF 2] 2);
    [ reflexivity | lia ].
Defined.

Lemma single_token_run (tokens : list Token) (cur : Z) (t t' : Token) :
  token_at tokens cur = Some t ->
  mem (get_token_type t) valid_expression_types = true ->
  token_at tokens (cur + 1) = Some t' ->
  mem (get_token_type t') valid_expression_types = false ->
  expression_run tokens cur (cur + 1).
Proof.
  intros Ht Hv Ht' Hv'. split; [ lia | split ].
  - intros i Hi. assert (i = cur) as -> by lia.
    exists t. split; assumption.
  - exists t'. split; assumption.
Qed.

Lemma operation_is_valid_expression (k : TokenType) :
  mem k operation_types = true -> mem k valid_expression_types = true.
Proof. destruct k; intros H; try discriminate H; reflexivity. Qed.

Lemma punctuation_is_valid_expression (k : TokenType) :
  mem k punctuation_kinds = true -> mem k valid_expression_types = true.
Proof. destruct k; intros H; try discriminate H; reflexivity. Qed.

(** X3.  An expression that consists of one operator token alone fails
    with [AttributeError], whatever the operator. *)
Theorem X3_lone_operator_expression
    (tokens : list Token) (cur : Z) (t t' : Token) (fuel : nat) :
  token_at tokens cur = Some t ->
  mem (get_token_type t) operation_types = true ->
  token_at tokens (cur + 1) = Some t' ->
  mem (get_token_type t') valid_expression_types = false ->
  (3 <= fuel)%nat ->
  parse_expression tokens fuel cur = Raise AttributeError.
Proof.
  intros Ht Hop Ht' Hv' Hf.
  destruct fuel as [ | [ | [ | fuel]]]; try lia.
  pose proof (single_token_run tokens cur t t' Ht
                (operation_is_valid_expression _ Hop) Ht' Hv') as Hrun.
  cbn [parse_expression]. unfold bind at 1.
  rewrite (find_end_run tokens cur (cur + 1) Hrun).
  unfold bind at 1. unfold get_current at 1. unfold bind at 1.
  replace (cur + 1 - 1) with cur by lia.
  cbn [parse_expression_recursive]. unfold bind at 1.
  rewrite (retrieve_token_some _ _ _ _ Ht).
  unfold bind at 1. rewrite (retrieve_token_some _ _ _ _ Ht).
  replace (cur - cur =? 0) with true by (symmetry; apply Z.eqb_eq; lia).
  rewrite (operation_is_valid_expression _ Hop). cbn [negb].
  rewrite (handle_token_operator_no_context tokens fuel (Some cur) cur cur t
             eq_refl Ht Hop).
  reflexivity.
Qed.

Lemma X3_lone_operator_expression_witness :
  parse_expression tokens_print_plus 3 1 = Raise AttributeError.
Proof.
  apply (X3_lone_operator_expression tokens_print_plus 1
           (tk PLUS 1) (tk SEMI_COLON 1) 3);
    first [ reflexivity | lia ].
Defined.

(** X4.  An expression that consists of a single parenthesis, comma or
    call marker is accepted without any error: [_parse_expression] returns
    [None] as its node and moves the cursor past that token. *)
Theorem X4_lone_punctuation_expression
    (tokens : list Token) (cur : Z) (t t' : Token) (fuel : nat) :
  token_at tokens cur = Some t ->
  mem (get_token_type t) punctuation_kinds = true ->
  token_at tokens (cur + 1) = Some t' ->
  mem (get_token_type t') valid_expression_types = false ->
  (3 <= fuel)%nat ->
  parse_expression tokens fuel cur = Ok (None, cur + 1).
Proof.
  intros Ht Hp Ht' Hv' Hf.
  destruct fuel as [ | [ | [ | fuel]]]; try lia.
  pose proof (single_token_run tokens cur t t' Ht
                (punctuation_is_valid_expression _ Hp) Ht' Hv') as Hrun.
  apply (parse_expression_run tokens _ cur (cur + 1) None Hrun).
  replace (cur + 1 - 1) with cur by lia.
  cbn [parse_expression_recursive]. unfold bind at 1.
  rewrite (retrieve_token_some _ _ _ _ Ht).
  unfold bind at 1. rewrite (retrieve_token_some _ _ _ _ Ht).
  replace (cur - cur =? 0) with true by (symmetry; apply Z.eqb_eq; lia).
  rewrite (punctuation_is_valid_expression _ Hp). cbn [negb].
  cbn [handle_token]. mrun. rewrite Ht. cbv beta iota.
  unfold is_token_type. destruct t as [k lx lit ln].
  cbn [get_token_type] in *.
  destruct k; try discriminate Hp; reflexivity.
Qed.

Lemma X4_lone_punctuation_expression_witness :
  parse_expression tokens_print_comma 3 1 = Ok (None, 1 + 1).
Proof.
  apply (X4_lone_punctuation_expression tokens_print_comma 1
           (tk COMMA 1) (tk SEMI_COLON 1) 3);
    first [ reflexivity | lia ].
Defined.

(** ** An expression that runs off the end of the token list *)

Lemma find_end_while_off_end (tokens : list Token) :
  forall n index cur,
    0 <= index ->
    (forall i t, index <= i -> token_at tokens i = Some t ->
       mem (get_token_type t) valid_expression_types = true) ->
    len_tokens tokens - index <= Z.of_nat n ->
    find_end_of_expression_index_while tokens n index cur = Raise IndexError.
Proof.
  induction n as [ | n IH]; intros index cur Hi Hall Hn;
    cbn [find_end_of_expression_index_while];
    unfold bind, retrieve_token;
    destruct (token_at tokens index) as [t | ] eqn:Ht;
    try reflexivity.
  - apply token_at_bounds in Ht. lia.
  - unfold ret at 1. rewrite (Hall index t ltac:(lia) Ht).
    apply IH; [ lia | | lia ].
    intros i t' Hi' Ht'. apply (Hall i t'); [ lia | exact Ht' ].
Qed.

(** X5.  When every token from the cursor to the end of the list is
    expression-legal (no semicolon, brace or end-of-file token follows),
    bound finding reads past the last token and [_parse_expression] fails
    with Python's [IndexError], not with a syntax error. *)
Theorem X5_expression_off_the_end
    (tokens : list Token) (cur : Z) (fuel : nat) :
  0 <= cur ->
  (forall i t, cur <= i -> token_at tokens i = Some t ->
     mem (get_token_type t) valid_expression_types = true) ->
  (1 <= fuel)%nat ->
  parse_expression tokens fuel cur = Raise IndexError.
Proof.
  intros Hc Hall Hf. destruct fuel as [ | fuel]; [ lia | ].
  cbn [parse_expression]. unfold bind at 1.
  unfold find_end_of_expression_index. unfold bind at 1.
  unfold get_current at 1.
  rewrite (find_end_while_off_end tokens _ cur cur Hc Hall); [ reflexivity | ].
  lia.
Qed.

Lemma X5_expression_off_the_end_witness :
  parse_expression tokens_no_terminator 1 1 = Raise IndexError.
Proof.
  apply (X5_expression_off_the_end tokens_no_terminator 1 1).
  - lia.
  - intros i t Hi Ht.
    pose proof (token_at_bounds _ _ _ Ht) as Hb.
    change (len_tokens tokens_no_terminator) with 4 in Hb.
    assert (Hc : i = 1 \/ i = 2 \/ i = 3) by lia.
    destruct Hc as [-> | [-> | ->]];
      vm_compute in Ht; injection Ht as <-; reflexivity.
  - lia.
Defined.

(** ** What the operator search finds *)

Lemma tier_in_operation_types (tier : list TokenType) (k : TokenType) :
  In tier operator_precedence ->
  mem k operation_types = false -> mem k tier = false.
Proof.
  unfold operator_precedence. cbn [In]. intros H Hk.
  repeat (destruct H as [H | H];
          [ subst tier; destruct k; try discriminate Hk; reflexivity | ]).
  contradiction.
Qed.

Lemma mem_app_false (k : TokenType) (s1 s2 : list TokenType) :
  mem k (s1 ++ s2) = false -> mem k s1 = false /\ mem k s2 = false.
Proof.
  unfold mem. rewrite existsb_app. apply orb_false_elim.
Qed.

Lemma mem_concat_false (k : TokenType) (p : list (list TokenType))
    (ops : list TokenType) :
  mem k (List.concat p) = false -> In ops p -> mem k ops = false.
Proof.
  induction p as [ | o p IH]; intros Hm Hin; [ contradiction | ].
  cbn [List.concat] in Hm. apply mem_app_false in Hm. destruct Hm as [Ho Hp].
  destruct Hin as [<- | Hin]; [ exact Ho | apply IH; assumption ].
Qed.

(** When no tier finds anything the for loop ends in the final [raise]. *)
Lemma for_all_miss (tokens : list Token) (l r cur : Z) (lt : Token) (w : nat) :
  token_at tokens l = Some lt ->
  forall p fuel,
    (forall ops f, In ops p -> (w <= f)%nat ->
        parse_expression_recursive_while tokens f ops l r l cur
        = Ok (None, cur)) ->
    (w + List.length p + 1 <= fuel)%nat ->
    parse_expression_recursive_for tokens fuel p l r cur
    = Raise (SyntaxException (get_line lt)
               "Invalid expression: no valid operations found.").
Proof.
  intros Hlt. induction p as [ | ops p IH]; intros fuel Hmiss Hf.
  - destruct fuel as [ | fuel]; [ lia | ].
    cbn [parse_expression_recursive_for]. unfold bind.
    rewrite (retrieve_token_some _ _ _ _ Hlt). reflexivity.
  - destruct fuel as [ | fuel]; [ lia | ].
    cbn [List.length] in Hf.
    rewrite for_skip.
    + apply IH; [ | lia ].
      intros ops' f Hin Hw. apply Hmiss; [ right; exact Hin | exact Hw ].
    + apply Hmiss; [ left; reflexivity | lia ].
Qed.

(** X6.  A range of two or more tokens in which no token but possibly the
    last is an operator or a left parenthesis (two operands side by side, or
    an operand followed by a trailing operator) fails with "Invalid
    expression: no valid operations found." at the line of its first token:
    the last token of a range is never tested as an operator. *)
Theorem X6_no_operator_in_range
    (tokens : list Token) (l r cur : Z) (lt rt : Token) (fuel : nat) :
  l < r ->
  token_at tokens l = Some lt ->
  token_at tokens r = Some rt ->
  plain_range tokens operation_types l r ->
  (Z.to_nat (r - l) + 12 <= fuel)%nat ->
  parse_expression_recursive tokens fuel l r cur
  = Raise (SyntaxException (get_line lt)
             "Invalid expression: no valid operations found.").
Proof.
  intros Hlr Hlt Hrt Hplain Hf.
  destruct (Hplain l) as (lt' & Hlt' & Hlp & _); [ lia | ].
  rewrite Hlt in Hlt'. injection Hlt' as <-.
  destruct fuel as [ | fuel]; [ lia | ].
  rewrite (recursive_to_for tokens fuel l r cur lt rt Hlt Hrt);
    [ | lia | exact Hlp ].
  apply (for_all_miss tokens l r cur lt (Z.to_nat (r - l) + 2) Hlt).
  - intros ops f Hin Hw.
    apply (while_no_hit tokens ops l r cur (Z.to_nat (r - l)) l f);
      [ lia | lia | ].
    intros j Hj. destruct (Hplain j Hj) as (t & Ht & Hp & Hm).
    exists t. split; [ exact Ht | split; [ exact Hp | ] ].
    apply (tier_in_operation_types ops _ Hin Hm).
  - change (List.length operator_precedence) with 7%nat. lia.
Qed.

Lemma X6_no_operator_in_range_witness :
  parse_expression_recursive tokens_a_b 13 1 2 1
  = Raise (SyntaxException 1
             "Invalid expression: no valid operations found.").
Proof.
  apply (X6_no_operator_in_range tokens_a_b 1 2 1 (ident "a" 1)
           (ident "b" 1) 13).
  - lia.
  - reflexivity.
  - reflexivity.
  - intros j Hj. assert (j = 1) as -> by lia.
    exists (ident "a" 1). repeat split; reflexivity.
  - vm_compute. lia.
Defined.

(** X7.  In a range [l, r] whose tokens before the last hold no left
    parenthesis and no operator of a tier tried before the tier of the
    binary operator at [i], and whose tokens left of [i] hold no operator of
    that tier either, the operator at [i] is the root: the range parses to
    its node over the parse of the tokens left of it and the parse of the
    tokens right of it. *)
Theorem X7_root_is_leftmost_operator_of_lowest_tier
    (tokens : list Token) (l i r cur : Z) (top : Token)
    (mk : Node -> Node -> Node)
    (before : list (list TokenType)) (tier : list TokenType)
    (after : list (list TokenType)) (a b : Node) (fuel0 fuel : nat) :
  l < i -> i < r ->
  token_at tokens i = Some top ->
  binary_operation_map (get_token_type top) = Some mk ->
  split_at_tier (get_token_type top) operator_precedence
  = Some (before, tier, after) ->
  plain_range tokens (List.concat before) l r ->
  plain_range tokens tier l i ->
  parse_expression_recursive tokens fuel0 l (i - 1) cur = Ok (Some a, cur) ->
  parse_expression_recursive tokens fuel0 (i + 1) r cur = Ok (Some b, cur) ->
  (fuel0 + Z.to_nat (r - l) + 14 <= fuel)%nat ->
  parse_expression_recursive tokens fuel l r cur = Ok (Some (mk a b), cur).
Proof.
  intros Hli Hir Htop Hmk Hsplit Hlow Htier Hleft Hright Hf.
  apply split_at_tier_spec in Hsplit.
  destruct Hsplit as (Hprec & Hin_tier & _).
  assert (Hlen : (List.length before <= 6)%nat).
  { assert (E : List.length operator_precedence = 7%nat) by reflexivity.
    rewrite Hprec in E. rewrite length_app in E. cbn [List.length] in E.
    lia. }
  destruct (recursive_ok_tokens _ _ _ _ _ _ Hright) as (_ & rt & _ & Hrt).
  destruct (Htier l) as (lt & Hlt & Hlp & _); [ lia | ].
  assert (Hfuel0 : (1 <= fuel0)%nat).
  { destruct fuel0; [ discriminate Hright | lia ]. }
  set (d := Z.to_nat (r - l)) in *.
  destruct fuel as [ | fuel]; [ lia | ].
  rewrite (recursive_to_for tokens fuel l r cur lt rt Hlt Hrt);
    [ | lia | exact Hlp ].
  rewrite Hprec.
  apply (for_search tokens l r cur (mk a b) (fuel0 + d + 5)).
  - intros ops f Hin Hw.
    apply (while_no_hit tokens ops l r cur d l f); [ lia | lia | ].
    intros j Hj. destruct (Hlow j Hj) as (t & Ht & Hp & Hm).
    exists t. split; [ exact Ht | split; [ exact Hp | ] ].
    apply (mem_concat_false _ before ops Hm Hin).
  - intros f Hw.
    set (di := Z.to_nat (i - l)).
    replace f with (di + S (f - di - 1))%nat by lia.
    rewrite while_prefix_miss;
      [ | replace (l + Z.of_nat di) with i by lia; exact Htier | lia ].
    replace (l + Z.of_nat di) with i by lia.
    apply (while_step_hit tokens _ tier l r i cur top);
      [ exact Hir | exact Htop | apply (binary_not_left_paren top mk Hmk) | ].
    replace (f - di - 1)%nat with (S (S (S (f - di - 4)))) by lia.
    rewrite (handle_by_operations_binary tokens _ tier l r i cur top mk Htop
               Hin_tier Hmk).
    apply (handle_binary_operation_run tokens _ l i r cur top mk a b Htop Hmk).
    + apply (M_le_done _ _ _ _
               (parse_expression_recursive_mono tokens fuel0
                  (S (f - di - 4)) l (i - 1) ltac:(lia)));
        [ exact Hleft | discriminate ].
    + apply (M_le_done _ _ _ _
               (parse_expression_recursive_mono tokens fuel0
                  (S (f - di - 4)) (i + 1) r ltac:(lia)));
        [ exact Hright | discriminate ].
  - lia.
Qed.

Lemma X7_root_is_leftmost_operator_of_lowest_tier_witness :
  parse_expression_recursive tokens_sum_of_products 70 1 7 1
  = Ok (Some (AdditionNode
                (MultiplicationNode (VariableNode "a") (VariableNode "b"))
                (MultiplicationNode (VariableNode "c") (VariableNode "d"))),
        1).
Proof.
  apply (X7_root_is_leftmost_operator_of_lowest_tier tokens_sum_of_products
           1 4 7 1 (tk PLUS 1) AdditionNode
           [[OR]; [AND];
            [EQUAL_EQUAL; GREATER; GREATER_EQUAL; LESS_EQUAL; LESS;
             BANG_EQUAL]; [BANG]]
           [MINUS; PLUS] [[MULTIPLY; DIVIDE; MODULUS]; [EXPONENT]]
           (MultiplicationNode (VariableNode "a") (VariableNode "b"))
           (MultiplicationNode (VariableNode "c") (VariableNode "d")) 50 70).
  - lia.
  - lia.
  - reflexivity.
  - reflexivity.
  - reflexivity.
  - intros j Hj.
    assert (Hc : j = 1 \/ j = 2 \/ j = 3 \/ j = 4 \/ j = 5 \/ j = 6) by lia.
    destruct Hc as [-> | [-> | [-> | [-> | [-> | ->]]]]];
      eexists; repeat split; reflexivity.
  - intros j Hj.
    assert (Hc : j = 1 \/ j = 2 \/ j = 3) by lia.
    destruct Hc as [-> | [-> | ->]]; eexists; repeat split; reflexivity.
  - reflexivity.
  - reflexivity.
  - vm_compute. lia.
Defined.

(** The search stops at a not token when nothing of the three lower tiers
    is in its way. *)
Lemma not_root (tokens : list Token) (l i r cur : Z) (tb : Token) (n : Node)
    (fuel0 fuel : nat) :
  l <= i -> i < r ->
  token_at tokens i = Some tb -> get_token_type tb = BANG ->
  plain_range tokens search_kinds l i ->
  kinds_absent tokens binding_kinds (i + 1) r ->
  parse_expression_recursive tokens fuel0 (i + 1) r cur = Ok (Some n, cur) ->
  (fuel0 + Z.to_nat (i - l) + 12 <= fuel)%nat ->
  parse_expression_recursive tokens fuel l r cur = Ok (Some (NotNode n), cur).
Proof.
  intros Hli Hir Htb Hkb Hplain Habs Hright Hf.
  destruct (recursive_ok_tokens _ _ _ _ _ _ Hright) as (_ & rt & _ & Hrt).
  assert (Hbp : is_token_type tb LEFT_PAREN = false).
  { unfold is_token_type. rewrite Hkb. reflexivity. }
  assert (Hl : exists lt, token_at tokens l = Some lt /\
                          is_token_type lt LEFT_PAREN = false).
  { destruct (Z.eq_dec l i) as [-> | Hne].
    - exists tb. split; assumption.
    - destruct (Hplain l) as (lt & Hlt & Hlp & _); [ lia | ].
      exists lt. split; assumption. }
  destruct Hl as (lt & Hlt & Hlp).
  set (d := Z.to_nat (i - l)) in *.
  assert (Hd : Z.of_nat d = i - l) by (subst d; lia).
  assert (Hfuel0 : (1 <= fuel0)%nat).
  { destruct fuel0; [ discriminate Hright | lia ]. }
  assert (Hlow : forall tier fw,
             In tier (firstn 3 operator_precedence) ->
             (fuel0 + d + 2 <= fw)%nat ->
             parse_expression_recursive_while tokens fw tier l r l cur
             = Ok (None, cur)).
  { intros tier fw Hin Hfw.
    replace fw with (S d + S (fw - d - 2))%nat by lia.
    rewrite while_prefix_miss.
    - replace (l + Z.of_nat (S d)) with (i + 1) by lia.
      rewrite (while_left_indep tokens tier l (i + 1) r);
        [ | apply (kinds_absent_tier tokens tier _ _ Hin Habs) ].
      apply (M_le_done _ _ _ _
               (parse_expression_recursive_while_mono tokens fuel0
                  (S (fw - d - 2)) tier (i + 1) r (i + 1) ltac:(lia)));
        [ | discriminate ].
      apply (right_part_scans tokens fuel0 (i + 1) r cur (Some n) cur tier
               Hright Habs Hin).
    - intros j Hj.
      destruct (Z.eq_dec j i) as [-> | Hne].
      + exists tb. split; [ exact Htb | split; [ exact Hbp | ] ].
        rewrite Hkb. apply (lower_tier_kinds tier BANG Hin). reflexivity.
      + assert (Hin4 : In tier (firstn 4 operator_precedence)).
        { cbn [firstn operator_precedence In] in *. tauto. }
        apply (plain_range_tier tokens tier l i Hin4 Hplain). lia.
    - lia. }
  assert (Hbang : forall fw,
             (fuel0 + d + 5 <= fw)%nat ->
             parse_expression_recursive_while tokens fw [BANG] l r l cur
             = Ok (Some (NotNode n), cur)).
  { intros fw Hfw.
    replace fw with (d + S (fw - d - 1))%nat by lia.
    rewrite while_prefix_miss.
    - replace (l + Z.of_nat d) with i by lia.
      apply (while_step_hit tokens _ [BANG] l r i cur tb);
        [ exact Hir | exact Htb | exact Hbp | ].
      replace (fw - d - 1)%nat with (S (S (S (fw - d - 4)))) by lia.
      rewrite (handle_by_operations_unary tokens _ [BANG] l r i cur tb Htb);
        [ | rewrite Hkb; reflexivity | exact Hkb ].
      apply (handle_unary_operation_run tokens _ i r cur tb n Htb Hkb).
      apply (M_le_done _ _ _ _
               (parse_expression_recursive_mono tokens fuel0
                  (S (fw - d - 4)) (i + 1) r ltac:(lia)));
        [ exact Hright | discriminate ].
    - replace (l + Z.of_nat d) with i by lia.
      apply (plain_range_tier tokens [BANG] l i); [ | exact Hplain ].
      cbn [firstn operator_precedence In]. tauto.
    - lia. }
  destruct fuel as [ | f]; [ lia | ].
  rewrite (recursive_to_for tokens f l r cur lt rt Hlt Hrt);
    [ | lia | exact Hlp ].
  unfold operator_precedence.
  destruct f as [ | f1]; [ lia | ].
  rewrite for_skip;
    [ | apply Hlow; [ cbn [firstn operator_precedence In]; tauto | lia ] ].
  destruct f1 as [ | f2]; [ lia | ].
  rewrite for_skip;
    [ | apply Hlow; [ cbn [firstn operator_precedence In]; tauto | lia ] ].
  destruct f2 as [ | f3]; [ lia | ].
  rewrite for_skip;
    [ | apply Hlow; [ cbn [firstn operator_precedence In]; tauto | lia ] ].
  destruct f3 as [ | f4]; [ lia | ].
  apply for_hit. apply Hbang. lia.
Qed.

(** X8.  A range that starts with a not token and holds no or/and/comparison
    operator after it parses to Not(n), where [n] is the parse of the
    tokens after the not token: unary not binds looser than arithmetic, so
    [not a + b] is Not(a + b). *)
Theorem X8_leading_not
    (tokens : list Token) (l r cur : Z) (tb : Token) (n : Node)
    (fuel0 fuel : nat) :
  l < r ->
  token_at tokens l = Some tb -> get_token_type tb = BANG ->
  kinds_absent tokens binding_kinds (l + 1) r ->
  parse_expression_recursive tokens fuel0 (l + 1) r cur = Ok (Some n, cur) ->
  (fuel0 + 12 <= fuel)%nat ->
  parse_expression_recursive tokens fuel l r cur = Ok (Some (NotNode n), cur).
Proof.
  intros Hlr Htb Hkb Habs Hright Hf.
  apply (not_root tokens l l r cur tb n fuel0 fuel);
    try assumption; try lia.
  intros j Hj. lia.
Qed.

Lemma X8_leading_not_witness :
  parse_expression_recursive tokens_not_isLess 14 1 2 1
  = Ok (Some (NotNode (VariableNode "isLess")), 1).
Proof.
  apply (X8_leading_not tokens_not_isLess 1 2 1 (tk BANG 3)
           (VariableNode "isLess") 2 14).
  - lia.
  - reflexivity.
  - reflexivity.
  - intros j t Hj Ht. assert (j = 2) as -> by lia.
    vm_compute in Ht. injection Ht as <-. reflexivity.
  - reflexivity.
  - lia.
Defined.

(** ** Print and assignment statements *)

(** X9.  A print statement composes as its grammar says: with the cursor
    on a print token, an expression run after it that parses to [node] and
    a semicolon right after the run, [_parse_print_token] returns
    Print(node) and leaves the cursor past the semicolon. *)
Theorem X9_print_statement
    (tokens : list Token) (cur e : Z) (node : option Node)
    (fuel0 fuel : nat) :
  kind_at tokens cur = Some PRINT ->
  expression_run tokens (cur + 1) e ->
  parse_expression_recursive tokens fuel0 (cur + 1) (e - 1) (cur + 1)
  = Ok (node, cur + 1) ->
  kind_at tokens e = Some SEMI_COLON ->
  (fuel0 + 2 <= fuel)%nat ->
  parse_print_token tokens fuel cur = Ok (Some (PrintNode node), e + 1).
Proof.
  intros Hp Hrun Hrec Hs Hf.
  destruct fuel as [ | [ | f]]; [ lia | lia | ].
  cbn [parse_print_token].
  unfold bind at 1. rewrite (validate_kind_ok tokens PRINT _ cur Hp).
  unfold bind at 1.
  rewrite (parse_expression_run tokens f (cur + 1) e node Hrun).
  - unfold bind at 1. rewrite (validate_kind_ok tokens SEMI_COLON _ e Hs).
    reflexivity.
  - apply (M_le_done _ _ _ _
             (parse_expression_recursive_mono tokens fuel0 f (cur + 1) (e - 1)
                ltac:(lia)));
      [ exact Hrec | discriminate ].
Qed.

Lemma X9_print_statement_witness :
  parse_print_token tokens_print_a 4 0
  = Ok (Some (PrintNode (Some (VariableNode "a"))), 2 + 1).
Proof.
  apply (X9_print_statement tokens_print_a 0 2 (Some (VariableNode "a")) 2 4).
  - reflexivity.
  - split; [ lia | split ].
    + intros i Hi. assert (i = 1) as -> by lia.
      exists (ident "a" 1). split; reflexivity.
    + exists (tk SEMI_COLON 1). split; reflexivity.
  - reflexivity.
  - reflexivity.
  - lia.
Defined.

(** X10.  An assignment whose expression is not followed by a semicolon
    fails with "Expected ';' to terminate the statement." at the line of the
    token that stands where the semicolon should be; nothing after it is
    consumed. *)
Theorem X10_assignment_missing_terminator
    (tokens : list Token) (cur e : Z) (node : option Node) (te : Token)
    (fuel0 fuel : nat) :
  kind_at tokens cur = Some VAR ->
  kind_at tokens (cur + 1) = Some IDENTIFIER ->
  kind_at tokens (cur + 2) = Some EQUAL ->
  expression_run tokens (cur + 3) e ->
  parse_expression_recursive tokens fuel0 (cur + 3) (e - 1) (cur + 3)
  = Ok (node, cur + 3) ->
  token_at tokens e = Some te ->
  get_token_type te <> SEMI_COLON ->
  (fuel0 + 2 <= fuel)%nat ->
  parse_var_token tokens fuel cur
  = Raise (SyntaxException (get_line te)
             "Expected ';' to terminate the statement.").
Proof.
  intros Hv Hi He Hrun Hrec Hte Hns Hf.
  destruct fuel as [ | [ | f]]; [ lia | lia | ].
  destruct (kind_at_inv tokens (cur + 1) IDENTIFIER Hi) as (ti & Hti & _).
  cbn [parse_var_token].
  unfold bind at 1. rewrite (validate_kind_ok tokens VAR _ cur Hv).
  unfold bind at 1. unfold get_current at 1.
  unfold bind at 1. unfold parse_identifier_token at 1. unfold bind at 1.
  rewrite (retrieve_token_some _ _ _ _ Hti). unfold ret at 1.
  unfold bind at 1.
  rewrite (validate_kind_ok tokens IDENTIFIER _ (cur + 1) Hi).
  unfold bind at 1.
  replace (cur + 1 + 1) with (cur + 2) by lia.
  rewrite (validate_kind_ok tokens EQUAL _ (cur + 2) He).
  unfold bind at 1.
  replace (cur + 2 + 1) with (cur + 3) by lia.
  rewrite (parse_expression_run tokens f (cur + 3) e node Hrun).
  - unfold bind at 1.
    rewrite (validate_token_fail tokens [SEMI_COLON] _ e te Hte);
      [ reflexivity | ].
    unfold mem. cbn [existsb]. unfold TokenType_eqb.
    destruct (TokenType_eq_dec (get_token_type te) SEMI_COLON);
      [ contradiction | reflexivity ].
  - apply (M_le_done _ _ _ _
             (parse_expression_recursive_mono tokens fuel0 f (cur + 3) (e - 1)
                ltac:(lia)));
      [ exact Hrec | discriminate ].
Qed.

Lemma X10_assignment_missing_terminator_witness :
  parse_var_token tokens_var_no_semicolon 4 0
  = Raise (SyntaxException 2 "Expected ';' to terminate the statement.").
Proof.
  apply (X10_assignment_missing_terminator tokens_var_no_semicolon 0 4
           (Some (NumberLiteralNode (Some (PyNumber 5)))) (tk EOF 2) 2 4).
  - reflexivity.
  - reflexivity.
  - reflexivity.
  - split; [ lia | split ].
    + intros i Hi. assert (i = 3) as -> by lia.
      exists (num 5 1). split; reflexivity.
    + exists (tk EOF 2). split; reflexivity.
  - reflexivity.
  - reflexivity.
  - discriminate.
  - lia.
Defined.

(** ** Where blocks and programs end *)

Lemma parse_block_while_post (tokens : list Token) :
  forall fuel nodes cur b cur',
    parse_block_while tokens fuel nodes cur = Ok (b, cur') ->
    (exists more, b = BlockNode (nodes ++ more)) /\
    kind_at tokens cur' = Some RIGHT_BRACE.
Proof.
  induction fuel as [ | fuel IH]; intros nodes cur b cur' H.
  - discriminate H.
  - cbn [parse_block_while] in H.
    apply bind_ok_inv in H. destruct H as (t & c & Ht & H).
    apply current_token_ok_inv in Ht. destruct Ht as [Ht ->].
    destruct (is_token_type t RIGHT_BRACE) eqn:Hrb; cbn [negb] in H.
    + unfold ret in H. injection H as <- <-. split.
      * exists []. rewrite app_nil_r. reflexivity.
      * unfold kind_at. rewrite Ht. cbn [option_map].
        apply is_token_type_true in Hrb. rewrite Hrb. reflexivity.
    + apply bind_ok_inv in H. destruct H as (eof & c1 & He & H).
      destruct eof.
      * apply bind_ok_inv in H. destruct H as (t2 & c2 & _ & H).
        discriminate H.
      * apply bind_ok_inv in H. destruct H as (n & c2 & _ & H).
        apply IH in H. destruct H as ((more & ->) & Hk).
        split; [ | exact Hk ].
        exists (n :: more). rewrite <- app_assoc. reflexivity.
Qed.

(** X11.  Whenever [_parse_block] returns, what it returns is a Block node
    and the cursor stands on a closing brace: a block is never closed by
    anything else, and the brace itself is left for the caller. *)
Theorem X11_block_ends_on_closing_brace
    (tokens : list Token) (fuel : nat) (cur : Z) (b : Node) (cur' : Z) :
  parse_block tokens fuel cur = Ok (b, cur') ->
  (exists stmts, b = BlockNode stmts) /\
  kind_at tokens cur' = Some RIGHT_BRACE.
Proof.
  intros H. destruct fuel as [ | fuel]; [ discriminate H | ].
  cbn [parse_block] in H. apply parse_block_while_post in H.
  destruct H as ((more & ->) & Hk). split; [ | exact Hk ].
  exists more. reflexivity.
Qed.

Lemma X11_block_ends_on_closing_brace_witness :
  (exists stmts,
      BlockNode [Some (PrintNode (Some (VariableNode "a")))]
      = BlockNode stmts) /\
  kind_at tokens_block_body 3 = Some RIGHT_BRACE.
Proof.
  apply (X11_block_ends_on_closing_brace tokens_block_body 10 0
           (BlockNode [Some (PrintNode (Some (VariableNode "a")))]) 3).
  reflexivity.
Defined.

Lemma parse_while_post (tokens : list Token) :
  forall fuel nodes cur b cur',
    parse_while tokens fuel nodes cur = Ok (b, cur') ->
    (exists more, b = BlockNode (nodes ++ more)) /\
    (len_tokens tokens <= cur' \/ kind_at tokens cur' = Some EOF).
Proof.
  induction fuel as [ | fuel IH]; intros nodes cur b cur' H.
  - discriminate H.
  - cbn [parse_while] in H.
    apply bind_ok_inv in H. destruct H as (c0 & c & Hg & H).
    unfold get_current in Hg. injection Hg as <- <-.
    destruct (in_bounds tokens cur) eqn:Hin.
    + apply bind_ok_inv in H. destruct H as (eof & c1 & He & H).
      unfold is_eof_token in He.
      apply bind_ok_inv in He. destruct He as (t & c2 & Ht & He).
      apply current_token_ok_inv in Ht. destruct Ht as [Ht ->].
      unfold ret in He. injection He as <- <-.
      destruct (is_token_type t EOF) eqn:Heof; cbn [negb] in H.
      * unfold ret in H. injection H as <- <-. split.
        -- exists []. rewrite app_nil_r. reflexivity.
        -- right. unfold kind_at. rewrite Ht. cbn [option_map].
           apply is_token_type_true in Heof. rewrite Heof. reflexivity.
      * apply bind_ok_inv in H. destruct H as (n & c3 & _ & H).
        apply IH in H. destruct H as ((more & ->) & Hk).
        split; [ | exact Hk ].
        exists (n :: more). rewrite <- app_assoc. reflexivity.
    + unfold ret in H. injection H as <- <-. split.
      * exists []. rewrite app_nil_r. reflexivity.
      * left. unfold in_bounds in Hin. apply Z.ltb_ge in Hin. exact Hin.
Qed.

(** X12.  Whenever [parse] returns, it returns a Block node and its loop
    has stopped on the end-of-file token or past the last token: it never
    returns a tree for a proper prefix of the program. *)
Theorem X12_parse_stops_at_end_of_file
    (tokens : list Token) (fuel : nat) (b : Node) :
  parse tokens fuel = Ok b ->
  exists stmts cur',
    b = BlockNode stmts /\
    parse_while tokens fuel [] 0 = Ok (b, cur') /\
    (len_tokens tokens <= cur' \/ kind_at tokens cur' = Some EOF).
Proof.
  unfold parse. intros H.
  destruct (parse_while tokens fuel [] 0) as [[b' c] | e | ] eqn:E;
    try discriminate H.
  injection H as <-.
  destruct (parse_while_post tokens fuel [] 0 b' c E) as ((more & ->) & Hk).
  exists more, c. split; [ reflexivity | split; [ reflexivity | exact Hk ] ].
Qed.

Lemma X12_parse_stops_at_end_of_file_witness :
  exists stmts cur',
    BlockNode [Some (PrintNode (Some (VariableNode "a")))] = BlockNode stmts /\
    parse_while tokens_print_a 10 [] 0
    = Ok (BlockNode [Some (PrintNode (Some (VariableNode "a")))], cur') /\
    (len_tokens tokens_print_a <= cur' \/
     kind_at tokens_print_a cur' = Some EOF).
Proof.
  apply (X12_parse_stops_at_end_of_file tokens_print_a 10
           (BlockNode [Some (PrintNode (Some (VariableNode "a")))])).
  reflexivity.
Defined.

(** ** The cursor only moves forward *)

Lemma advances_weaken {A} (d d' : Z) (m : M A) :
  d' <= d -> advances d m -> advances d' m.
Proof. intros Hd H cur a cur' E. apply H in E. lia. Qed.

Lemma advances_ret {A} (a : A) : advances 0 (ret a).
Proof. intros cur a' cur' H. injection H as _ <-. lia. Qed.

Lemma advances_raise {A} (d : Z) (e : Exn) : advances d (@raise A e).
Proof. intros cur a cur' H. discriminate H. Qed.

Lemma advances_out_of_fuel {A} (d : Z) : advances d (@out_of_fuel A).
Proof. intros cur a cur' H. discriminate H. Qed.

Lemma advances_preserves {A} (m : M A) :
  preserves_cursor m -> advances 0 m.
Proof. intros H cur a cur' E. apply H in E. lia. Qed.

Lemma advances_bind {A B} (d1 d2 : Z) (m : M A) (k : A -> M B) :
  advances d1 m -> (forall a, advances d2 (k a)) ->
  advances (d1 + d2) (bind m k).
Proof.
  intros Hm Hk cur b cur' H.
  apply bind_ok_inv in H. destruct H as (a & c & H1 & H2).
  apply Hm in H1. apply (Hk a) in H2. lia.
Qed.

Lemma advances_bind0 {A B} (m : M A) (k : A -> M B) :
  advances 0 m -> (forall a, advances 0 (k a)) -> advances 0 (bind m k).
Proof. intros Hm Hk. apply (advances_bind 0 0); assumption. Qed.

Lemma advances_validate_token (tokens : list Token)
    (valid : list TokenType) (msg : string) :
  advances 1 (validate_token tokens valid msg).
Proof.
  intros cur u cur' H. apply validate_token_ok_inv in H.
  destruct H as [-> _]. lia.
Qed.

Lemma advances_current_token (tokens : list Token) :
  advances 0 (current_token tokens).
Proof.
  intros cur t cur' H. apply current_token_ok_inv in H.
  destruct H as [_ ->]. lia.
Qed.

Lemma advances_is_eof_token (tokens : list Token) :
  advances 0 (is_eof_token tokens).
Proof.
  unfold is_eof_token. apply advances_bind0.
  - apply advances_current_token.
  - intros t. apply advances_ret.
Qed.

(** [_parse_expression] ends at the bound found from the cursor, which is
    never before the cursor. *)
Lemma advances_parse_expression (tokens : list Token) (fuel : nat) :
  advances 0 (parse_expression tokens fuel).
Proof.
  intros cur node cur' H.
  destruct fuel as [ | fuel]; [ discriminate H | ].
  cbn [parse_expression] in H.
  apply bind_ok_inv in H. destruct H as (e & c1 & He & H).
  unfold find_end_of_expression_index in He.
  apply bind_ok_inv in He. destruct He as (c0 & c2 & Hg & He).
  unfold get_current in Hg. injection Hg as <- <-.
  apply find_end_while_spec in He. destruct He as (-> & Hle & _).
  apply bind_ok_inv in H. destruct H as (c3 & c4 & Hg & H).
  apply bind_ok_inv in H. destruct H as (n & c5 & _ & H).
  apply bind_ok_inv in H. destruct H as (u & c6 & Hs & H).
  unfold set_current in Hs. injection Hs as _ <-.
  unfold ret in H. injection H as _ <-. lia.
Qed.

Ltac adv_step :=
  match goal with
  | |- advances 0 (ret _) => apply advances_ret
  | |- advances _ (raise _) => apply advances_raise
  | |- advances _ out_of_fuel => apply advances_out_of_fuel
  | |- advances 0 (bind _ _) => apply advances_bind0; [ | intros ? ]
  | |- advances _ (if ?b then _ else _) => destruct b
  | |- advances _ (match ?x with _ => _ end) => destruct x
  | |- advances _ _ => solve [ auto ]
  end.

Lemma advances_all (tokens : list Token) : forall n, advances_at tokens n.
Proof.
  induction n as [ | n IH].
  - unfold advances_at; repeat split; intros; apply advances_out_of_fuel.
  - unfold advances_at in IH.
    destruct IH as (Hh & Hp & Hv & Hi & Hc & Hb & Hbw & Hn & He).
    pose proof (advances_weaken 2 0 _ ltac:(lia) Hp) as Hp0.
    pose proof (advances_weaken 4 0 _ ltac:(lia) Hv) as Hv0.
    pose proof (advances_weaken 3 0 _ ltac:(lia) Hi) as Hi0.
    pose proof (advances_weaken 2 0 _ ltac:(lia) Hc) as Hc0.
    pose proof (advances_current_token tokens) as Hcur.
    pose proof (advances_is_eof_token tokens) as Heof.
    pose proof (advances_parse_expression tokens n) as Hexp.
    assert (Hval0 : forall valid msg,
               advances 0 (validate_token tokens valid msg)).
    { intros valid msg.
      apply (advances_weaken 1 0); [ lia | apply advances_validate_token ]. }
    assert (Hid : forall i, advances 0 (parse_identifier_token tokens i)).
    { intros i. apply advances_preserves. unfold parse_identifier_token.
      repeat pres_step. }
    assert (Hop : forall t c, advances 0 (parse_operation t c)).
    { intros t c. apply advances_preserves. apply preserves_parse_operation. }
    assert (Hret : forall i, advances 0 (retrieve_token tokens i)).
    { intros i. apply advances_preserves. apply preserves_retrieve_token. }
    assert (Hget : advances 0 get_current).
    { intros cur a cur' H. injection H as _ <-. lia. }
    unfold advances_at. repeat split.
    + (* _handle_token *)
      intros index context. cbn [handle_token].
      apply advances_bind0.
      { destruct index; [ apply advances_ret | exact Hget ]. }
      intros i. repeat adv_step.
    + (* print: the keyword and the semicolon *)
      cbn [parse_print_token].
      apply (advances_weaken (1 + (0 + (1 + 0))) 2); [ lia | ].
      apply advances_bind; [ apply advances_validate_token | intros _ ].
      apply advances_bind; [ exact Hexp | intros node ].
      apply advances_bind; [ apply advances_validate_token | intros _ ].
      apply advances_ret.
    + (* var: the keyword, the identifier, the equal sign, the semicolon *)
      cbn [parse_var_token].
      apply (advances_weaken (1 + (0 + (0 + (1 + (1 + (0 + (1 + 0))))))) 4);
        [ lia | ].
      apply advances_bind; [ apply advances_validate_token | intros _ ].
      apply advances_bind; [ exact Hget | intros c ].
      apply advances_bind; [ apply Hid | intros v ].
      apply advances_bind; [ apply advances_validate_token | intros _ ].
      apply advances_bind; [ apply advances_validate_token | intros _ ].
      apply advances_bind; [ exact Hexp | intros node ].
      apply advances_bind; [ apply advances_validate_token | intros _ ].
      apply advances_ret.
    + (* if: the keyword and the two braces *)
      cbn [parse_if_statement].
      apply (advances_weaken (1 + (2 + (0 + 0))) 3); [ lia | ].
      apply advances_bind; [ apply advances_validate_token | intros _ ].
      apply advances_bind; [ exact Hc | intros [cn bn] ].
      apply advances_bind; [ exact Hn | intros nx ].
      apply advances_ret.
    + (* a conditional: the two braces *)
      cbn [parse_conditional].
      apply (advances_weaken (0 + (1 + (0 + (1 + 0)))) 2); [ lia | ].
      apply advances_bind; [ exact Hexp | intros node ].
      apply advances_bind; [ apply advances_validate_token | intros _ ].
      apply advances_bind; [ exact Hb | intros blk ].
      apply advances_bind; [ apply advances_validate_token | intros _ ].
      apply advances_ret.
    + cbn [parse_block]. apply Hbw.
    + intros nodes. cbn [parse_block_while]. repeat adv_step.
    + cbn [parse_next_if_conditional]. repeat adv_step.
    + cbn [parse_else]. repeat adv_step.
Qed.

(** X13.  Statement dispatch never moves the cursor backwards, and when
    the cursor stands on a print, var or if token and the statement parses,
    at least two tokens have been consumed: such statements always make the
    loops of [parse] and [_parse_block] progress. *)
Theorem X13_statements_advance_the_cursor
    (tokens : list Token) (fuel : nat) (context : option Context)
    (cur : Z) (node : option Node) (cur' : Z) :
  handle_token tokens fuel None context cur = Ok (node, cur') ->
  (if starts_statement tokens cur then cur + 2 else cur) <= cur'.
Proof.
  intros H. destruct fuel as [ | fuel]; [ discriminate H | ].
  destruct (advances_all tokens fuel)
    as (Hh & Hp & Hv & Hi & _).
  pose proof (advances_all tokens (S fuel)) as (Hh' & _).
  pose proof (Hh' None context cur node cur' H) as Hge.
  destruct (starts_statement tokens cur) eqn:Hs; [ | lia ].
  unfold starts_statement, kind_at in Hs.
  destruct (token_at tokens cur) as [t | ] eqn:Ht; [ | discriminate Hs ].
  cbn [option_map] in Hs.
  cbn [handle_token] in H. unfold bind at 1 in H.
  unfold get_current at 1 in H. unfold bind at 1 in H.
  rewrite (retrieve_token_some _ _ _ _ Ht) in H.
  unfold is_token_type in H.
  destruct (get_token_type t); try discriminate Hs.
  - (* if *)
    replace (TokenType_eqb IF PRINT) with false in H by reflexivity.
    replace (TokenType_eqb IF IDENTIFIER) with false in H by reflexivity.
    replace (TokenType_eqb IF VAR) with false in H by reflexivity.
    replace (TokenType_eqb IF IF) with true in H by reflexivity.
    apply Hi in H. lia.
  - (* print *)
    replace (TokenType_eqb PRINT PRINT) with true in H by reflexivity.
    apply Hp in H. lia.
  - (* var *)
    replace (TokenType_eqb VAR PRINT) with false in H by reflexivity.
    replace (TokenType_eqb VAR IDENTIFIER) with false in H by reflexivity.
    replace (TokenType_eqb VAR VAR) with true in H by reflexivity.
    apply Hv in H. lia.
Qed.

Lemma X13_statements_advance_the_cursor_witness :
  (if starts_statement tokens_print_a 0 then 0 + 2 else 0) <= 3.
Proof.
  apply (X13_statements_advance_the_cursor tokens_print_a 10 None 0
           (Some (PrintNode (Some (VariableNode "a")))) 3).
  reflexivity.
Defined.

(** ** The balance scan *)

Lemma counter_step (t : Token) (c : Z) :
  (let c1 := if is_token_type t LEFT_PAREN then c + 1 else c in
   if is_token_type t RIGHT_PAREN then c1 - 1 else c1)
  = c + paren_delta t.
Proof.
  unfold paren_delta. cbv zeta.
  destruct (is_token_type t LEFT_PAREN);
    destruct (is_token_type t RIGHT_PAREN); lia.
Qed.

(** One iteration of the loop of [_find_parenthesis_count]. *)
Lemma balance_scan_step (tokens : list Token) (n : nat) (r c i cur : Z)
    (t : Token) :
  i <= r -> token_at tokens i = Some t ->
  find_parenthesis_count_while tokens (S n) r c i cur
  = if c + paren_delta t =? 0 then Ok ((c + paren_delta t, i), cur)
    else find_parenthesis_count_while tokens n r (c + paren_delta t)
           (i + 1) cur.
Proof.
  intros Hi Ht. cbn [find_parenthesis_count_while].
  replace (i <=? r) with true by (symmetry; apply Z.leb_le; exact Hi).
  unfold bind. rewrite (retrieve_token_some _ _ _ _ Ht).
  cbv beta iota zeta.
  pose proof (counter_step t c) as E. cbv zeta in E. rewrite E.
  destruct (c + paren_delta t =? 0); reflexivity.
Qed.

Lemma balance_scan_done (tokens : list Token) (n : nat) (r c i cur : Z) :
  r < i ->
  find_parenthesis_count_while tokens n r c i cur = Ok ((c, i), cur).
Proof.
  intros Hi. destruct n; cbn [find_parenthesis_count_while];
    replace (i <=? r) with false by (symmetry; apply Z.leb_gt; exact Hi);
    reflexivity.
Qed.

Lemma balance_succ (tokens : list Token) (i : Z) (t : Token) (k : nat) :
  token_at tokens i = Some t ->
  balance tokens i (S k) = paren_delta t + balance tokens (i + 1) k.
Proof. intros Ht. cbn [balance]. unfold delta_at. rewrite Ht. reflexivity. Qed.

(** What the loop has seen when it returns: either it stopped on the first
    token that brings the counter back to zero, or it ran through the range
    without the counter ever being zero. *)
Lemma balance_scan_sound (tokens : list Token) :
  forall n r c i cur c' e cur',
    find_parenthesis_count_while tokens n r c i cur = Ok ((c', e), cur') ->
    cur' = cur /\
    ((exists k : nat,
         e = i + Z.of_nat k /\ e <= r /\ c' = 0 /\
         c + balance tokens i (S k) = 0 /\ never_zero tokens c i k) \/
     (r < e /\ c' = c + balance tokens i (Z.to_nat (r - i + 1)) /\
      never_zero tokens c i (Z.to_nat (r - i + 1)))).
Proof.
  induction n as [ | n IH]; intros r c i cur c' e cur' H.
  - cbn [find_parenthesis_count_while] in H.
    destruct (i <=? r) eqn:Hle; [ discriminate H | ].
    apply Z.leb_gt in Hle. unfold ret in H. injection H as <- <- <-.
    split; [ reflexivity | right ].
    replace (Z.to_nat (r - i + 1)) with 0%nat by lia.
    split; [ lia | split; [ cbn [balance]; lia | ] ].
    intros j Hj. lia.
  - destruct (Z_le_gt_dec i r) as [Hle | Hgt].
    + destruct (token_at tokens i) as [t | ] eqn:Ht.
      * rewrite (balance_scan_step tokens n r c i cur t Hle Ht) in H.
        destruct (c + paren_delta t =? 0) eqn:Hz.
        -- apply Z.eqb_eq in Hz. injection H as <- <- <-.
           split; [ reflexivity | left ].
           exists 0%nat. split; [ lia | split; [ lia | split; [ lia | ] ] ].
           split.
           ++ rewrite (balance_succ tokens i t 0 Ht). cbn [balance]. lia.
           ++ intros j Hj. lia.
        -- apply Z.eqb_neq in Hz. apply IH in H.
           destruct H as (-> & [(k & -> & Her & -> & Hbal & Hnz)
                               | (Hre & -> & Hnz)]).
           ++ split; [ reflexivity | left ].
              exists (S k).
              split; [ lia | split; [ lia | split; [ reflexivity | ] ] ].
              split.
              ** rewrite (balance_succ tokens i t (S k) Ht). lia.
              ** intros j Hj. destruct j as [ | j']; [ lia | ].
                 rewrite (balance_succ tokens i t j' Ht).
                 destruct j' as [ | j''].
                 --- cbn [balance]. lia.
                 --- specialize (Hnz (S j'') ltac:(lia)). lia.
           ++ split; [ reflexivity | right ].
              replace (Z.to_nat (r - i + 1))
                with (S (Z.to_nat (r - (i + 1) + 1))) by lia.
              split; [ exact Hre | split ].
              ** rewrite (balance_succ tokens i t _ Ht). lia.
              ** intros j Hj. destruct j as [ | j']; [ lia | ].
                 rewrite (balance_succ tokens i t j' Ht).
                 destruct j' as [ | j''].
                 --- cbn [balance]. lia.
                 --- specialize (Hnz (S j'') ltac:(lia)). lia.
      * cbn [find_parenthesis_count_while] in H.
        replace (i <=? r) with true in H
          by (symmetry; apply Z.leb_le; exact Hle).
        unfold bind, retrieve_token in H. rewrite Ht in H. discriminate H.
    + rewrite (balance_scan_done tokens (S n) r c i cur ltac:(lia)) in H.
      injection H as <- <- <-.
      split; [ reflexivity | right ].
      replace (Z.to_nat (r - i + 1)) with 0%nat by lia.
      split; [ lia | split; [ cbn [balance]; lia | ] ].
      intros j Hj. lia.
Qed.

(** X14.  When [_find_parenthesis_count] returns on a non-empty range
    [l, r], the counter it returns is zero and the index it returns is the
    first position of the range at which opening and closing parentheses
    counted from [l] balance; the cursor is untouched. *)
Theorem X14_balance_scan_finds_first_balanced_position
    (tokens : list Token) (l r cur c e cur' : Z) :
  l <= r ->
  find_parenthesis_count tokens l r cur = Ok ((c, e), cur') ->
  c = 0 /\ cur' = cur /\ l <= e <= r /\
  balance tokens l (Z.to_nat (e - l + 1)) = 0 /\
  (forall j, (0 < j < Z.to_nat (e - l + 1))%nat -> balance tokens l j <> 0).
Proof.
  intros Hlr H. unfold find_parenthesis_count in H.
  apply bind_ok_inv in H. destruct H as ([c0 e0] & c1 & Hw & H).
  apply balance_scan_sound in Hw.
  destruct Hw as (-> & [(k & -> & Her & -> & Hbal & Hnz)
                      | (Hre & -> & Hnz)]).
  - apply bind_ok_inv in H. destruct H as (rt & c2 & Hrt & H).
    apply retrieve_token_ok_inv in Hrt. destruct Hrt as [_ ->].
    cbn in H. injection H as <- <- <-.
    split; [ reflexivity | split; [ reflexivity | split; [ lia | ] ] ].
    replace (Z.to_nat (l + Z.of_nat k - l + 1)) with (S k) by lia.
    split; [ lia | ].
    intros j Hj. specialize (Hnz j ltac:(lia)). lia.
  - exfalso.
    apply bind_ok_inv in H. destruct H as (rt & c2 & _ & H).
    specialize (Hnz (Z.to_nat (r - l + 1)) ltac:(lia)).
    set (b := balance tokens l (Z.to_nat (r - l + 1))) in *.
    destruct (0 + b >? 0) eqn:Hpos; [ discriminate H | ].
    destruct (0 + b <? 0) eqn:Hneg; [ discriminate H | ].
    apply Z.ltb_ge in Hneg.
    assert (0 + b <= 0) by (apply Z.gtb_ltb in Hpos || lia; lia).
    lia.
Qed.

Lemma X14_balance_scan_finds_first_balanced_position_witness :
  0 = 0 /\ 1 = 1 /\ 2 <= 4 <= 4 /\
  balance tokens_two_open 2 (Z.to_nat (4 - 2 + 1)) = 0 /\
  (forall j, (0 < j < Z.to_nat (4 - 2 + 1))%nat ->
     balance tokens_two_open 2 j <> 0).
Proof.
  apply (X14_balance_scan_finds_first_balanced_position tokens_two_open
           2 4 1 0 4 1).
  - lia.
  - reflexivity.
Defined.

Lemma never_zero_tail (tokens : list Token) (c i : Z) (t : Token) (k : nat) :
  token_at tokens i = Some t ->
  never_zero tokens c i (S k) ->
  c + paren_delta t <> 0 /\ never_zero tokens (c + paren_delta t) (i + 1) k.
Proof.
  intros Ht Hnz. split.
  - specialize (Hnz 1%nat ltac:(lia)).
    rewrite (balance_succ tokens i t 0 Ht) in Hnz. cbn [balance] in Hnz. lia.
  - intros j Hj. specialize (Hnz (S j) ltac:(lia)).
    rewrite (balance_succ tokens i t j Ht) in Hnz. lia.
Qed.

(** The loop stops on the first token that balances the counter. *)
Lemma balance_scan_break (tokens : list Token) :
  forall (k n : nat) r c i cur,
    (k < n)%nat -> i + Z.of_nat k <= r ->
    tokens_present tokens i (i + Z.of_nat k) ->
    never_zero tokens c i k ->
    c + balance tokens i (S k) = 0 ->
    find_parenthesis_count_while tokens n r c i cur
    = Ok ((0, i + Z.of_nat k), cur).
Proof.
  induction k as [ | k IH]; intros n r c i cur Hn Hr Hp Hnz Hbal;
    (destruct n as [ | n]; [ lia | ]);
    destruct (Hp i ltac:(lia)) as [t Ht];
    rewrite (balance_scan_step tokens n r c i cur t ltac:(lia) Ht);
    rewrite (balance_succ tokens i t _ Ht) in Hbal.
  - cbn [balance] in Hbal.
    replace (c + paren_delta t) with 0 by lia.
    replace (i + Z.of_nat 0) with i by lia. reflexivity.
  - destruct (never_zero_tail tokens c i t k Ht Hnz) as [Hne Hnz'].
    replace (c + paren_delta t =? 0) with false
      by (symmetry; apply Z.eqb_neq; exact Hne).
    rewrite (IH n r (c + paren_delta t) (i + 1) cur).
    + replace (i + 1 + Z.of_nat k) with (i + Z.of_nat (S k)) by lia.
      reflexivity.
    + lia.
    + lia.
    + intros j Hj. apply Hp. lia.
    + exact Hnz'.
    + lia.
Qed.

(** The loop runs to the end of a range in which the counter is never
    zero. *)
Lemma balance_scan_through (tokens : list Token) :
  forall (n : nat) r c i cur,
    (Z.to_nat (r - i + 1) <= n)%nat ->
    tokens_present tokens i r ->
    never_zero tokens c i (Z.to_nat (r - i + 1)) ->
    find_parenthesis_count_while tokens n r c i cur
    = Ok ((c + balance tokens i (Z.to_nat (r - i + 1)), Z.max i (r + 1)), cur).
Proof.
  induction n as [ | n IH]; intros r c i cur Hn Hp Hnz.
  - rewrite (balance_scan_done tokens 0 r c i cur ltac:(lia)).
    replace (Z.to_nat (r - i + 1)) with 0%nat by lia. cbn [balance].
    replace (c + 0) with c by lia.
    replace (Z.max i (r + 1)) with i by lia. reflexivity.
  - destruct (Z_le_gt_dec i r) as [Hle | Hgt].
    + destruct (Hp i ltac:(lia)) as [t Ht].
      rewrite (balance_scan_step tokens n r c i cur t Hle Ht).
      replace (Z.to_nat (r - i + 1))
        with (S (Z.to_nat (r - (i + 1) + 1))) in * by lia.
      destruct (never_zero_tail tokens c i t _ Ht Hnz) as [Hne Hnz'].
      replace (c + paren_delta t =? 0) with false
        by (symmetry; apply Z.eqb_neq; exact Hne).
      rewrite (IH r (c + paren_delta t) (i + 1) cur).
      * rewrite (balance_succ tokens i t _ Ht).
        replace (Z.max (i + 1) (r + 1)) with (Z.max i (r + 1)) by lia.
        f_equal. f_equal. f_equal. lia.
      * lia.
      * intros j Hj. apply Hp. lia.
      * exact Hnz'.
    + rewrite (balance_scan_done tokens (S n) r c i cur ltac:(lia)).
      replace (Z.to_nat (r - i + 1)) with 0%nat by lia. cbn [balance].
      replace (c + 0) with c by lia.
      replace (Z.max i (r + 1)) with i by lia. reflexivity.
Qed.

Lemma find_parenthesis_count_break (tokens : list Token) (l r cur : Z)
    (k : nat) :
  l + Z.of_nat k <= r ->
  tokens_present tokens l r ->
  never_zero tokens 0 l k ->
  balance tokens l (S k) = 0 ->
  find_parenthesis_count tokens l r cur = Ok ((0, l + Z.of_nat k), cur).
Proof.
  intros Hk Hp Hnz Hbal. unfold find_parenthesis_count.
  unfold bind at 1.
  rewrite (balance_scan_break tokens k _ r 0 l cur); try lia.
  - destruct (Hp r ltac:(lia)) as [rt Hrt].
    unfold bind. rewrite (retrieve_token_some _ _ _ _ Hrt). reflexivity.
  - intros j Hj. apply Hp. lia.
  - exact Hnz.
Qed.

(** X15.  When the parentheses of a non-empty range [l, r] never balance,
    counted from [l], [_find_parenthesis_count] raises a syntax error at
    the line of the last token of the range: a surplus of opening
    parentheses is reported as a left parenthesis without its closing one,
    a surplus of closing ones as a right parenthesis without its opening
    one.  (The parser's own calls start the scan on a left parenthesis,
    where only the first of the two can occur.) *)
Theorem X15_unbalanced_range_raises (tokens : list Token) (l r cur : Z)
    (rt : Token) :
  l <= r ->
  tokens_present tokens l r ->
  token_at tokens r = Some rt ->
  never_zero tokens 0 l (Z.to_nat (r - l + 1)) ->
  find_parenthesis_count tokens l r cur
  = Raise (SyntaxException (get_line rt)
             (if balance tokens l (Z.to_nat (r - l + 1)) >? 0
              then "Left parenthesis missing closing right."
              else "Right parenthesis missing corresponding left.")).
Proof.
  intros Hlr Hp Hrt Hnz. unfold find_parenthesis_count.
  unfold bind at 1.
  rewrite (balance_scan_through tokens _ r 0 l cur (Nat.le_refl _) Hp Hnz).
  unfold bind. rewrite (retrieve_token_some _ _ _ _ Hrt). cbv zeta.
  specialize (Hnz (Z.to_nat (r - l + 1)) ltac:(lia)).
  set (b := balance tokens l (Z.to_nat (r - l + 1))) in *.
  replace (0 + b) with b by lia.
  destruct (b >? 0) eqn:Hpos; [ reflexivity | ].
  replace (b <? 0) with true; [ reflexivity | ].
  symmetry. apply Z.ltb_lt.
  assert (b <= 0) by (rewrite Z.gtb_ltb in Hpos; apply Z.ltb_ge in Hpos; lia).
  lia.
Qed.

Lemma tokens_present_in_bounds (tokens : list Token) (lo hi : Z) :
  0 <= lo -> hi < len_tokens tokens -> tokens_present tokens lo hi.
Proof.
  intros Hlo Hhi j Hj. apply token_at_in_bounds. lia.
Qed.

Lemma never_zero_cases (tokens : list Token) (c i : Z) (n : nat) :
  (forall j, (j < n)%nat -> c + balance tokens i (S j) <> 0) ->
  never_zero tokens c i n.
Proof.
  intros H j Hj. destruct j as [ | j]; [ lia | ]. apply H. lia.
Qed.

Lemma X15_unbalanced_range_raises_witness :
  find_parenthesis_count tokens_unclosed 1 6 1
  = Raise (SyntaxException (get_line (ident "b" 2))
             (if balance tokens_unclosed 1 (Z.to_nat (6 - 1 + 1)) >? 0
              then "Left parenthesis missing closing right."
              else "Right parenthesis missing corresponding left.")).
Proof.
  apply (X15_unbalanced_range_raises tokens_unclosed 1 6 1 (ident "b" 2)).
  - lia.
  - apply tokens_present_in_bounds; [ lia | reflexivity ].
  - reflexivity.
  - apply never_zero_cases. intros j Hj.
    do 6 (destruct j as [ | j]; [ vm_compute; discriminate | ]).
    simpl in Hj. lia.
Defined.

(** X16.  A range that opens with a parenthesis whose matching closing
    parenthesis is the last token of the range is parsed as the range
    between the two. *)
Theorem X16_enclosing_parentheses_are_transparent (tokens : list Token)
    (fuel : nat) (l r cur : Z) (lt rt : Token) :
  l < r ->
  tokens_present tokens l r ->
  token_at tokens l = Some lt -> is_token_type lt LEFT_PAREN = true ->
  token_at tokens r = Some rt -> is_token_type rt RIGHT_PAREN = true ->
  balance tokens l (Z.to_nat (r - l + 1)) = 0 ->
  never_zero tokens 0 l (Z.to_nat (r - l)) ->
  parse_expression_recursive tokens (S fuel) l r cur
  = parse_expression_recursive tokens fuel (l + 1) (r - 1) cur.
Proof.
  intros Hlr Hp Hl Hlp Hr Hrp Hbal Hnz. cbn [parse_expression_recursive].
  unfold bind at 1. rewrite (retrieve_token_some _ _ _ _ Hl).
  unfold bind at 1. rewrite (retrieve_token_some _ _ _ _ Hr).
  replace (r - l =? 0) with false by (symmetry; apply Z.eqb_neq; lia).
  unfold bind at 1. unfold is_nested_parens, within_parens.
  unfold bind at 1. unfold bind at 1.
  rewrite (retrieve_token_some _ _ _ _ Hl).
  unfold bind at 1. rewrite (retrieve_token_some _ _ _ _ Hr).
  rewrite Hlp, Hrp. cbn [andb negb ret].
  unfold bind at 1.
  rewrite (find_parenthesis_count_break tokens l r cur (Z.to_nat (r - l)));
    [ | lia | exact Hp | exact Hnz
      | replace (S (Z.to_nat (r - l))) with (Z.to_nat (r - l + 1)) by lia;
        exact Hbal ].
  replace (l + Z.of_nat (Z.to_nat (r - l))) with r by lia.
  rewrite !Z.eqb_refl. reflexivity.
Qed.

Lemma X16_enclosing_parentheses_are_transparent_witness :
  parse_expression_recursive tokens_paren_a (S 5) 1 3 1
  = parse_expression_recursive tokens_paren_a 5 (1 + 1) (3 - 1) 1.
Proof.
  apply (X16_enclosing_parentheses_are_transparent tokens_paren_a 5 1 3 1
           (tk LEFT_PAREN 1) (tk RIGHT_PAREN 1)).
  - lia.
  - apply tokens_present_in_bounds; [ lia | reflexivity ].
  - reflexivity.
  - reflexivity.
  - reflexivity.
  - reflexivity.
  - reflexivity.
  - apply never_zero_cases. intros j Hj.
    do 2 (destruct j as [ | j]; [ vm_compute; discriminate | ]).
    simpl in Hj. lia.
Defined.

(** X17.  A range whose opening parenthesis is closed before the last token
    keeps its parentheses: it is handed whole to the operator search, so
    [(a) + (b)] is not read as [a) + (b]. *)
Theorem X17_parentheses_closed_early_are_kept (tokens : list Token)
    (fuel : nat) (l r cur : Z) (k : nat) :
  l + Z.of_nat k < r ->
  tokens_present tokens l r ->
  never_zero tokens 0 l k ->
  balance tokens l (S k) = 0 ->
  parse_expression_recursive tokens (S fuel) l r cur
  = parse_expression_recursive_for tokens fuel operator_precedence l r cur.
Proof.
  intros Hk Hp Hnz Hbal.
  destruct (Hp l ltac:(lia)) as [lt Hl].
  destruct (Hp r ltac:(lia)) as [rt Hr].
  cbn [parse_expression_recursive].
  unfold bind at 1. rewrite (retrieve_token_some _ _ _ _ Hl).
  unfold bind at 1. rewrite (retrieve_token_some _ _ _ _ Hr).
  replace (r - l =? 0) with false by (symmetry; apply Z.eqb_neq; lia).
  unfold bind at 1. unfold is_nested_parens, within_parens.
  unfold bind at 1. unfold bind at 1.
  rewrite (retrieve_token_some _ _ _ _ Hl).
  unfold bind at 1. rewrite (retrieve_token_some _ _ _ _ Hr).
  cbn [ret].
  destruct (negb (is_token_type lt LEFT_PAREN
                  && is_token_type rt RIGHT_PAREN)); [ reflexivity | ].
  unfold bind at 1.
  rewrite (find_parenthesis_count_break tokens l r cur k);
    [ | lia | exact Hp | exact Hnz | exact Hbal ].
  replace (l + Z.of_nat k =? r) with false
    by (symmetry; apply Z.eqb_neq; lia).
  rewrite andb_false_r. reflexivity.
Qed.

Lemma X17_parentheses_closed_early_are_kept_witness :
  parse_expression_recursive tokens_two_groups (S 5) 1 7 1
  = parse_expression_recursive_for tokens_two_groups 5 operator_precedence
      1 7 1.
Proof.
  apply (X17_parentheses_closed_early_are_kept tokens_two_groups 5 1 7 1
           2%nat).
  - lia.
  - apply tokens_present_in_bounds; [ lia | reflexivity ].
  - apply never_zero_cases. intros j Hj.
    do 2 (destruct j as [ | j]; [ vm_compute; discriminate | ]).
    simpl in Hj. lia.
  - reflexivity.
Defined.

(** ** Expression parsing terminates *)

Lemma bind_finishes_at {A B} (m : M A) (k : A -> M B) (cur : Z) :
  m cur <> OutOfFuel ->
  (forall a c, m cur = Ok (a, c) -> k a c <> OutOfFuel) ->
  bind m k cur <> OutOfFuel.
Proof.
  intros Hm Hk. unfold bind.
  destruct (m cur) as [[a c] | e | ];
    [ apply Hk; reflexivity | discriminate | contradiction ].
Qed.

Lemma finishes_bind {A B} (m : M A) (k : A -> M B) :
  finishes m -> (forall a, finishes (k a)) -> finishes (bind m k).
Proof.
  intros Hm Hk cur. apply bind_finishes_at; [ apply Hm | ].
  intros a c _. apply Hk.
Qed.

Lemma finishes_ret {A} (a : A) : finishes (ret a).
Proof. intros cur. unfold ret. discriminate. Qed.

Lemma finishes_raise {A} (e : Exn) : finishes (@raise A e).
Proof. intros cur. unfold raise. discriminate. Qed.

Lemma finishes_bind_retrieve {B} (tokens : list Token) (i : Z)
    (k : Token -> M B) :
  (forall t, token_at tokens i = Some t -> finishes (k t)) ->
  finishes (bind (retrieve_token tokens i) k).
Proof.
  intros Hk cur. unfold bind, retrieve_token.
  destruct (token_at tokens i) as [t | ] eqn:Ht.
  - unfold ret at 1. apply Hk. reflexivity.
  - unfold raise. discriminate.
Qed.

Lemma finishes_validate_token (tokens : list Token) (valid : list TokenType)
    (msg : string) :
  finishes (validate_token tokens valid msg).
Proof.
  intros cur. unfold validate_token, bind, get_current, retrieve_token.
  destruct (token_at tokens cur) as [t | ]; [ | discriminate ].
  unfold ret at 1.
  destruct (negb (mem (get_token_type t) valid)); discriminate.
Qed.

Lemma finishes_find_parenthesis_count (tokens : list Token) (l r : Z) :
  finishes (find_parenthesis_count tokens l r).
Proof. intros cur. apply find_parenthesis_count_total. Qed.

Lemma finishes_skip_parentheses (tokens : list Token) (l r : Z) :
  finishes (skip_parentheses tokens l r).
Proof.
  unfold skip_parentheses. apply finishes_bind.
  - apply finishes_find_parenthesis_count.
  - intros [c e]. apply finishes_ret.
Qed.

Lemma finishes_is_nested_parens (tokens : list Token) (l r : Z) :
  finishes (is_nested_parens tokens l r).
Proof.
  unfold is_nested_parens, within_parens.
  apply finishes_bind.
  - apply finishes_bind_retrieve. intros lt _.
    apply finishes_bind_retrieve. intros rt _. apply finishes_ret.
  - intros w. destruct (negb w); [ apply finishes_ret | ].
    apply finishes_bind.
    + apply finishes_find_parenthesis_count.
    + intros [c e]. apply finishes_ret.
Qed.

Lemma finishes_parse_operation (t : Token) (context : option Context) :
  finishes (parse_operation t context).
Proof.
  intros cur. unfold parse_operation.
  destruct (binary_operation_map (get_token_type t)).
  - destruct context as [ctx | ]; [ destruct ctx | ]; discriminate.
  - destruct (is_token_type t BANG); [ | discriminate ].
    destruct context as [ctx | ]; [ destruct ctx | ]; discriminate.
Qed.

Lemma finishes_parse_identifier_token (tokens : list Token) (i : Z) :
  finishes (parse_identifier_token tokens i).
Proof.
  unfold parse_identifier_token. apply finishes_bind_retrieve.
  intros t _. apply finishes_ret.
Qed.

(** [_handle_token] at an explicit index returns at once unless the token
    there is [print], [var] or [if]. *)
Lemma finishes_handle_token (tokens : list Token) (fuel : nat) (i : Z)
    (context : option Context) :
  not_statement_at tokens i ->
  finishes (handle_token tokens (S fuel) (Some i) context).
Proof.
  intros Hns cur. cbn [handle_token].
  unfold bind at 1. unfold ret at 1. cbv beta iota.
  revert cur. apply finishes_bind_retrieve. intros t Ht.
  specialize (Hns t Ht).
  destruct (is_token_type t PRINT) eqn:E1.
  { apply is_token_type_true in E1. rewrite E1 in Hns. discriminate Hns. }
  destruct (is_token_type t IDENTIFIER).
  { apply finishes_bind; [ apply finishes_parse_identifier_token | ].
    intros n. apply finishes_ret. }
  destruct (is_token_type t VAR) eqn:E2.
  { apply is_token_type_true in E2. rewrite E2 in Hns. discriminate Hns. }
  destruct (is_token_type t IF) eqn:E3.
  { apply is_token_type_true in E3. rewrite E3 in Hns. discriminate Hns. }
  destruct (mem (get_token_type t) literal_types); [ apply finishes_ret | ].
  destruct (mem (get_token_type t) operation_types);
    [ apply finishes_parse_operation | apply finishes_ret ].
Qed.

(** Only a range of at least two tokens is reported as enclosed in
    parentheses. *)
Lemma is_nested_parens_true_le (tokens : list Token) (l r cur cur' : Z) :
  is_nested_parens tokens l r cur = Ok (true, cur') -> l <= r.
Proof.
  unfold is_nested_parens. intros H.
  apply bind_ok_inv in H. destruct H as (w & c1 & _ & H).
  destruct (negb w); [ discriminate H | ].
  apply bind_ok_inv in H. destruct H as ([c e] & c2 & Hc & H).
  unfold ret in H. assert (Hb : (c =? 0) && (e =? r) = true) by congruence.
  clear H. rename Hb into H.
  apply andb_prop in H. destruct H as [_ He]. apply Z.eqb_eq in He. subst e.
  unfold find_parenthesis_count in Hc.
  apply bind_ok_inv in Hc. destruct Hc as ([c0 e0] & c3 & Hw & Hc).
  apply find_parenthesis_count_while_lower in Hw.
  apply bind_ok_inv in Hc. destruct Hc as (t & c4 & _ & Hc).
  cbv zeta in Hc.
  destruct (c0 >? 0); [ discriminate Hc | ].
  destruct (c0 <? 0); [ discriminate Hc | ].
  unfold ret in Hc. injection Hc as _ -> _. exact Hw.
Qed.

Section ExpressionTerminates.

Variable tokens : list Token.
Variables (s B : nat).

(** Shorter ranges finish on [B] units of fuel. *)
Hypothesis shorter :
  forall l r f,
    l <= r + 1 -> r - l + 1 < Z.of_nat s -> (B <= f)%nat ->
    finishes (parse_expression_recursive tokens f l r).

Lemma handle_unary_operation_finishes (i r : Z) (f : nat) :
  not_statement_at tokens i ->
  i <= r -> r - i < Z.of_nat s -> (B + 2 <= f)%nat ->
  finishes (handle_unary_operation tokens f i r).
Proof.
  intros Hns Hi Hs Hf. destruct f as [ | f]; [ lia | ].
  cbn [handle_unary_operation].
  apply finishes_bind_retrieve. intros t Ht.
  apply finishes_bind; [ apply shorter; lia | ].
  intros right_node. destruct right_node; [ | apply finishes_raise ].
  destruct f as [ | f]; [ lia | ].
  apply finishes_handle_token. exact Hns.
Qed.

Lemma handle_binary_operation_finishes (l i r : Z) (f : nat) :
  not_statement_at tokens i ->
  l <= i <= r -> r - l + 1 <= Z.of_nat s -> (B + 2 <= f)%nat ->
  finishes (handle_binary_operation tokens f l i r).
Proof.
  intros Hns Hi Hs Hf. destruct f as [ | f]; [ lia | ].
  cbn [handle_binary_operation].
  apply finishes_bind_retrieve. intros t Ht.
  apply finishes_bind; [ apply shorter; lia | ].
  intros left_node. destruct left_node; [ | apply finishes_raise ].
  apply finishes_bind; [ apply shorter; lia | ].
  intros right_node. destruct right_node; [ | apply finishes_raise ].
  destruct f as [ | f]; [ lia | ].
  apply finishes_handle_token. exact Hns.
Qed.

Lemma handle_by_operations_finishes (ops : list TokenType) (l r i : Z)
    (f : nat) :
  stmt_free ops = true ->
  l <= i <= r -> r - l + 1 <= Z.of_nat s -> (B + 3 <= f)%nat ->
  finishes (handle_by_operations tokens f ops l r i).
Proof.
  intros Ho Hi Hs Hf. destruct f as [ | f]; [ lia | ].
  cbn [handle_by_operations].
  apply finishes_bind_retrieve. intros t Ht. cbv zeta.
  destruct (mem (get_token_type t) ops) eqn:Hm; [ | apply finishes_ret ].
  assert (Hns : not_statement_at tokens i).
  { apply (not_statement_at_token tokens i t Ht).
    apply (stmt_free_mem ops); assumption. }
  destruct (mem (get_token_type t) unary_operations).
  - apply handle_unary_operation_finishes; [ exact Hns | lia | lia | lia ].
  - apply handle_binary_operation_finishes; [ exact Hns | lia | lia | lia ].
Qed.

Lemma parse_expression_recursive_while_finishes (ops : list TokenType)
    (l r : Z) :
  stmt_free ops = true -> r - l + 1 <= Z.of_nat s ->
  forall (k : nat) (i : Z) (f : nat),
    l <= i -> r - i <= Z.of_nat k -> (k + B + 4 <= f)%nat ->
    finishes (parse_expression_recursive_while tokens f ops l r i).
Proof.
  intros Ho Hs. induction k as [ | k IH]; intros i f Hi Hk Hf;
    (destruct f as [ | f]; [ lia | ]);
    cbn [parse_expression_recursive_while];
    destruct (i <? r) eqn:Hlt; try apply finishes_ret;
    apply Z.ltb_lt in Hlt; [ lia | ].
  apply finishes_bind_retrieve. intros t Ht cur.
  apply bind_finishes_at.
  { destruct (is_token_type t LEFT_PAREN);
      [ apply finishes_skip_parentheses | apply finishes_ret ]. }
  intros i' c Hi'.
  assert (Hb : i <= i' <= r).
  { destruct (is_token_type t LEFT_PAREN).
    - apply (skip_parentheses_bounds tokens i r cur i' c Hlt Hi').
    - unfold ret in Hi'. injection Hi' as <- _. lia. }
  apply bind_finishes_at.
  - apply handle_by_operations_finishes; [ exact Ho | lia | exact Hs | lia ].
  - intros node c' _. destruct (truthy node); [ apply finishes_ret | ].
    apply IH; lia.
Qed.

Lemma parse_expression_recursive_for_finishes (l r : Z) :
  r - l + 1 <= Z.of_nat s ->
  forall (p : list (list TokenType)) (f : nat),
    forallb stmt_free p = true ->
    (List.length p + Z.to_nat (r - l) + B + 5 <= f)%nat ->
    finishes (parse_expression_recursive_for tokens f p l r).
Proof.
  intros Hs. induction p as [ | ops rest IH]; intros f Hp Hf;
    (destruct f as [ | f]; [ lia | ]);
    cbn [parse_expression_recursive_for].
  - apply finishes_bind_retrieve. intros t _. apply finishes_raise.
  - cbn [forallb] in Hp. apply andb_prop in Hp. destruct Hp as [Ho Hr].
    cbn [List.length] in Hf.
    apply finishes_bind.
    + apply (parse_expression_recursive_while_finishes ops l r Ho Hs
               (Z.to_nat (r - l))); lia.
    + intros node. destruct (truthy node); [ apply finishes_ret | ].
      apply IH; [ exact Hr | lia ].
Qed.

Lemma parse_expression_recursive_finishes_step (l r : Z) (f : nat) :
  r - l + 1 <= Z.of_nat s -> (s + B + 13 <= f)%nat ->
  finishes (parse_expression_recursive tokens f l r).
Proof.
  intros Hs Hf. destruct f as [ | f]; [ lia | ].
  cbn [parse_expression_recursive].
  apply finishes_bind_retrieve. intros lt Hlt.
  apply finishes_bind_retrieve. intros rt Hrt. cbv zeta.
  destruct (r - l =? 0) eqn:Hd.
  - destruct (mem (get_token_type lt) valid_expression_types) eqn:Hv;
      cbn [negb]; [ | apply finishes_raise ].
    destruct f as [ | f]; [ lia | ].
    apply finishes_handle_token.
    apply (not_statement_at_token tokens l lt Hlt).
    apply valid_expression_not_statement. exact Hv.
  - apply Z.eqb_neq in Hd. intros cur. apply bind_finishes_at.
    { apply finishes_is_nested_parens. }
    intros nested c Hn. destruct nested.
    + apply is_nested_parens_true_le in Hn. apply shorter; lia.
    + apply parse_expression_recursive_for_finishes;
        [ exact Hs | reflexivity | cbn [List.length operator_precedence]; lia ].
Qed.

End ExpressionTerminates.

Lemma expression_fuel_mono (s s' : nat) :
  (s <= s')%nat -> (expression_fuel s <= expression_fuel s')%nat.
Proof.
  induction 1 as [ | s' _ IH]; [ lia | ]. cbn [expression_fuel]. lia.
Qed.

Lemma parse_expression_recursive_finishes (tokens : list Token) :
  forall (s : nat) (l r : Z) (f : nat),
    r - l + 1 <= Z.of_nat s -> (expression_fuel s <= f)%nat ->
    finishes (parse_expression_recursive tokens f l r).
Proof.
  induction s as [ | s IH]; intros l r f Hs Hf.
  - apply (parse_expression_recursive_finishes_step tokens 0 0).
    + intros l' r' f' Hg Hlt _. lia.
    + exact Hs.
    + cbn [expression_fuel] in Hf. lia.
  - apply (parse_expression_recursive_finishes_step tokens (S s)
             (expression_fuel s)).
    + intros l' r' f' Hg Hlt Hf'. apply (IH l' r' f'); [ lia | exact Hf' ].
    + exact Hs.
    + cbn [expression_fuel] in Hf. lia.
Qed.

(** X18.  Parsing a range of tokens always terminates, whatever the tokens
    are: the fuel [expression_fuel n], quadratic in the number [n] of tokens
    of the range, is enough for [_parse_expression_recursive] to return a
    node or raise. *)
Theorem X18_range_parsing_terminates (tokens : list Token) (l r cur : Z)
    (fuel : nat) :
  (expression_fuel (Z.to_nat (r - l + 1)) <= fuel)%nat ->
  parse_expression_recursive tokens fuel l r cur <> OutOfFuel.
Proof.
  intros Hf.
  apply (parse_expression_recursive_finishes tokens
           (Z.to_nat (r - l + 1)) l r fuel); [ lia | exact Hf ].
Qed.

Lemma X18_range_parsing_terminates_witness :
  parse_expression_recursive tokens_two_groups 400 1 7 1 <> OutOfFuel.
Proof.
  apply (X18_range_parsing_terminates tokens_two_groups 1 7 1 400).
  apply Nat.leb_le. reflexivity.
Defined.

(** X19.  With the cursor at a non-negative index, [_parse_expression] and
    the two statements built on it alone, [print] and assignment, always
    terminate: fuel for a range as long as the token list, and two units
    more, is enough whatever the tokens are. *)
Theorem X19_print_and_assignment_terminate (tokens : list Token) (cur : Z)
    (fuel : nat) :
  0 <= cur ->
  (expression_fuel (List.length tokens) + 2 <= fuel)%nat ->
  parse_expression tokens fuel cur <> OutOfFuel /\
  parse_print_token tokens fuel cur <> OutOfFuel /\
  parse_var_token tokens fuel cur <> OutOfFuel.
Proof.
  intros Hcur Hf.
  assert (Hexp : forall f c, 0 <= c ->
            (expression_fuel (List.length tokens) + 1 <= f)%nat ->
            parse_expression tokens f c <> OutOfFuel).
  { intros f c Hc Hf'. destruct f as [ | f]; [ lia | ].
    cbn [parse_expression]. apply bind_finishes_at.
    { apply find_end_total. }
    intros e c1 He.
    unfold find_end_of_expression_index, bind, get_current in He.
    apply find_end_while_spec in He.
    destruct He as (-> & Hle & _ & (t & Ht & _)).
    apply token_at_bounds in Ht. unfold len_tokens in Ht.
    unfold bind at 1. unfold get_current. apply bind_finishes_at.
    - apply (parse_expression_recursive_finishes tokens
               (List.length tokens)); lia.
    - intros node c2 _. unfold bind, set_current, ret. discriminate. }
  split; [ apply Hexp; [ exact Hcur | lia ] | split ].
  - destruct fuel as [ | fuel]; [ lia | ]. cbn [parse_print_token].
    apply bind_finishes_at; [ apply finishes_validate_token | ].
    intros u c1 Hv. apply validate_token_ok_inv in Hv. destruct Hv as [-> _].
    apply bind_finishes_at; [ apply Hexp; lia | ].
    intros node c2 _.
    apply bind_finishes_at; [ apply finishes_validate_token | ].
    intros u' c3 _. unfold ret. discriminate.
  - destruct fuel as [ | fuel]; [ lia | ]. cbn [parse_var_token].
    apply bind_finishes_at; [ apply finishes_validate_token | ].
    intros u c1 Hv. apply validate_token_ok_inv in Hv. destruct Hv as [-> _].
    apply bind_finishes_at; [ unfold get_current; discriminate | ].
    intros c0 c1 Hg. unfold get_current in Hg. injection Hg as <- <-.
    apply bind_finishes_at; [ apply finishes_parse_identifier_token | ].
    intros vn c2 Hid.
    assert (c2 = cur + 1) as ->.
    { unfold parse_identifier_token in Hid.
      apply bind_ok_inv in Hid. destruct Hid as (t & c3 & Hr & Hid).
      apply retrieve_token_ok_inv in Hr. destruct Hr as [_ ->].
      unfold ret in Hid. injection Hid as _ <-. reflexivity. }
    apply bind_finishes_at; [ apply finishes_validate_token | ].
    intros u1 c3 Hv1. apply validate_token_ok_inv in Hv1.
    destruct Hv1 as [-> _].
    apply bind_finishes_at; [ apply finishes_validate_token | ].
    intros u2 c4 Hv2. apply validate_token_ok_inv in Hv2.
    destruct Hv2 as [-> _].
    apply bind_finishes_at; [ apply Hexp; lia | ].
    intros node c5 _.
    apply bind_finishes_at; [ apply finishes_validate_token | ].
    intros u' c6 _. unfold ret. discriminate.
Qed.

Lemma X19_print_and_assignment_terminate_witness :
  parse_expression tokens_two_groups 2000 1 <> OutOfFuel /\
  parse_print_token tokens_two_groups 2000 1 <> OutOfFuel /\
  parse_var_token tokens_two_groups 2000 1 <> OutOfFuel.
Proof.
  apply (X19_print_and_assignment_terminate tokens_two_groups 1 2000).
  - lia.
  - apply Nat.leb_le. reflexivity.
Defined.

(** * Precedence over ranges with parentheses *)

(** ** The positions the operator scan tests *)

Lemma closing_index_bounds (tokens : list Token) :
  forall n c i e,
    closing_index tokens n c i = Some e -> i <= e < i + Z.of_nat n.
Proof.
  induction n as [ | n IH]; intros c i e H; cbn [closing_index] in H;
    [ discriminate H | ].
  destruct (token_at tokens i) as [t | ]; [ | discriminate H ].
  cbv zeta in H. destruct (c + paren_delta t =? 0).
  - injection H as <-. lia.
  - apply IH in H. lia.
Qed.

(** [closing_index] is what the loop of [_find_parenthesis_count] finds. *)
Lemma closing_index_scan (tokens : list Token) :
  forall n n' r c i cur e,
    closing_index tokens n c i = Some e -> e <= r -> (n <= n')%nat ->
    find_parenthesis_count_while tokens n' r c i cur = Ok ((0, e), cur).
Proof.
  induction n as [ | n IH]; intros n' r c i cur e H He Hn;
    cbn [closing_index] in H; [ discriminate H | ].
  destruct (token_at tokens i) as [t | ] eqn:Ht; [ | discriminate H ].
  cbv zeta in H. destruct n' as [ | n']; [ lia | ].
  destruct (c + paren_delta t =? 0) eqn:Hz.
  - injection H as Hi. subst e.
    rewrite (balance_scan_step tokens n' r c i cur t He Ht). rewrite Hz.
    apply Z.eqb_eq in Hz. rewrite Hz. reflexivity.
  - pose proof (closing_index_bounds tokens _ _ _ _ H) as Hb.
    rewrite (balance_scan_step tokens n' r c i cur t ltac:(lia) Ht).
    rewrite Hz. apply IH; [ exact H | exact He | lia ].
Qed.

Lemma find_parenthesis_count_closing (tokens : list Token) (i r cur e : Z)
    (rt : Token) :
  closing_index tokens (Z.to_nat (r - i + 1)) 0 i = Some e ->
  token_at tokens r = Some rt ->
  i <= e <= r /\
  find_parenthesis_count tokens i r cur = Ok ((0, e), cur).
Proof.
  intros He Hrt.
  pose proof (closing_index_bounds tokens _ _ _ _ He) as Hb.
  assert (Her : i <= e <= r) by lia.
  split; [ exact Her | ].
  unfold find_parenthesis_count. unfold bind at 1.
  rewrite (closing_index_scan tokens _ (Z.to_nat (r - i + 1)) r 0 i cur e He);
    [ | lia | lia ].
  unfold bind. rewrite (retrieve_token_some _ _ _ _ Hrt). reflexivity.
Qed.

Lemma skip_parentheses_closing (tokens : list Token) (i r cur e : Z)
    (rt : Token) :
  closing_index tokens (Z.to_nat (r - i + 1)) 0 i = Some e ->
  token_at tokens r = Some rt ->
  skip_parentheses tokens i r cur = Ok (Z.min (e + 1) r, cur).
Proof.
  intros He Hrt. unfold skip_parentheses, bind.
  destruct (find_parenthesis_count_closing tokens i r cur e rt He Hrt)
    as [_ ->].
  reflexivity.
Qed.

Lemma scan_positions_nil (tokens : list Token) (n : nat) (r i : Z) :
  r <= i -> scan_positions tokens n r i = Some [].
Proof.
  intros H. destruct n; cbn [scan_positions];
    replace (i <? r) with false by (symmetry; apply Z.ltb_ge; lia);
    reflexivity.
Qed.

Lemma scan_positions_cons (tokens : list Token) (n : nat) (r i p : Z)
    (ps : list Z) :
  scan_positions tokens n r i = Some (p :: ps) ->
  i < r /\
  exists t n',
    n = S n' /\ token_at tokens i = Some t /\ tested_from tokens r i t p /\
    scan_positions tokens n' r (p + 1) = Some ps.
Proof.
  intros H. destruct n as [ | n]; cbn [scan_positions] in H;
    destruct (i <? r) eqn:Hlt; try discriminate H.
  apply Z.ltb_lt in Hlt. split; [ exact Hlt | ].
  destruct (token_at tokens i) as [t | ] eqn:Ht; [ | discriminate H ].
  cbv zeta in H. exists t, n. unfold tested_from.
  destruct (is_token_type t LEFT_PAREN).
  - destruct (closing_index tokens (Z.to_nat (r - i + 1)) 0 i) as [e | ];
      cbn [option_map] in H; [ | discriminate H ].
    destruct (scan_positions tokens n r (Z.min (e + 1) r + 1)) as [ps' | ]
      eqn:Hs; cbn [option_map] in H; [ | discriminate H ].
    injection H as <- <-.
    split; [ reflexivity | split; [ reflexivity | split; [ | exact Hs ] ] ].
    exists e. split; reflexivity.
  - destruct (scan_positions tokens n r (i + 1)) as [ps' | ] eqn:Hs;
      cbn [option_map] in H; [ | discriminate H ].
    injection H as <- <-.
    split; [ reflexivity | split; [ reflexivity | split; [ | exact Hs ] ] ].
    reflexivity.
Qed.

Lemma tested_from_bounds (tokens : list Token) (r i p : Z) (t : Token) :
  i < r -> tested_from tokens r i t p -> i <= p <= r.
Proof.
  unfold tested_from. intros Hlt H.
  destruct (is_token_type t LEFT_PAREN); [ | lia ].
  destruct H as (e & He & ->).
  apply closing_index_bounds in He. lia.
Qed.

Lemma token_between (tokens : list Token) (i r p : Z) (ti tr : Token) :
  token_at tokens i = Some ti -> token_at tokens r = Some tr ->
  i <= p <= r -> exists t, token_at tokens p = Some t.
Proof.
  intros Hi Hr Hp. apply token_at_bounds in Hi. apply token_at_bounds in Hr.
  apply token_at_in_bounds. lia.
Qed.

(** One iteration of the scan: it tests the token at the position given by
    [tested_from] and goes on behind it. *)
Lemma while_step_scan (tokens : list Token) (fuel : nat)
    (ops : list TokenType) (l r i cur p : Z) (t rt : Token) :
  i < r -> token_at tokens i = Some t -> token_at tokens r = Some rt ->
  tested_from tokens r i t p ->
  parse_expression_recursive_while tokens (S fuel) ops l r i cur
  = bind (handle_by_operations tokens fuel ops l r p)
      (fun node => if truthy node then ret node
                   else parse_expression_recursive_while tokens fuel ops
                          l r (p + 1)) cur.
Proof.
  intros Hlt Ht Hrt Hp. cbn [parse_expression_recursive_while].
  replace (i <? r) with true by (symmetry; apply Z.ltb_lt; exact Hlt).
  unfold bind at 1. rewrite (retrieve_token_some _ _ _ _ Ht).
  unfold tested_from in Hp.
  destruct (is_token_type t LEFT_PAREN).
  - destruct Hp as (e & He & ->). unfold bind at 1.
    rewrite (skip_parentheses_closing tokens i r cur e rt He Hrt).
    reflexivity.
  - subst p. unfold bind at 1. unfold ret at 1. reflexivity.
Qed.

Lemma free_of_cons (tokens : list Token) (kinds : list TokenType) (p : Z)
    (ps : list Z) (t : Token) :
  free_of tokens kinds (p :: ps) = true ->
  token_at tokens p = Some t ->
  mem (get_token_type t) kinds = false /\ free_of tokens kinds ps = true.
Proof.
  unfold free_of. cbn [forallb]. intros H Ht.
  apply andb_prop in H. destruct H as [H1 H2].
  unfold kind_at in H1. rewrite Ht in H1. cbn [option_map] in H1.
  split; [ apply negb_true_iff in H1; exact H1 | exact H2 ].
Qed.

Lemma free_of_app (tokens : list Token) (kinds : list TokenType)
    (ps1 ps2 : list Z) :
  free_of tokens kinds (ps1 ++ ps2)
  = free_of tokens kinds ps1 && free_of tokens kinds ps2.
Proof. unfold free_of. apply forallb_app. Qed.

Lemma handle_by_operations_mono (tokens : list Token) (n n' : nat)
    ops l r i :
  (n <= n')%nat ->
  M_le (handle_by_operations tokens n ops l r i)
       (handle_by_operations tokens n' ops l r i).
Proof. intros H. apply (mono_all tokens n n' H). Qed.

(** A scan whose tested positions hold no token of the active tier finds
    nothing. *)
Lemma while_scan_miss (tokens : list Token) (ops : list TokenType)
    (l r cur : Z) (rt : Token) :
  token_at tokens r = Some rt ->
  forall ps n i fuel,
    scan_positions tokens n r i = Some ps ->
    free_of tokens ops ps = true ->
    (List.length ps + 1 <= fuel)%nat ->
    parse_expression_recursive_while tokens fuel ops l r i cur
    = Ok (None, cur).
Proof.
  intros Hrt. induction ps as [ | p ps IH]; intros n i fuel Hs Hfree Hf.
  - destruct fuel as [ | fuel]; [ cbn in Hf; lia | ].
    apply while_empty_range.
    destruct (Z_lt_ge_dec i r) as [Hlt | Hge]; [ exfalso | lia ].
    destruct n; cbn [scan_positions] in Hs;
      replace (i <? r) with true in Hs
        by (symmetry; apply Z.ltb_lt; exact Hlt);
      try discriminate Hs.
    destruct (token_at tokens i) as [t | ]; [ | discriminate Hs ].
    cbv zeta in Hs.
    destruct (if is_token_type t LEFT_PAREN
              then option_map (fun e => Z.min (e + 1) r)
                     (closing_index tokens (Z.to_nat (r - i + 1)) 0 i)
              else Some i) as [p | ]; [ | discriminate Hs ].
    destruct (scan_positions tokens n r (p + 1)); discriminate Hs.
  - apply scan_positions_cons in Hs.
    destruct Hs as (Hlt & t & n' & -> & Ht & Hp & Hs).
    cbn [List.length] in Hf.
    destruct fuel as [ | [ | fuel]]; [ lia | lia | ].
    rewrite (while_step_scan tokens (S fuel) ops l r i cur p t rt Hlt Ht Hrt Hp).
    pose proof (tested_from_bounds tokens r i p t Hlt Hp) as Hb.
    destruct (token_between tokens i r p t rt Ht Hrt Hb) as [tp Htp].
    destruct (free_of_cons tokens ops p ps tp Hfree Htp) as [Hm Hfree'].
    unfold bind.
    rewrite (handle_by_operations_miss tokens fuel ops l r p cur tp Htp Hm).
    cbn [truthy]. apply (IH n' (p + 1) (S fuel) Hs Hfree'). lia.
Qed.

(** A scan returns the node built at the first tested position that holds
    a token of the active tier. *)
Lemma while_scan_hit (tokens : list Token) (ops : list TokenType)
    (l r cur j : Z) (rt : Token) (node : Node) (f0 : nat) (ps2 : list Z) :
  token_at tokens r = Some rt ->
  handle_by_operations tokens f0 ops l r j cur = Ok (Some node, cur) ->
  forall ps1 n i fuel,
    scan_positions tokens n r i = Some (ps1 ++ j :: ps2)%list ->
    free_of tokens ops ps1 = true ->
    (f0 + List.length ps1 + 1 <= fuel)%nat ->
    parse_expression_recursive_while tokens fuel ops l r i cur
    = Ok (Some node, cur).
Proof.
  intros Hrt Hh. induction ps1 as [ | p ps1 IH]; intros n i fuel Hs Hfree Hf.
  - cbn [app] in Hs. apply scan_positions_cons in Hs.
    destruct Hs as (Hlt & t & n' & -> & Ht & Hp & _).
    destruct fuel as [ | fuel]; [ lia | ].
    rewrite (while_step_scan tokens fuel ops l r i cur j t rt Hlt Ht Hrt Hp).
    unfold bind.
    rewrite (M_le_done _ _ _ _
               (handle_by_operations_mono tokens f0 fuel ops l r j
                  ltac:(cbn [List.length] in Hf; lia))
               Hh ltac:(discriminate)).
    reflexivity.
  - change ((p :: ps1) ++ j :: ps2)%list
      with (p :: (ps1 ++ j :: ps2))%list in Hs.
    apply scan_positions_cons in Hs.
    destruct Hs as (Hlt & t & n' & -> & Ht & Hp & Hs).
    cbn [List.length] in Hf.
    destruct fuel as [ | [ | fuel]]; [ lia | lia | ].
    rewrite (while_step_scan tokens (S fuel) ops l r i cur p t rt Hlt Ht Hrt Hp).
    pose proof (tested_from_bounds tokens r i p t Hlt Hp) as Hb.
    destruct (token_between tokens i r p t rt Ht Hrt Hb) as [tp Htp].
    destruct (free_of_cons tokens ops p ps1 tp Hfree Htp) as [Hm Hfree'].
    unfold bind.
    rewrite (handle_by_operations_miss tokens fuel ops l r p cur tp Htp Hm).
    cbn [truthy]. apply (IH n' (p + 1) (S fuel) Hs Hfree'). lia.
Qed.

(** A range in which the scan tests a position before its last token is
    not one parenthesized group: it goes to the operator search whole. *)
Lemma recursive_to_for_scan (tokens : list Token) (fuel : nat)
    (l r cur i : Z) (rt : Token) (ps : list Z) :
  tested_positions tokens l r = Some ps -> In i ps -> i < r ->
  token_at tokens r = Some rt ->
  parse_expression_recursive tokens (S fuel) l r cur
  = parse_expression_recursive_for tokens fuel operator_precedence l r cur.
Proof.
  intros Hs Hin Hir Hrt. unfold tested_positions in Hs.
  destruct ps as [ | p ps]; [ contradiction Hin | ].
  apply scan_positions_cons in Hs.
  destruct Hs as (Hlt & lt & n' & _ & Hl & Hp & Hs).
  unfold tested_from in Hp.
  destruct (is_token_type lt LEFT_PAREN) eqn:Hlp.
  2:{ apply (recursive_to_for tokens fuel l r cur lt rt Hl Hrt);
        [ lia | exact Hlp ]. }
  destruct Hp as (e & He & ->).
  destruct (find_parenthesis_count_closing tokens l r cur e rt He Hrt)
    as [Hb Hc].
  assert (Hne : e <> r).
  { intros ->. replace (Z.min (r + 1) r) with r in * by lia.
    rewrite scan_positions_nil in Hs by lia.
    injection Hs as <-. destruct Hin as [<- | []]. lia. }
  cbn [parse_expression_recursive].
  unfold bind at 1. rewrite (retrieve_token_some _ _ _ _ Hl).
  unfold bind at 1. rewrite (retrieve_token_some _ _ _ _ Hrt).
  replace (r - l =? 0) with false by (symmetry; apply Z.eqb_neq; lia).
  unfold bind at 1. unfold is_nested_parens, within_parens.
  unfold bind at 1. unfold bind at 1.
  rewrite (retrieve_token_some _ _ _ _ Hl).
  unfold bind at 1. rewrite (retrieve_token_some _ _ _ _ Hrt).
  cbn [ret]. rewrite Hlp. cbn [andb].
  destruct (is_token_type rt RIGHT_PAREN); cbn [negb]; [ | reflexivity ].
  unfold bind at 1. rewrite Hc.
  replace (e =? r) with false by (symmetry; apply Z.eqb_neq; exact Hne).
  rewrite andb_false_r. reflexivity.
Qed.

(** The tier that holds the first operator found decides the root: when
    the tiers tried before it find nothing at the tested positions, and its
    own scan meets no operator of the tier before position [i], the range
    parses to what the operator at [i] builds. *)
Lemma root_at_tested_position (tokens : list Token) (l i r cur : Z)
    (rt : Token) (before : list (list TokenType)) (tier : list TokenType)
    (after : list (list TokenType)) (ps1 ps2 : list Z) (node : Node)
    (f0 fuel : nat) :
  tested_positions tokens l r = Some (ps1 ++ i :: ps2)%list -> i < r ->
  token_at tokens r = Some rt ->
  operator_precedence = (before ++ tier :: after)%list ->
  (forall ops, In ops before ->
     free_of tokens ops (ps1 ++ i :: ps2) = true) ->
  free_of tokens tier ps1 = true ->
  handle_by_operations tokens f0 tier l r i cur = Ok (Some node, cur) ->
  (f0 + List.length ps1 + List.length ps2 + 10 <= fuel)%nat ->
  parse_expression_recursive tokens fuel l r cur = Ok (Some node, cur).
Proof.
  intros Hs Hir Hrt Hsplit Hbefore Htier Hh Hf.
  destruct fuel as [ | fuel]; [ lia | ].
  rewrite (recursive_to_for_scan tokens fuel l r cur i rt _ Hs
             (in_elt i ps1 ps2) Hir Hrt).
  assert (Hlen : (List.length before <= 6)%nat).
  { apply (f_equal (@List.length _)) in Hsplit.
    rewrite length_app in Hsplit. cbn in Hsplit. lia. }
  rewrite Hsplit.
  apply (for_search tokens l r cur node
           (f0 + List.length ps1 + List.length ps2 + 2) tier after before fuel).
  - intros ops f Hin Hw.
    apply (while_scan_miss tokens ops l r cur rt Hrt (ps1 ++ i :: ps2)
             (Z.to_nat (r - l)) l f Hs (Hbefore ops Hin)).
    rewrite length_app. cbn [List.length]. lia.
  - intros f Hw.
    apply (while_scan_hit tokens tier l r cur i rt node f0 ps2 Hrt Hh ps1
             (Z.to_nat (r - l)) l f Hs Htier).
    lia.
  - lia.
Qed.

Lemma free_of_same_set (tokens : list Token) (s1 s2 : list TokenType)
    (ps : list Z) :
  same_set s1 s2 -> free_of tokens s1 ps = free_of tokens s2 ps.
Proof.
  intros H. unfold free_of.
  induction ps as [ | p ps IH]; [ reflexivity | ].
  cbn [forallb]. rewrite IH.
  destruct (kind_at tokens p) as [k | ]; [ rewrite (H k) | ]; reflexivity.
Qed.

Lemma free_of_kinds_app (tokens : list Token) (s1 s2 : list TokenType)
    (ps : list Z) :
  free_of tokens (s1 ++ s2) ps = true ->
  free_of tokens s1 ps = true /\ free_of tokens s2 ps = true.
Proof.
  unfold free_of. induction ps as [ | p ps IH]; cbn [forallb]; intros H;
    [ split; reflexivity | ].
  apply andb_prop in H. destruct H as [Hp Hps].
  destruct (IH Hps) as [IH1 IH2]. rewrite IH1, IH2.
  destruct (kind_at tokens p) as [k | ]; [ | split; reflexivity ].
  apply negb_true_iff in Hp. apply mem_app_false in Hp.
  destruct Hp as [-> ->]. split; reflexivity.
Qed.

Lemma free_of_concat (tokens : list Token) (ps : list Z) :
  forall (p : list (list TokenType)) (ops : list TokenType),
    free_of tokens (List.concat p) ps = true -> In ops p ->
    free_of tokens ops ps = true.
Proof.
  induction p as [ | x p IH]; intros ops H Hin; [ contradiction Hin | ].
  cbn [List.concat] in H. apply free_of_kinds_app in H.
  destruct H as [Hx Hp]. destruct Hin as [<- | Hin]; [ exact Hx | ].
  apply IH; assumption.
Qed.

Lemma free_of_insert (tokens : list Token) (kinds : list TokenType)
    (ps1 ps2 : list Z) (i : Z) (t : Token) :
  free_of tokens kinds (ps1 ++ ps2) = true ->
  token_at tokens i = Some t ->
  mem (get_token_type t) kinds = false ->
  free_of tokens kinds (ps1 ++ i :: ps2) = true.
Proof.
  intros H Ht Hm. rewrite free_of_app in *.
  apply andb_prop in H. destruct H as [H1 H2]. rewrite H1. cbn [andb].
  change (free_of tokens kinds (i :: ps2))
    with ((match kind_at tokens i with
           | Some k => negb (mem k kinds)
           | None => true
           end) && free_of tokens kinds ps2).
  rewrite H2. unfold kind_at. rewrite Ht. cbn [option_map].
  rewrite Hm. reflexivity.
Qed.

(** The tiers of the code are those of the spec, in the same order. *)
Lemma tiers_same_sets : Forall2 same_set operator_precedence spec_precedence.
Proof.
  unfold operator_precedence, spec_precedence.
  repeat (apply Forall2_cons; [ intros t; destruct t; reflexivity | ]).
  apply Forall2_nil.
Qed.

Lemma split_at_tier_same_sets (k : TokenType) :
  forall p q,
    Forall2 same_set p q ->
    forall before tier after,
      split_at_tier k q = Some (before, tier, after) ->
      exists before' tier' after',
        split_at_tier k p = Some (before', tier', after') /\
        Forall2 same_set before' before /\ same_set tier' tier.
Proof.
  induction 1 as [ | x y p q Hxy Hpq IH]; intros before tier after H;
    cbn [split_at_tier] in *; [ discriminate H | ].
  rewrite (Hxy k). destruct (mem k y).
  - injection H as <- <- <-.
    exists [], x, p. split; [ reflexivity | split; [ constructor | exact Hxy ] ].
  - destruct (split_at_tier k q) as [[[b t] a] | ]; [ | discriminate H ].
    injection H as <- <- <-.
    destruct (IH b t a eq_refl) as (b' & t' & a' & -> & Hb & Ht).
    exists (x :: b'), t', a'.
    split; [ reflexivity | split; [ constructor; assumption | exact Ht ] ].
Qed.

Lemma same_set_in (p q : list (list TokenType)) (x : list TokenType) :
  Forall2 same_set p q -> In x p -> exists y, In y q /\ same_set x y.
Proof.
  induction 1 as [ | x' y' p q Hxy Hpq IH]; intros Hin; [ contradiction Hin | ].
  destruct Hin as [<- | Hin].
  - exists y'. split; [ left; reflexivity | exact Hxy ].
  - destruct (IH Hin) as (y & Hy & Hs).
    exists y. split; [ right; exact Hy | exact Hs ].
Qed.

(** A kind found in a tier is a binary operator or the logical not. *)
Lemma tier_kind_not_binary (tier : list TokenType) (k : TokenType) :
  In tier operator_precedence -> mem k tier = true ->
  binary_operation_map k = None -> k = BANG.
Proof.
  intros Hin Hm Hb.
  destruct (mem k operation_types) eqn:Ho.
  - destruct k; try discriminate Ho; try discriminate Hb; reflexivity.
  - rewrite (tier_in_operation_types tier k Hin Ho) in Hm. discriminate Hm.
Qed.

(** What [_handle_by_operations] returns at the root operator. *)
Lemma handler_builds_root (tokens : list Token) (fuel0 : nat)
    (tier : list TokenType) (l i r cur : Z) (top : Token) (b node : Node) :
  token_at tokens i = Some top ->
  mem (get_token_type top) tier = true ->
  In tier operator_precedence ->
  parse_expression_recursive tokens fuel0 (i + 1) r cur = Ok (Some b, cur) ->
  root_node tokens fuel0 l i cur (get_token_type top) b node ->
  handle_by_operations tokens (fuel0 + 3) tier l r i cur
  = Ok (Some node, cur).
Proof.
  intros Htop Hm Hin Hright Hroot. unfold root_node in Hroot.
  replace (fuel0 + 3)%nat with (S (S (S fuel0))) by lia.
  assert (Hright' : parse_expression_recursive tokens (S fuel0) (i + 1) r cur
                    = Ok (Some b, cur)).
  { apply (M_le_done _ _ _ _
             (parse_expression_recursive_mono tokens fuel0 (S fuel0)
                (i + 1) r ltac:(lia)) Hright).
    discriminate. }
  destruct (binary_operation_map (get_token_type top)) as [mk | ] eqn:Hb.
  - destruct Hroot as (a & Ha & ->).
    rewrite (handle_by_operations_binary tokens _ tier l r i cur top mk
               Htop Hm Hb).
    apply (handle_binary_operation_run tokens fuel0 l i r cur top mk a b
             Htop Hb); [ | exact Hright' ].
    apply (M_le_done _ _ _ _
             (parse_expression_recursive_mono tokens fuel0 (S fuel0)
                l (i - 1) ltac:(lia)) Ha).
    discriminate.
  - subst node.
    pose proof (tier_kind_not_binary tier _ Hin Hm Hb) as Hk.
    rewrite (handle_by_operations_unary tokens _ tier l r i cur top
               Htop Hm Hk).
    apply (handle_unary_operation_run tokens fuel0 i r cur top b Htop Hk
             Hright').
Qed.

(** ** C5: the order of the precedence tiers *)

(** C5.  The range parser tries the tiers in the order of the spec, lowest
    precedence first: or, and, the comparisons, unary not, plus and minus,
    times, divide and modulus, the exponent.  In any range [l, r], let [i]
    be a position tested by the operator scan (a token outside
    parentheses) that holds an operator; if no token at a tested position
    is of a tier that comes before the operator's tier in the spec's list,
    and no token at a tested position before [i] is of the operator's own
    tier, then the operator at [i] is the root of the tree: the range
    parses to its node over the parses of the tokens to its left and to its
    right (for the unary not, of the tokens to its right).  Consequently
    [4 == (8 / 2) * 3] parses to
    Equals(4, Multiplication(Division(8, 2), 3)). *)
Theorem C5_precedence_tiers_and_example
    (tokens : list Token) (l i r cur : Z) (top : Token)
    (before : list (list TokenType)) (tier : list TokenType)
    (after : list (list TokenType)) (ps1 ps2 : list Z) (b node : Node)
    (fuel0 fuel : nat) :
  tested_positions tokens l r = Some (ps1 ++ i :: ps2)%list ->
  i < r ->
  token_at tokens i = Some top ->
  split_at_tier (get_token_type top) spec_precedence
  = Some (before, tier, after) ->
  free_of tokens (List.concat before) (ps1 ++ ps2) = true ->
  free_of tokens tier ps1 = true ->
  parse_expression_recursive tokens fuel0 (i + 1) r cur = Ok (Some b, cur) ->
  root_node tokens fuel0 l i cur (get_token_type top) b node ->
  (fuel0 + List.length ps1 + List.length ps2 + 13 <= fuel)%nat ->
  parse_expression_recursive tokens fuel l r cur = Ok (Some node, cur) /\
  (forall fuel', (100 <= fuel')%nat ->
     parse_expression tokens_equality fuel' 3
     = Ok (Some (EqualsNode
                   (NumberLiteralNode (Some (PyNumber 4)))
                   (MultiplicationNode
                      (DivisionNode (NumberLiteralNode (Some (PyNumber 8)))
                                    (NumberLiteralNode (Some (PyNumber 2))))
                      (NumberLiteralNode (Some (PyNumber 3))))),
           12)).
Proof.
  intros Hs Hir Htop Hsplit Hfb Hft Hright Hroot Hf. split.
  - destruct (recursive_ok_tokens _ _ _ _ _ _ Hright) as (_ & rt & _ & Hrt).
    destruct (split_at_tier_same_sets (get_token_type top)
                operator_precedence spec_precedence tiers_same_sets
                before tier after Hsplit)
      as (before' & tier' & after' & Hsplit' & Hsb & Hst).
    destruct (split_at_tier_spec _ _ _ _ _ Hsplit') as (Hp & Hm & Hnot).
    assert (Hin : In tier' operator_precedence).
    { rewrite Hp. apply in_elt. }
    apply (root_at_tested_position tokens l i r cur rt before' tier' after'
             ps1 ps2 node (fuel0 + 3) fuel Hs Hir Hrt Hp).
    + intros ops Hops.
      destruct (same_set_in before' before ops Hsb Hops) as (y & Hy & Hsy).
      apply (free_of_insert tokens ops ps1 ps2 i top);
        [ | exact Htop | apply Hnot; exact Hops ].
      rewrite (free_of_same_set tokens ops y _ Hsy).
      apply (free_of_concat tokens _ before y Hfb Hy).
    + rewrite (free_of_same_set tokens tier' tier _ Hst). exact Hft.
    + apply (handler_builds_root tokens fuel0 tier' l i r cur top b node
               Htop Hm Hin Hright Hroot).
    + lia.
  - intros fuel' Hf'.
    apply (M_le_done _ _ _ _
             (parse_expression_mono tokens_equality 100 fuel' Hf'));
      [ vm_compute; reflexivity | discriminate ].
Qed.

Lemma C5_precedence_tiers_and_example_witness :
  parse_expression_recursive tokens_equality 50 3 11 3
  = Ok (Some (EqualsNode
                (NumberLiteralNode (Some (PyNumber 4)))
                (MultiplicationNode
                   (DivisionNode (NumberLiteralNode (Some (PyNumber 8)))
                                 (NumberLiteralNode (Some (PyNumber 2))))
                   (NumberLiteralNode (Some (PyNumber 3))))),
        3) /\
  (forall fuel', (100 <= fuel')%nat ->
     parse_expression tokens_equality fuel' 3
     = Ok (Some (EqualsNode
                   (NumberLiteralNode (Some (PyNumber 4)))
                   (MultiplicationNode
                      (DivisionNode (NumberLiteralNode (Some (PyNumber 8)))
                                    (NumberLiteralNode (Some (PyNumber 2))))
                      (NumberLiteralNode (Some (PyNumber 3))))),
           12)).
Proof.
  apply (C5_precedence_tiers_and_example tokens_equality 3 4 11 3
           (tk EQUAL_EQUAL 2)
           [[OR]; [AND]]
           [EQUAL_EQUAL; BANG_EQUAL; LESS; LESS_EQUAL; GREATER; GREATER_EQUAL]
           [[BANG]; [PLUS; MINUS]; [MULTIPLY; DIVIDE; MODULUS]; [EXPONENT]]
           [3] [10]
           (MultiplicationNode
              (DivisionNode (NumberLiteralNode (Some (PyNumber 8)))
                            (NumberLiteralNode (Some (PyNumber 2))))
              (NumberLiteralNode (Some (PyNumber 3))))
           (EqualsNode
              (NumberLiteralNode (Some (PyNumber 4)))
              (MultiplicationNode
                 (DivisionNode (NumberLiteralNode (Some (PyNumber 8)))
                               (NumberLiteralNode (Some (PyNumber 2))))
                 (NumberLiteralNode (Some (PyNumber 3)))))
           30 50).
  - reflexivity.
  - lia.
  - reflexivity.
  - reflexivity.
  - reflexivity.
  - reflexivity.
  - vm_compute. reflexivity.
  - unfold root_node. cbn [tk get_token_type binary_operation_map].
    exists (NumberLiteralNode (Some (PyNumber 4))).
    split; [ vm_compute; reflexivity | reflexivity ].
  - vm_compute. lia.
Defined.

(** ** C9: a logical not in the middle of a range *)

(** C9, amended.  In a range [l, r], let [i], before the last token, be a
    position tested by the operator scan (a token outside parentheses)
    that holds a logical-not token.  If no token at a tested position
    before [i] is an or/and/comparison/not operator, no token at a tested
    position after [i] is an or/and/comparison operator, and the tokens to
    the right of [i] parse to a node [n], then the range parses to Not(n):
    the node is built from the tokens to the right of the not token only,
    whatever stands to its left.  What stands inside parentheses, on
    either side, does not matter: [(a == b) * not (c == d)] parses to
    Not(c == d). *)
Theorem C9_not_discards_left_tokens
    (tokens : list Token) (l i r cur : Z) (tb : Token) (n : Node)
    (ps1 ps2 : list Z) (fuel0 fuel : nat) :
  i < r ->
  token_at tokens i = Some tb -> get_token_type tb = BANG ->
  tested_positions tokens l r = Some (ps1 ++ i :: ps2)%list ->
  free_of tokens search_kinds ps1 = true ->
  free_of tokens binding_kinds ps2 = true ->
  parse_expression_recursive tokens fuel0 (i + 1) r cur = Ok (Some n, cur) ->
  (fuel0 + List.length ps1 + List.length ps2 + 13 <= fuel)%nat ->
  parse_expression_recursive tokens fuel l r cur = Ok (Some (NotNode n), cur).
Proof.
  intros Hir Htb Hkb Hs Hf1 Hf2 Hright Hf.
  destruct (recursive_ok_tokens _ _ _ _ _ _ Hright) as (_ & rt & _ & Hrt).
  unfold search_kinds in Hf1. apply free_of_kinds_app in Hf1.
  destruct Hf1 as [Hbind1 Hbang1].
  assert (Hbind : free_of tokens binding_kinds (ps1 ++ i :: ps2) = true).
  { apply (free_of_insert tokens binding_kinds ps1 ps2 i tb);
      [ | exact Htb | rewrite Hkb; reflexivity ].
    rewrite free_of_app, Hbind1, Hf2. reflexivity. }
  apply (root_at_tested_position tokens l i r cur rt
           (firstn 3 operator_precedence) [BANG] (skipn 4 operator_precedence)
           ps1 ps2 (NotNode n) (fuel0 + 3) fuel Hs Hir Hrt eq_refl).
  - intros ops Hops.
    apply (free_of_concat tokens _ (firstn 3 operator_precedence) ops);
      [ exact Hbind | exact Hops ].
  - exact Hbang1.
  - apply (handler_builds_root tokens fuel0 [BANG] l i r cur tb n (NotNode n)
             Htb); [ rewrite Hkb; reflexivity | | exact Hright | ].
    + cbn [operator_precedence In]. tauto.
    + unfold root_node. rewrite Hkb. reflexivity.
  - lia.
Qed.

Lemma C9_not_discards_left_tokens_witness :
  parse_expression_recursive tokens_5_plus_not_b 20 1 4 1
  = Ok (Some (NotNode (VariableNode "b")), 1) /\
  parse_expression_recursive tokens_product_not_group 40 1 12 1
  = Ok (Some (NotNode (EqualsNode (VariableNode "c") (VariableNode "d"))), 1).
Proof.
  split.
  - apply (C9_not_discards_left_tokens tokens_5_plus_not_b 1 3 4 1
             (tk BANG 1) (VariableNode "b") [1; 2] [] 2 20).
    + lia.
    + reflexivity.
    + reflexivity.
    + reflexivity.
    + reflexivity.
    + reflexivity.
    + reflexivity.
    + vm_compute. lia.
  - apply (C9_not_discards_left_tokens tokens_product_not_group 1 7 12 1
             (tk BANG 1)
             (EqualsNode (VariableNode "c") (VariableNode "d"))
             [6] [12] 20 40).
    + lia.
    + reflexivity.
    + reflexivity.
    + reflexivity.
    + reflexivity.
    + reflexivity.
    + vm_compute. reflexivity.
    + vm_compute. lia.
Defined.

(** The claim of C9 fails on the code when the not token stands inside
    parentheses: in [5 + (not b)] a not token appears after the start of the
    range and there is no or/and/comparison operator, yet the range parses
    to Addition(5, Not(b)) and at no fuel to a Not node. *)
Lemma C9_not_inside_parentheses :
  kind_at tokens_5_plus_paren_not_b 4 = Some BANG /\
  parse_expression_recursive tokens_5_plus_paren_not_b 100 1 6 1
  = Ok (Some (AdditionNode (NumberLiteralNode (Some (PyNumber 5)))
                (NotNode (VariableNode "b"))), 1) /\
  ~ (exists (fuel : nat) (n : Node) (c : Z),
        parse_expression_recursive tokens_5_plus_paren_not_b fuel 1 6 1
        = Ok (Some (NotNode n), c)).
Proof.
  split; [ reflexivity | split; [ vm_compute; reflexivity | ] ].
  intros (fuel & n & c & H).
  pose proof (M_le_done _ _ _ _
                (parse_expression_recursive_mono tokens_5_plus_paren_not_b
                   fuel (Nat.max fuel 100) 1 6 (Nat.le_max_l _ _))
                H ltac:(discriminate)) as H1.
  assert (H2 : parse_expression_recursive tokens_5_plus_paren_not_b
                 (Nat.max fuel 100) 1 6 1
               = Ok (Some (AdditionNode (NumberLiteralNode (Some (PyNumber 5)))
                             (NotNode (VariableNode "b"))), 1)).
  { apply (M_le_done _ _ _ _
             (parse_expression_recursive_mono tokens_5_plus_paren_not_b
                100 (Nat.max fuel 100) 1 6 (Nat.le_max_r _ _)));
      [ vm_compute; reflexivity | discriminate ]. }
  rewrite H2 in H1. discriminate H1.
Qed.

